(** * AMBER-ICI: document-to-graph pipeline and model orchestration

    A shallow embedding of the Python sources
      - [src/graph/graph_builder.py]      (module [GraphBuilder])
      - [src/graph/entity_extractor.py]   (module [EntityExtractor])
      - [src/backend/main.py]             (module [Chain])
      - [src/agents/investigative_agent.py] (module [Agent])
    together with the properties of the specification that concern them. *)

From Stdlib Require Import ZArith NArith Ascii String.
From stdpp Require Import base option list gmap pretty sorting.

Local Open Scope Z_scope.

(** ** Python values shared by the modules *)

(** A Python [str] is a sequence of Unicode code points. *)
Abbreviation pystr := (list N).

(** String literals of the sources (all of them ASCII). *)
Definition py (s : string) : pystr :=
  (fun a => N_of_ascii a) <$> list_ascii_of_string s.

(** [sep.join(parts)] *)
Fixpoint join (sep : pystr) (parts : list pystr) : pystr :=
  match parts with
  | [] => []
  | [p] => p
  | p :: rest => p ++ sep ++ join sep rest
  end.

(** An entity is a Python dict; the keys the sources read are [id], [type],
    [value], [start], [end] and [source].  [None] stands for an absent key. *)
Record entity := Entity {
  e_id : option pystr;
  e_type : option pystr;
  e_value : option pystr;
  e_start : option Z;
  e_end : option Z;
  e_source : option pystr
}.

#[global] Instance entity_eq_dec : EqDecision entity.
Proof. solve_decision. Defined.

(** [d.get(key, default)] *)
Definition get {A} (field : option A) (default : A) : A :=
  match field with
  | Some v => v
  | None => default
  end.

(** Formatting of [d.get(key)] inside an f-string: a missing key reads as
    Python's [None]. *)
Definition fmt_opt (field : option pystr) : pystr :=
  get field (py "None").

(** ** graph_builder.py *)
Module GraphBuilder.

Record node := Node {
  n_id : pystr;
  n_label : pystr;
  n_type : pystr;
  n_source : pystr;
  n_data : entity
}.

(** [source] and [target] hold [entity.get("id")], which is [None] for an
    entity without that key. *)
Record edge := Edge {
  ed_id : pystr;
  ed_source : option pystr;
  ed_target : option pystr;
  ed_type : pystr;
  ed_weight : Z
}.

#[global] Instance node_eq_dec : EqDecision node.
Proof. solve_decision. Defined.
#[global] Instance edge_eq_dec : EqDecision edge.
Proof. solve_decision. Defined.

(** The instance attributes [self.nodes], [self.edges], [self.node_ids]. *)
Record builder := Builder {
  nodes : list node;
  edges : list edge;
  node_ids : gset pystr
}.

Record graph := Graph {
  g_nodes : list node;
  g_edges : list edge;
  g_node_count : nat;
  g_edge_count : nat
}.

(** [GraphBuilder.__init__] *)
Definition init : builder :=
  {| nodes := []; edges := []; node_ids := ∅ |}.

(** [entity.get("id") or entity.get("value", "unknown")]: an absent or empty
    id falls through to the value. *)
Definition node_key (e : entity) : pystr :=
  match e_id e with
  | Some (c :: s) => c :: s
  | _ => get (e_value e) (py "unknown")
  end.

Definition make_node (e : entity) : node :=
  {| n_id := node_key e;
     n_label := get (e_value e) (py "");
     n_type := get (e_type e) (py "unknown");
     n_source := get (e_source e) (py "default");
     n_data := e |}.

Definition _add_node (self : builder) (e : entity) : builder :=
  let node_id := node_key e in
  if decide (node_id ∈ node_ids self) then self
  else {| nodes := nodes self ++ [make_node e];
          edges := edges self;
          node_ids := {[node_id]} ∪ node_ids self |}.

Definition source_of (e : entity) : pystr := get (e_source e) (py "default").

(** [source_groups] is a dict, iterated in insertion order: an association
    list whose keys appear in order of first occurrence. *)
Fixpoint group_append (source : pystr) (e : entity)
    (groups : list (pystr * list entity)) : list (pystr * list entity) :=
  match groups with
  | [] => [(source, [e])]
  | (s, es) :: rest =>
      if decide (s = source) then (s, es ++ [e]) :: rest
      else (s, es) :: group_append source e rest
  end.

Definition source_groups (entities : list entity) : list (pystr * list entity) :=
  foldl (fun groups e => group_append (source_of e) e groups) [] entities.

Definition _are_related (entity1 entity2 : entity) : bool :=
  if decide (e_type entity1 = e_type entity2) then true
  else
    let start1 := get (e_start entity1) (-1) in
    let start2 := get (e_start entity2) (-1) in
    if (0 <=? start1) && (0 <=? start2) then Z.abs (start1 - start2) <? 200
    else false.

Definition make_edge (entity1 entity2 : entity) : edge :=
  {| ed_id := fmt_opt (e_id entity1) ++ py "_" ++ fmt_opt (e_id entity2);
     ed_source := e_id entity1;
     ed_target := e_id entity2;
     ed_type := py "related";
     ed_weight := 1 |}.

(** The two nested loops over one group: [entity1] against every later
    member [group_entities[i+1:]]. *)
Fixpoint group_edges (group_entities : list entity) : list edge :=
  match group_entities with
  | [] => []
  | entity1 :: later =>
      (make_edge entity1 <$> filter (fun entity2 => _are_related entity1 entity2 = true) later)
      ++ group_edges later
  end.

Definition _create_edges (self : builder) (entities : list entity) : builder :=
  {| nodes := nodes self;
     edges := edges self ++ mjoin ((fun g => group_edges g.2) <$> source_groups entities);
     node_ids := node_ids self |}.

Definition build_graph (self : builder) (entities : list entity) : graph * builder :=
  let self := {| nodes := []; edges := []; node_ids := ∅ |} in
  let self := foldl _add_node self entities in
  let self := _create_edges self entities in
  ({| g_nodes := nodes self;
      g_edges := edges self;
      g_node_count := length (nodes self);
      g_edge_count := length (edges self) |}, self).

(** [add_custom_edge], with its default [edge_type="custom"] passed
    explicitly. *)
Definition add_custom_edge (self : builder) (source_id target_id edge_type : pystr) : builder :=
  if decide (source_id ∈ node_ids self ∧ target_id ∈ node_ids self) then
    {| nodes := nodes self;
       edges := edges self ++
         [{| ed_id := source_id ++ py "_" ++ target_id;
             ed_source := Some source_id;
             ed_target := Some target_id;
             ed_type := edge_type;
             ed_weight := 1 |}];
       node_ids := node_ids self |}
  else self.

(** *** Vocabulary of the properties of this module *)

(** What the node loop of [build_graph] has established after the entities
    [seen]. *)
Record nodes_inv (seen : list entity) (b : builder) : Prop := NodesInv {
  inv_ids : ∀ k, k ∈ node_ids b ↔ k ∈ node_key <$> seen;
  inv_nodup : NoDup (n_id <$> nodes b);
  inv_first : ∀ n, n ∈ nodes b →
    ∃ i e, list_find (fun e => node_key e = n_id n) seen = Some (i, e) ∧ n = make_node e;
  inv_total : ∀ e, e ∈ seen → ∃ n, n ∈ nodes b ∧ n_id n = node_key e
}.

(** Every source group is a subsequence of the entities, all carrying the
    group's tag. *)
Definition groups_inv (seen : list entity) (groups : list (pystr * list entity)) : Prop :=
  ∀ s es, (s, es) ∈ groups → es `sublist_of` seen ∧ ∀ e, e ∈ es → source_of e = s.

(** Entities of the examples: only [id] and [value], only [value] and [type],
    and a full record with a source tag. *)
Definition with_id (id value : string) : entity :=
  Entity (Some (py id)) None (Some (py value)) None None None.
Definition without_id (value type : string) : entity :=
  Entity None (Some (py type)) (Some (py value)) None None None.
Definition tagged (id type source : string) (start : Z) : entity :=
  Entity (Some (py id)) (Some (py type)) (Some (py id)) (Some start) (Some (start + 1))
         (Some (py source)).


(** The value [source_groups[source]], empty for an absent key. *)
Fixpoint group_of (source : pystr) (groups : list (pystr * list entity)) : list entity :=
  match groups with
  | [] => []
  | (s, es) :: rest => if decide (s = source) then es else group_of source rest
  end.

End GraphBuilder.

(** ** entity_extractor.py *)

(** *** The standard library the module calls

    [re] and [str.lower] belong to the Python runtime.  They are modelled here
    for the constructs the patterns of the module use.  On ASCII characters
    the classes [\d], [\s], [\w] and the lower-casing are fixed; above ASCII
    they follow the Unicode database, which is a parameter. *)
Record unicode := Unicode {
  uni_digit : N → bool;      (* decimal digits beyond ASCII *)
  uni_space : N → bool;      (* whitespace beyond ASCII *)
  uni_alnum : N → bool;      (* alphanumerics beyond ASCII *)
  uni_lower : pystr → pystr  (* [str.lower] on a string that is not all ASCII *)
}.

Module Re.
Local Open Scope N_scope.

Definition is_ascii (c : N) : bool := c <? 128.
Definition in_range (lo hi : string) (c : N) : bool :=
  match py lo, py hi with
  | [l], [h] => (l <=? c) && (c <=? h)
  | _, _ => false
  end.
Definition one_of (chars : string) (c : N) : bool := bool_decide (c ∈ py chars).

Section Classes.
Context (U : unicode).

(** [\d] *)
Definition digit (c : N) : bool :=
  if is_ascii c then in_range "0" "9" c else uni_digit U c.
(** [\s]: for a [str] pattern the ASCII whitespace is tab to carriage return,
    the four separators 0x1c to 0x1f, and space. *)
Definition space (c : N) : bool :=
  if is_ascii c then ((9 <=? c) && (c <=? 13)) || ((28 <=? c) && (c <=? 32))
  else uni_space U c.
(** [\w] *)
Definition word (c : N) : bool :=
  if is_ascii c then
    in_range "a" "z" c || in_range "A" "Z" c || in_range "0" "9" c || one_of "_" c
  else uni_alnum U c.

(** [str.lower] *)
Definition ascii_lower (c : N) : N := if in_range "A" "Z" c then c + 32 else c.
Definition lower (s : pystr) : pystr :=
  if forallb is_ascii s then ascii_lower <$> s else uni_lower U s.

End Classes.

(** The pattern constructs in use: a one-character test (literal, set or
    class), the word boundary [\b], concatenation, and greedy repetition
    [r{lo,hi}] ([hi = None] for no upper bound). *)
Inductive regex :=
| Chr (p : N → bool)
| Boundary
| Seq (r1 r2 : regex)
| Repeat (r : regex) (lo : nat) (hi : option nat).

(** A position in the subject string: the offset, the character before it and
    the characters from it on. *)
Record cursor := Cursor { pos : nat; prev : option N; rest : pystr }.

Definition may_iterate (hi : option nat) : bool :=
  match hi with Some O => false | _ => true end.

(** The greedy loop of a repetition: one more iteration of [body] is tried
    first, and the loop is left (when [lo] iterations are done) only if that
    fails.  An iteration has to consume input; [fuel] bounds the number of
    iterations by the length of the input left. *)
Fixpoint repeat_loop (body : cursor → (cursor → option cursor) → option cursor)
    (fuel lo : nat) (hi : option nat) (st : cursor)
    (k : cursor → option cursor) : option cursor :=
  let leave := match lo with O => k st | S _ => None end in
  match fuel with
  | O => leave
  | S fuel' =>
      let more :=
        if may_iterate hi then
          body st (fun st' =>
            if (pos st <? pos st')%nat
            then repeat_loop body fuel' (Nat.pred lo) (Nat.pred <$> hi) st' k
            else None)
        else None in
      match more with
      | Some res => Some res
      | None => leave
      end
  end.

Section Matcher.
Context (U : unicode).

Definition at_boundary (st : cursor) : bool :=
  let before := match prev st with Some c => word U c | None => false end in
  let after := match rest st with c :: _ => word U c | [] => false end in
  xorb before after.

(** Backtracking match of [r] at [st]; [k] is the rest of the pattern. *)
Fixpoint run (r : regex) (st : cursor) (k : cursor → option cursor) : option cursor :=
  match r with
  | Chr p =>
      match rest st with
      | c :: s => if p c then k (Cursor (S (pos st)) (Some c) s) else None
      | [] => None
      end
  | Boundary => if at_boundary st then k st else None
  | Seq r1 r2 => run r1 st (fun st' => run r2 st' k)
  | Repeat r lo hi => repeat_loop (run r) (length (rest st)) lo hi st k
  end.

(** A match object: [m.start()], [m.end()], [m.group()]. *)
Record rmatch := Match { m_start : nat; m_end : nat; m_group : pystr }.

(** [re.finditer]: the leftmost match from each position on, the scan
    resuming where the last match ended ([skip] characters further).  None of
    the patterns of this module matches the empty string, so the retry rule
    after an empty match plays no part. *)
Fixpoint finditer_from (r : regex) (skip : nat) (at_pos : nat) (before : option N)
    (s : pystr) : list rmatch :=
  let here :=
    match skip with
    | O => run r (Cursor at_pos before s) Some
    | S _ => None
    end in
  match here with
  | Some fin =>
      Match at_pos (pos fin) (take (pos fin - at_pos) s) ::
      match s with
      | [] => []
      | c :: s' => finditer_from r (pos fin - at_pos - 1) (S at_pos) (Some c) s'
      end
  | None =>
      match s with
      | [] => []
      | c :: s' => finditer_from r (Nat.pred skip) (S at_pos) (Some c) s'
      end
  end.

Definition finditer (r : regex) (text : pystr) : list rmatch :=
  finditer_from r 0 0 None text.

(** [re.findall] for a pattern without groups. *)
Definition findall (r : regex) (text : pystr) : list pystr :=
  m_group <$> finditer r text.

End Matcher.

(** Pattern syntax. *)
Fixpoint seq (rs : list regex) : regex :=
  match rs with
  | [] => Repeat Boundary 0 (Some O)
  | [r] => r
  | r :: rs' => Seq r (seq rs')
  end.
Definition lit (chars : string) : regex :=
  seq ((fun c => Chr (N.eqb c)) <$> py chars).
Definition plus (r : regex) : regex := Repeat r 1 None.
Definition star (r : regex) : regex := Repeat r 0 None.
Definition opt (r : regex) : regex := Repeat r 0 (Some 1%nat).
Definition times (r : regex) (n : nat) : regex := Repeat r n (Some n).
Definition set (classes : list (N → bool)) : regex :=
  Chr (fun c => existsb (fun p => p c) classes).
Definition not_set (classes : list (N → bool)) : regex :=
  Chr (fun c => negb (existsb (fun p => p c) classes)).

(** [st'] is a position further on in the subject of [st]. *)
Definition further (st st' : cursor) : Prop :=
  (pos st ≤ pos st')%nat
  ∧ (pos st' + length (rest st') = pos st + length (rest st))%nat.

End Re.

Module EntityExtractor.
Import Re.

(** [_get_stop_words]; a Python set literal, so the repeated entries
    ([which], [from]) count once. *)
Definition _get_stop_words : gset pystr :=
  list_to_set (py <$>
    ["the"; "is"; "at"; "which"; "on"; "and"; "a"; "an"; "as"; "are";
     "was"; "were"; "been"; "be"; "have"; "has"; "had"; "do"; "does";
     "did"; "will"; "would"; "could"; "should"; "may"; "might"; "must";
     "can"; "this"; "that"; "these"; "those"; "i"; "you"; "he"; "she";
     "it"; "we"; "they"; "them"; "their"; "what"; "which"; "who"; "when";
     "where"; "why"; "how"; "all"; "each"; "every"; "both"; "few"; "more";
     "most"; "other"; "some"; "such"; "no"; "nor"; "not"; "only"; "own";
     "same"; "so"; "than"; "too"; "very"; "from"; "with"; "about"; "into";
     "through"; "during"; "before"; "after"; "above"; "below"; "to"; "from";
     "up"; "down"; "in"; "out"; "off"; "over"; "under"; "again"; "further";
     "then"; "once"]%string).

(** [word_freq[word] = word_freq.get(word, 0) + 1] on a dict that keeps
    insertion order. *)
Fixpoint count_word (word : pystr) (word_freq : list (pystr * nat)) : list (pystr * nat) :=
  match word_freq with
  | [] => [(word, 1%nat)]
  | (w, n) :: others =>
      if decide (w = word) then (w, S n) :: others
      else (w, n) :: count_word word others
  end.

(** [sorted(items, key=lambda x: x[1], reverse=True)]: descending by count,
    items of equal count staying in their original order. *)
Fixpoint insert_by_freq (x : pystr * nat) (sorted : list (pystr * nat)) : list (pystr * nat) :=
  match sorted with
  | [] => [x]
  | y :: others =>
      if (x.2 <? y.2)%nat then y :: insert_by_freq x others else x :: y :: others
  end.
Definition sorted_by_freq (items : list (pystr * nat)) : list (pystr * nat) :=
  foldr insert_by_freq [] items.

(** ["entity_{entity_id}"] *)
Definition entity_name (entity_id : nat) : pystr :=
  py "entity_" ++ py (pretty entity_id).

(** The local variables [entities] and [entity_id] of [extract_entities]. *)
Record found := Found { entities : list entity; entity_id : nat }.

Definition append (st : found) (type value : pystr) (start end_ : Z) : found :=
  {| entities := entities st ++
       [Entity (Some (entity_name (entity_id st))) (Some type) (Some value)
               (Some start) (Some end_) None];
     entity_id := S (entity_id st) |}.

Definition append_match (type : pystr) (st : found) (m : rmatch) : found :=
  append st type (m_group m) (Z.of_nat (m_start m)) (Z.of_nat (m_end m)).

Section Extractor.
Context (U : unicode).

Definition upper : N → bool := in_range "A" "Z".
Definition lowercase : N → bool := in_range "a" "z".
Definition digit09 : N → bool := in_range "0" "9".
Definition d : regex := Chr (digit U).

(** [self.patterns], in the order of the dict literal. *)
Definition patterns : list (pystr * regex) :=
  [ (py "email",
     seq [Boundary; plus (set [upper; lowercase; digit09; one_of "._%+-"]); lit "@";
          plus (set [upper; lowercase; digit09; one_of ".-"]); lit ".";
          Repeat (set [upper; one_of "|"; lowercase]) 2 None; Boundary]);
    (py "url",
     seq [lit "http"; opt (lit "s"); lit "://"; plus (not_set [space U])]);
    (py "phone",
     seq [Boundary; times d 3; opt (set [one_of "-."]); times d 3;
          opt (set [one_of "-."]); times d 4; Boundary]);
    (py "date",
     seq [Boundary; Repeat d 1 (Some 2%nat); set [one_of "/-"];
          Repeat d 1 (Some 2%nat); set [one_of "/-"];
          Repeat d 2 (Some 4%nat); Boundary]);
    (py "money",
     seq [lit "$"; plus d; star (seq [lit ","; times d 3]);
          opt (seq [lit "."; times d 2])]) ].

Definition capitalized_pattern : regex :=
  seq [Boundary; Chr upper; plus (Chr lowercase);
       star (seq [plus (Chr (space U)); Chr upper; plus (Chr lowercase)]); Boundary].

Definition word_pattern : regex :=
  seq [Boundary; Repeat (Chr lowercase) 4 None; Boundary].

Definition _extract_key_phrases (text : pystr) (max_phrases : nat) : list pystr :=
  let words := findall U word_pattern (lower U text) in
  let word_freq :=
    foldl (fun word_freq word =>
             if decide (word ∈ _get_stop_words) then word_freq
             else count_word word word_freq) [] words in
  let sorted_words := sorted_by_freq word_freq in
  fst <$> take max_phrases sorted_words.

(** The loop over the capitalized matches, with its set [seen_values]. *)
Definition named_step (acc : found * gset pystr) (m : rmatch) : found * gset pystr :=
  let value := m_group m in
  if bool_decide (2 < length value)%nat && bool_decide (value ∉ acc.2) then
    (append_match (py "named_entity") acc.1 m, {[value]} ∪ acc.2)
  else acc.

Definition extract_entities (text : pystr) : list entity :=
  let st := {| entities := []; entity_id := 0 |} in
  let st :=
    foldl (fun st p => foldl (append_match p.1) st (finditer U p.2 text)) st patterns in
  let st := (foldl named_step (st, ∅) (finditer U capitalized_pattern text)).1 in
  let key_phrases := _extract_key_phrases text 10 in
  let st :=
    foldl (fun st phrase => append st (py "key_phrase") phrase (-1) (-1)) st key_phrases in
  entities st.

End Extractor.

Record relationship := Relationship {
  rel_source : pystr;
  rel_target : pystr;
  rel_type : pystr;
  rel_weight : Z
}.

(** [entity["id"]] raises [KeyError('id')] on an entity without that key. *)
Inductive key_error :=
| KeyError (key : pystr).

(** The inner loop of [extract_relationships]: [entity1] against the
    entities after it.  The ids are read only for a pair that is close, the
    one of [entity1] first. *)
Fixpoint relate_later (entity1 : entity) (later : list entity)
    (relationships : list relationship) : key_error + list relationship :=
  match later with
  | [] => inr relationships
  | entity2 :: rest =>
      if Z.abs (get (e_start entity1) 0 - get (e_start entity2) 0) <? 100 then
        match e_id entity1, e_id entity2 with
        | Some id1, Some id2 =>
            relate_later entity1 rest
              (relationships ++ [Relationship id1 id2 (py "co_occurs") 1])
        | _, _ => inl (KeyError (py "id"))
        end
      else relate_later entity1 rest relationships
  end.

Fixpoint relate_all (entities : list entity)
    (relationships : list relationship) : key_error + list relationship :=
  match entities with
  | [] => inr relationships
  | entity1 :: later =>
      match relate_later entity1 later relationships with
      | inr relationships => relate_all later relationships
      | inl e => inl e
      end
  end.

(** [extract_relationships]; the argument [text] is not used. *)
Definition extract_relationships (entities : list entity) (text : pystr)
    : key_error + list relationship :=
  relate_all entities [].

(** *** Vocabulary of the properties of this module *)

(** The least number of characters a match of a pattern consumes. *)
Fixpoint min_length (r : regex) : nat :=
  match r with
  | Chr _ => 1
  | Boundary => 0
  | Seq r1 r2 => min_length r1 + min_length r2
  | Repeat r lo _ => lo * min_length r
  end.

(** The offsets of one record: real ones for a pattern or named entity, the
    pair [-1], [-1] for a key phrase. *)
Definition offsets_ok (e : entity) : Prop :=
  ∃ start end_, e_start e = Some start ∧ e_end e = Some end_ ∧
    ((e_type e ≠ Some (py "key_phrase") ∧ 0 ≤ start ∧ start < end_)
     ∨ (e_type e = Some (py "key_phrase") ∧ start = -1 ∧ end_ = -1)).

(** The text of the scenario and the records it yields. *)
Definition scenario : pystr :=
  py "Contact Alice Smith at alice@example.com or 555-123-4567 on 01/02/2023 for $1,200.00".

Definition ent (id type value : string) (start end_ : Z) : entity :=
  Entity (Some (py id)) (Some (py type)) (Some (py value)) (Some start) (Some end_) None.

Definition has_type (type : string) (es : list entity) : Prop :=
  ∃ e, e ∈ es ∧ e_type e = Some (py type).
Definition has_named (value : string) (es : list entity) : Prop :=
  ∃ e, e ∈ es ∧ e_type e = Some (py "named_entity") ∧ e_value e = Some (py value).
Definition values_of (type : string) (es : list entity) : list (option pystr) :=
  e_value <$> filter (fun e => e_type e = Some (py type)) es.

(** Every one-character test of the pattern accepts only characters in
    [P]. *)
Fixpoint chars_in (P : N → Prop) (r : Re.regex) : Prop :=
  match r with
  | Re.Chr p => ∀ c, p c = true → P c
  | Re.Boundary => True
  | Re.Seq r1 r2 => chars_in P r1 ∧ chars_in P r2
  | Re.Repeat r _ _ => chars_in P r
  end.

(** From [st] to [st'] the matcher has consumed the characters [cs]. *)
Definition consumes (st st' : Re.cursor) (cs : pystr) : Prop :=
  Re.rest st = cs ++ Re.rest st' ∧ Re.pos st' = (Re.pos st + length cs)%nat.

(** A record before it gets its id: type, value, start, end. *)
Definition raw : Type := pystr * pystr * Z * Z.

Definition raw_of_match (type : pystr) (m : Re.rmatch) : raw :=
  (type, Re.m_group m, Z.of_nat (Re.m_start m), Z.of_nat (Re.m_end m)).

(** The records [raws] with the ids ["entity_i"], ["entity_(i+1)"], ... *)
Fixpoint number_from (i : nat) (raws : list raw) : list entity :=
  match raws with
  | [] => []
  | (type, value, start, end_) :: later =>
      Entity (Some (entity_name i)) (Some type) (Some value) (Some start) (Some end_) None
      :: number_from (S i) later
  end.

(** The state of the loops of [extract_entities] after the records [raws]. *)
Definition holds (st : found) (raws : list raw) : Prop :=
  entities st = number_from 0 raws ∧ entity_id st = length raws.

(** The capitalized matches that become named entities: longer than two
    characters and not seen before. *)
Fixpoint keep_new (seen : gset pystr) (ms : list Re.rmatch) : list Re.rmatch :=
  match ms with
  | [] => []
  | m :: later =>
      if bool_decide (2 < length (Re.m_group m))%nat && bool_decide (Re.m_group m ∉ seen)
      then m :: keep_new ({[Re.m_group m]} ∪ seen) later
      else keep_new seen later
  end.

(** The three runs of records of [extract_entities]. *)
Definition pattern_raws (U : unicode) (text : pystr) : list raw :=
  mjoin ((fun p : pystr * Re.regex => raw_of_match p.1 <$> Re.finditer U p.2 text)
         <$> patterns U).
Definition named_raws (U : unicode) (text : pystr) : list raw :=
  raw_of_match (py "named_entity")
  <$> keep_new ∅ (Re.finditer U (capitalized_pattern U) text).
Definition key_raws (U : unicode) (text : pystr) : list raw :=
  (fun phrase => (py "key_phrase", phrase, -1, -1)) <$> _extract_key_phrases U text 10.

(** How often [word] occurs among [words]. *)
Definition occurrences (word : pystr) (words : list pystr) : nat :=
  length (filter (fun w => w = word) words).

(** The order of [sorted(..., key=lambda x: x[1], reverse=True)]: [x] may
    stand before [y]. *)
Definition by_freq (x y : pystr * nat) : Prop := (y.2 ≤ x.2)%nat.

(** What the counting loop of [_extract_key_phrases] has established after
    the words [seen]: one entry per word that is no stop word, holding the
    number of its occurrences. *)
Record word_freq_ok (seen : list pystr) (word_freq : list (pystr * nat)) : Prop := {
  wf_nodup : NoDup word_freq.*1;
  wf_count : ∀ w n, (w, n) ∈ word_freq →
    n = occurrences w seen ∧ (w ∉ _get_stop_words) ∧ w ∈ seen;
  wf_all : ∀ w, w ∈ seen → w ∉ _get_stop_words → w ∈ word_freq.*1
}.

(** The words [_extract_key_phrases] finds, and its [sorted_words]. *)
Definition found_words (U : unicode) (text : pystr) : list pystr :=
  Re.findall U (word_pattern) (Re.lower U text).
Definition sorted_words (U : unicode) (text : pystr) : list (pystr * nat) :=
  sorted_by_freq
    (foldl (fun word_freq word =>
              if decide (word ∈ _get_stop_words) then word_freq
              else count_word word word_freq) [] (found_words U text)).

(** The test of [extract_relationships] on a pair. *)
Definition close (entity1 entity2 : entity) : bool :=
  Z.abs (get (e_start entity1) 0 - get (e_start entity2) 0) <? 100.

(** The relationship [extract_relationships] records for a pair. *)
Definition co_occurs (id1 id2 : pystr) : relationship :=
  Relationship id1 id2 (py "co_occurs") 1.

(** [entity1] comes before [entity2] in [entities], the two are close, and
    one of them has no [id]. *)
Definition close_pair_without_id (entities : list entity) : Prop :=
  ∃ entity1 entity2,
    [entity1; entity2] `sublist_of` entities ∧ close entity1 entity2 = true
    ∧ (e_id entity1 = None ∨ e_id entity2 = None).

(** [r] is the relationship of a close pair of [entities]. *)
Definition of_close_pair (entities : list entity) (r : relationship) : Prop :=
  ∃ entity1 entity2 id1 id2,
    [entity1; entity2] `sublist_of` entities ∧ close entity1 entity2 = true
    ∧ e_id entity1 = Some id1 ∧ e_id entity2 = Some id2 ∧ r = co_occurs id1 id2.

End EntityExtractor.

(** ** backend/main.py: model chaining *)
Module Chain.

(** A Python [float]: [m * 2^e], an infinity or a NaN. *)
Inductive pyfloat :=
| Finite (m e : Z)
| Infinite (negative : bool)
| NaN.

(** What [json.loads] makes of a line: any JSON value.  An object is kept
    as its members in the order of the document; a key that recurs has the
    value of its last occurrence, as in the [dict] Python builds. *)
#[local] Unset Elimination Schemes.
Inductive json :=
| JNull
| JBool (b : bool)
| JInt (n : Z)
| JFloat (x : pyfloat)
| JString (s : pystr)
| JArray (items : list json)
| JObject (members : list (pystr * json)).
#[local] Set Elimination Schemes.

(** [d.get(key)] on the dict of an object; [None] for an absent key. *)
Fixpoint dict_get (key : pystr) (members : list (pystr * json)) : option json :=
  match members with
  | [] => None
  | (k, v) :: later =>
      match dict_get key later with
      | Some v' => Some v'
      | None => if decide (k = key) then Some v else None
      end
  end.

(** The truth value of a JSON value as the condition of an [if]. *)
Definition truthy (v : json) : bool :=
  match v with
  | JNull => false
  | JBool b => b
  | JInt n => negb (n =? 0)
  | JFloat (Finite m _) => negb (m =? 0)
  | JFloat _ => true
  | JString s => negb (bool_decide (s = []))
  | JArray items => negb (bool_decide (items = []))
  | JObject members => negb (bool_decide (members = []))
  end.

(** [needle in hay] for two strings. *)
Fixpoint contains (needle hay : pystr) : bool :=
  bool_decide (needle `prefix_of` hay)
  || match hay with
     | [] => false
     | _ :: rest => contains needle rest
     end.

(** The exceptions the handlers' loops raise on an event of another shape
    than the object they expect. *)
Inductive exception :=
| NotIterable (chunk : json)   (** [TypeError]: ["response" in chunk] on a number, a boolean or [null] *)
| BadIndex (chunk : json)      (** [TypeError]: [chunk["response"]] on an array or a string *)
| BadConcat (fragment : json)  (** [TypeError]: [response += fragment] for a fragment that is no string *)
| NoGet (chunk : json).        (** [AttributeError]: [chunk.get] on a value that is no object *)

(** What the HTTP body delivers line by line, and how the transfer ends:
    [t_failure = Some msg] when reading raises an exception whose [str] is
    [msg] (refused connection, broken transfer) after the lines [t_lines]. *)
Inductive line :=
| Blank
| Malformed
| Json (data : json).

Record transfer := Transfer {
  t_lines : list line;
  t_failure : option pystr
}.

(** [stream_ollama_response]: the events the generator yields when consumed
    to its end.  Blank lines and lines that are not JSON are skipped, every
    JSON value is yielded as it is; an exception becomes a last event
    [{"error": str(e), "done": True}]. *)
Definition decode (l : line) : option json :=
  match l with
  | Json data => Some data
  | Blank | Malformed => None
  end.

Definition stream_ollama_response (t : transfer) : list json :=
  omap decode (t_lines t) ++
  match t_failure t with
  | Some msg => [JObject [(py "error", JString msg); (py "done", JBool true)]]
  | None => []
  end.

(** [if "response" in chunk: response += chunk["response"]] *)
Definition add_response (response : pystr) (chunk : json) : exception + pystr :=
  match chunk with
  | JObject members =>
      match dict_get (py "response") members with
      | None => inr response
      | Some (JString fragment) => inr (response ++ fragment)
      | Some fragment => inl (BadConcat fragment)
      end
  | JArray items =>
      if existsb (fun item => match item with
                              | JString s => bool_decide (s = py "response")
                              | _ => false
                              end) items
      then inl (BadIndex chunk) else inr response
  | JString s =>
      if contains (py "response") s then inl (BadIndex chunk) else inr response
  | JNull | JBool _ | JInt _ | JFloat _ => inl (NotIterable chunk)
  end.

(** [chunk.get("done", False)] as the condition of an [if]. *)
Definition get_done (chunk : json) : exception + bool :=
  match chunk with
  | JObject members => inr (truthy (get (dict_get (py "done") members) (JBool false)))
  | _ => inl (NoGet chunk)
  end.

(** The loop shared by [generate_text], [chain_models] and
    [generate_parallel]: the response grows by the fragment of every event,
    and the loop ends at the first event whose [done] is true, or with the
    exception the event raises. *)
Fixpoint accumulate (response : pystr) (chunks : list json) : exception + pystr :=
  match chunks with
  | [] => inr response
  | chunk :: later =>
      match add_response response chunk with
      | inl e => inl e
      | inr response =>
          match get_done chunk with
          | inl e => inl e
          | inr true => inr response
          | inr false => accumulate response later
          end
      end
  end.

Record chain_result := ChainResult {
  r_model : pystr;
  r_input : pystr;
  r_output : pystr;
  r_timestamp : pystr
}.

Record ChainRequest := {
  models : list pystr;
  prompt : pystr;
  chain_type : pystr
}.

(** What the endpoint hands back: the JSON body, or the [HTTPException] of
    its [except] clause. *)
Inductive reply :=
| Body (chain_type : pystr) (results : list chain_result)
| HTTPException (status_code : nat) (detail : pystr).

(** [await asyncio.gather] over the tasks: task [i] stores its result in slot
    [i] when it completes; [completion] is the order in which the tasks
    complete.  The first task to complete with an exception hands that
    exception to the caller at once; otherwise the call returns once every
    slot is filled, with the slots in task order, and never when some task
    does not complete. *)
Fixpoint gather_from {A} (outcomes : list (exception + A)) (slots : list (option A))
    (completion : list nat) : option (exception + list A) :=
  match completion with
  | [] => inr <$> mapM id slots
  | i :: later =>
      match outcomes !! i with
      | Some (inl e) => Some (inl e)
      | Some (inr r) => gather_from outcomes (<[i := Some r]> slots) later
      | None => gather_from outcomes slots later
      end
  end.

Definition gather {A} (outcomes : list (exception + A)) (completion : list nat)
    : option (exception + list A) :=
  gather_from outcomes (replicate (length outcomes) None) completion.

Section Endpoint.
(** The environment of one request: [str e] is the message of the exception
    [e], [ollama i model prompt] the transfer that answers the [i]-th call
    to the backend, [now i] the [i]-th reading
    [datetime.now().isoformat()]. *)
Context (str : exception → pystr).
Context (ollama : nat → pystr → pystr → transfer) (now : nat → pystr).

Definition generate_parallel (i : nat) (model prompt : pystr) : exception + pystr :=
  accumulate [] (stream_ollama_response (ollama i model prompt)).

(** The sequential branch from its [i]-th step on. *)
Fixpoint sequential (i : nat) (models : list pystr) (current_prompt : pystr)
    (results : list chain_result) : exception + list chain_result :=
  match models with
  | [] => inr results
  | model :: later =>
      match accumulate [] (stream_ollama_response (ollama i model current_prompt)) with
      | inl e => inl e
      | inr response =>
          let results :=
            results ++ [ChainResult model current_prompt response (now i)] in
          sequential (S i) later response results
      end
  end.

(** [zip(request.models, parallel_results)] with the clock read once per
    entry. *)
Fixpoint stitch (i : nat) (pairs : list (pystr * pystr)) (current_prompt : pystr)
    (results : list chain_result) : list chain_result :=
  match pairs with
  | [] => results
  | (model, response) :: later =>
      stitch (S i) later current_prompt
             (results ++ [ChainResult model current_prompt response (now i)])
  end.

(** The body of the [try] of [chain_models]; [None] when it never finishes. *)
Definition chain_body (completion : list nat) (request : ChainRequest)
    : option (exception + list chain_result) :=
  let results := [] in
  let current_prompt := prompt request in
  if decide (chain_type request = py "sequential") then
    Some (sequential 0 (models request) current_prompt results)
  else if decide (chain_type request = py "parallel") then
    let tasks := imap (fun i model => generate_parallel i model current_prompt) (models request) in
    match gather tasks completion with
    | None => None
    | Some (inl e) => Some (inl e)
    | Some (inr parallel_results) =>
        Some (inr (stitch 0 (zip (models request) parallel_results) current_prompt results))
    end
  else Some (inr results).

(** [chain_models]: the body, or the [HTTPException] its [except] clause
    raises. *)
Definition chain_models (completion : list nat) (request : ChainRequest) : option reply :=
  match chain_body completion request with
  | None => None
  | Some (inr results) => Some (Body (chain_type request) results)
  | Some (inl e) => Some (HTTPException 500 (str e))
  end.

End Endpoint.

(** The request of [/api/generate] ([ModelRequest]) and of one message on
    [/ws/stream]; in the latter [model] and [prompt] are read with [get] and
    may be absent.  The contents of [options] play no part here. *)
Record ModelRequest {options : Type} := {
  q_model : option pystr;
  q_prompt : option pystr;
  q_options : option options
}.
Arguments ModelRequest : clear implicits.

Record generated := Generated {
  gen_model : pystr;
  gen_response : pystr;
  gen_timestamp : pystr
}.

(** What [/api/generate] hands back. *)
Inductive generate_reply :=
| GenerateBody (body : generated)
| GenerateException (status_code : nat) (detail : pystr).

(** What [websocket_stream] sends: the validation error, or one backend
    event wrapped with the model and the time. *)
Inductive message {float : Type} :=
| Refused (error : pystr) (done : bool)
| Pushed (model : pystr) (data : json) (timestamp : float).
Arguments message : clear implicits.

(** [not x] for a string that may be absent. *)
Definition falsy (x : option pystr) : bool :=
  match x with
  | Some (_ :: _) => false
  | _ => true
  end.

Section Streaming.
(** The backend now also receives the options; [time k] is the [k]-th
    reading of [time.time()]. *)
Context {options float : Type}.
Context (str : exception → pystr).
Context (ollama : nat → pystr → pystr → option options → transfer).
Context (now : nat → pystr) (time : nat → float).

(** [generate_text]: a [ModelRequest] has both [model] and [prompt]. *)
Definition generate_text (model prompt : pystr) (opts : option options) : generate_reply :=
  match accumulate [] (stream_ollama_response (ollama 0 model prompt opts)) with
  | inr full_response => GenerateBody (Generated model full_response (now 0))
  | inl e => GenerateException 500 (str e)
  end.

(** The push loop of [websocket_stream] over the events of one stream, the
    clock read once per event: the messages sent, and the exception that
    ends the handler if there is one.  An event is sent before its [done]
    is read; the loop ends with the first event whose [done] is true. *)
Fixpoint push (model : pystr) (k : nat) (chunks : list json)
    : list (message float) * option exception :=
  match chunks with
  | [] => ([], None)
  | chunk :: later =>
      let sent := Pushed model chunk (time k) in
      match get_done chunk with
      | inl e => ([sent], Some e)
      | inr true => ([sent], None)
      | inr false =>
          let '(messages, raised) := push model (S k) later in
          (sent :: messages, raised)
      end
  end.

(** One turn of the [while True] loop of [websocket_stream] for the [i]-th
    request of a client that stays connected: the messages sent, and the
    exception that ends the handler (it is printed, and the connection is
    dropped) if there is one. *)
Definition websocket_turn (i : nat) (request : ModelRequest options)
    : list (message float) * option exception :=
  if falsy (q_model request) || falsy (q_prompt request) then
    ([Refused (py "Missing model or prompt") true], None)
  else
    let model := get (q_model request) [] in
    let prompt := get (q_prompt request) [] in
    push model 0 (stream_ollama_response (ollama i model prompt (q_options request))).

End Streaming.

(** *** Vocabulary of the properties of this module *)

(** The slots of [gather] after task [i] has completed with a result. *)
Definition fill {A} (values : list A) (slots : list (option A)) (i : nat) : list (option A) :=
  match values !! i with
  | Some r => <[i := Some r]> slots
  | None => slots
  end.

(** The requests of the examples. *)
Definition parallel_request (models : list pystr) (prompt : pystr) : ChainRequest :=
  {| models := models; prompt := prompt; chain_type := py "parallel" |}.
Definition sequential_request (models : list pystr) (prompt : pystr) : ChainRequest :=
  {| models := models; prompt := prompt; chain_type := py "sequential" |}.

(** The events [{"response": fragment}] and
    [{"response": fragment, "done": true}]. *)
Definition token (fragment : pystr) : json :=
  JObject [(py "response", JString fragment)].
Definition final (fragment : pystr) : json :=
  JObject [(py "response", JString fragment); (py "done", JBool true)].

(** A backend that answers every call with the one event
    [{"response": model + ":" + prompt, "done": true}]. *)
Definition echo (i : nat) (model prompt : pystr) : transfer :=
  Transfer [Json (final (model ++ py ":" ++ prompt))] None.

(** A backend like [echo] whose call number [j] fails before any line. *)
Definition echo_failing_at (j i : nat) (model prompt : pystr) : transfer :=
  if decide (i = j) then Transfer [] (Some (py "connection refused"))
  else echo i model prompt.

(** A backend like [echo] whose call number [j] delivers the line [42]. *)
Definition echo_number_at (j i : nat) (model prompt : pystr) : transfer :=
  if decide (i = j) then Transfer [Json (JInt 42)] None
  else echo i model prompt.

(** A backend whose first call delivers the line [42] and whose later calls
    deliver the line [[]]. *)
Definition garbled (i : nat) (model prompt : pystr) : transfer :=
  match i with
  | O => Transfer [Json (JInt 42)] None
  | S _ => Transfer [Json (JArray [])] None
  end.

(** A message for every exception, for the examples. *)
Definition kind (e : exception) : pystr :=
  match e with
  | NotIterable _ | BadIndex _ | BadConcat _ => py "TypeError"
  | NoGet _ => py "AttributeError"
  end.

(** The loop body raises nothing on the event: it is an object whose
    [response], when it has one, is a string. *)
Definition usable (chunk : json) : bool :=
  match add_response [] chunk, get_done chunk with
  | inr _, inr _ => true
  | _, _ => false
  end.

(** The fragment a usable event adds to the response. *)
Definition text (chunk : json) : pystr :=
  match add_response [] chunk with
  | inr fragment => fragment
  | inl _ => []
  end.

(** The text of a run of events: their fragments, joined. *)
Definition fragments (chunks : list json) : pystr :=
  mjoin (text <$> chunks).


(** [results] are the entries of the first steps of a sequential chain on
    the prompt [P]: the first input is [P], every later input is the output
    of the entry before, and entry [k] holds what the [k]-th call to the
    backend returned for its model and input, stamped with the [k]-th
    reading of the clock. *)
Definition linked (ollama : nat → pystr → pystr → transfer) (now : nat → pystr)
    (P : pystr) (results : list chain_result) : Prop :=
  (∀ r, results !! 0%nat = Some r → r_input r = P)
  ∧ (∀ k r r', results !! k = Some r → results !! S k = Some r' →
               r_input r' = r_output r)
  ∧ (∀ k r, results !! k = Some r →
            accumulate [] (stream_ollama_response (ollama k (r_model r) (r_input r)))
              = inr (r_output r)
            ∧ r_timestamp r = now k).

(** The prompt of the step that follows the entries [results]. *)
Definition next_prompt (P : pystr) (results : list chain_result) : pystr :=
  match last results with
  | Some r => r_output r
  | None => P
  end.

(** The backend events among the messages sent to a client. *)
Definition pushed_chunks {float} (messages : list (message float)) : list json :=
  omap (fun m => match m with Pushed _ data _ => Some data | Refused _ _ => None end)
       messages.

End Chain.

(** ** agents/investigative_agent.py *)
Module Agent.

(** Values of the [parameters] dict: the JSON scalars [null], integer and
    string. *)
Inductive pyval :=
| PNone
| PInt (n : Z)
| PStr (s : pystr).

Record log_entry := LogEntry {
  le_timestamp : pystr;
  le_message : pystr
}.

(** [self.execution_log] is one list object, created by [__init__] and shared
    by every record that [execute] returns: the agent and the records hold
    its address, the store holds its contents. *)
Abbreviation loc := nat (only parsing).

Record world := World {
  heap : gmap loc (list log_entry);
  ticks : nat                          (* readings of the clock so far *)
}.

Record InvestigativeAgent := {
  agent_type : pystr;
  models : list pystr;
  execution_log : loc
}.

(** The exceptions the procedures can raise, with the text [str(e)] gives. *)
Inductive exn :=
| TypeError (msg : pystr).

Definition str (e : exn) : pystr :=
  match e with TypeError msg => msg end.

(** Computations that read the clock, write the store, and return or
    raise. *)
Definition M (A : Type) : Type := world → (exn + A) * world.

#[global] Instance M_ret : MRet M := fun A x w => (inr x, w).
#[global] Instance M_bind : MBind M := fun A B f m w =>
  match m w with
  | (inr x, w') => f x w'
  | (inl e, w') => (inl e, w')
  end.

Definition raise {A} (e : exn) : M A := fun w => (inl e, w).

(** [try: body  except Exception as e: handler(e)] *)
Definition try_except {A} (body : M A) (handler : exn → M A) : M A := fun w =>
  match body w with
  | (inr x, w') => (inr x, w')
  | (inl e, w') => handler e w'
  end.

(** The dict [execute] builds and returns.  [r_output] is [None] for the
    initial [None]; [r_execution_log], [r_error], [r_end_time] and
    [r_duration_seconds] are [None] while the key is absent.  The duration is
    kept as the difference of the two clock readings. *)
Record record := Record_ {
  r_agent_type : pystr;
  r_task : pystr;
  r_models : list pystr;
  r_status : pystr;
  r_start_time : pystr;
  r_steps : list log_entry;
  r_output : option pystr;
  r_execution_log : option loc;
  r_error : option pystr;
  r_end_time : option pystr;
  r_duration_seconds : option Z
}.

Definition set_output (output : pystr) (log : loc) (r : record) : record :=
  Record_ (r_agent_type r) (r_task r) (r_models r) (r_status r) (r_start_time r)
          (r_steps r) (Some output) (Some log) (r_error r) (r_end_time r)
          (r_duration_seconds r).
Definition set_failed (error : pystr) (r : record) : record :=
  Record_ (r_agent_type r) (r_task r) (r_models r) (py "failed") (r_start_time r)
          (r_steps r) (r_output r) (r_execution_log r) (Some error) (r_end_time r)
          (r_duration_seconds r).
Definition set_end (end_time : pystr) (duration : Z) (r : record) : record :=
  Record_ (r_agent_type r) (r_task r) (r_models r) (r_status r) (r_start_time r)
          (r_steps r) (r_output r) (r_execution_log r) (r_error r) (Some end_time)
          (Some duration).

(** [len(x)] and [x[:n]] on a parameter value. *)
Definition type_name (v : pyval) : pystr :=
  match v with
  | PNone => py "NoneType"
  | PInt _ => py "int"
  | PStr _ => py "str"
  end.

Definition len (v : pyval) : M nat :=
  match v with
  | PStr s => mret (length s)
  | _ => raise (TypeError (py "object of type '" ++ type_name v ++ py "' has no len()"))
  end.

Definition slice_to (n : nat) (v : pyval) : M pystr :=
  match v with
  | PStr s => mret (take n s)
  | _ => raise (TypeError (py "'" ++ type_name v ++ py "' object is not subscriptable"))
  end.

Definition nl : pystr := [10%N].

Section Clock.
(** [now k] is the [k]-th reading of [datetime.now()], [isoformat] its
    rendering. *)
Context (now : nat → Z) (isoformat : Z → pystr).

Definition datetime_now : M Z := fun w =>
  (inr (now (ticks w)), World (heap w) (S (ticks w))).

(** [InvestigativeAgent.__init__]: the log is a fresh, empty list. *)
Definition __init__ (agent_type : pystr) (models : list pystr) : M InvestigativeAgent :=
  fun w =>
    let l := fresh (dom (heap w)) in
    (inr {| agent_type := agent_type; models := models; execution_log := l |},
     World (<[l := []]> (heap w)) (ticks w)).

(** [log.append(entry)] on the list object at [l]. *)
Definition list_append (l : loc) (entry : log_entry) : M unit := fun w =>
  (inr (), World (alter (fun log => log ++ [entry]) l (heap w)) (ticks w)).

Definition _log_step (self : InvestigativeAgent) (message : pystr) : M unit :=
  t ← datetime_now;
  let log_entry := LogEntry (isoformat t) message in
  list_append (execution_log self) log_entry.

Definition _research_agent (self : InvestigativeAgent) (task : pystr)
    (parameters : gmap pystr pyval) : M pystr :=
  _log_step self (py "Starting research agent");;
  outputs ← mapM (fun model =>
      _log_step self (py "Querying model: " ++ model);;
      mret (py "[" ++ model ++ py "] Research on: " ++ task))
    (models self);
  let result := join (nl ++ nl) outputs in
  _log_step self (py "Research completed");;
  mret result.

Definition _analysis_agent (self : InvestigativeAgent) (task : pystr)
    (parameters : gmap pystr pyval) : M pystr :=
  _log_step self (py "Starting analysis agent");;
  let data := get (parameters !! py "data") (PStr []) in
  outputs ← mapM (fun model =>
      _log_step self (py "Analyzing with model: " ++ model);;
      head_ ← slice_to 100 data;
      mret (py "[" ++ model ++ py "] Analysis of: " ++ task ++ nl ++
            py "Data: " ++ head_ ++ py "..."))
    (models self);
  let result := join (nl ++ nl) outputs in
  _log_step self (py "Analysis completed");;
  mret result.

Definition _summary_agent (self : InvestigativeAgent) (task : pystr)
    (parameters : gmap pystr pyval) : M pystr :=
  _log_step self (py "Starting summary agent");;
  let content := get (parameters !! py "content") (PStr []) in
  let model := match models self with m :: _ => m | [] => py "default" end in
  _log_step self (py "Generating summary with model: " ++ model);;
  n ← len content;
  let result := py "[" ++ model ++ py "] Summary of: " ++ task ++ nl ++
                py "Content length: " ++ py (pretty n) ++ py " characters" in
  _log_step self (py "Summary completed");;
  mret result.

Definition _investigation_agent (self : InvestigativeAgent) (task : pystr)
    (parameters : gmap pystr pyval) : M pystr :=
  _log_step self (py "Starting investigation agent");;
  _log_step self (py "Step 1: Information gathering");;
  let info := py "Gathering information about: " ++ task in
  _log_step self (py "Step 2: Analysis");;
  let analysis := py "Analyzing findings for: " ++ task in
  _log_step self (py "Step 3: Cross-referencing");;
  let cross_ref := py "Cross-referencing data across sources" in
  _log_step self (py "Step 4: Report generation");;
  let report := join nl
    [ [];
      py "INVESTIGATION REPORT";
      py "====================";
      py "Task: " ++ task;
      py "Models Used: " ++ join (py ", ") (models self);
      [];
      py "1. Information Gathering:";
      info;
      [];
      py "2. Analysis:";
      analysis;
      [];
      py "3. Cross-Reference:";
      cross_ref;
      [];
      py "4. Conclusion:";
      py "Investigation completed. See detailed findings above.";
      [] ] in
  _log_step self (py "Investigation completed");;
  mret report.

(** The [if]/[elif] chain on [self.agent_type] inside the [try]. *)
Definition variant (self : InvestigativeAgent) (task : pystr)
    (parameters : gmap pystr pyval) : M pystr :=
  if decide (agent_type self = py "research") then _research_agent self task parameters
  else if decide (agent_type self = py "analysis") then _analysis_agent self task parameters
  else if decide (agent_type self = py "summary") then _summary_agent self task parameters
  else if decide (agent_type self = py "investigation") then
    _investigation_agent self task parameters
  else mret (py "Unknown agent type: " ++ agent_type self).

Definition execute (self : InvestigativeAgent) (task : pystr)
    (parameters : gmap pystr pyval) : M record :=
  start_time ← datetime_now;
  let result :=
    {| r_agent_type := agent_type self;
       r_task := task;
       r_models := models self;
       r_status := py "completed";
       r_start_time := isoformat start_time;
       r_steps := [];
       r_output := None;
       r_execution_log := None;
       r_error := None;
       r_end_time := None;
       r_duration_seconds := None |} in
  result ← try_except
    (output ← variant self task parameters;
     mret (set_output output (execution_log self) result))
    (fun e => mret (set_failed (str e) result));
  end_time ← datetime_now;
  mret (set_end (isoformat end_time) (end_time - start_time) result).

End Clock.
(** *** Vocabulary of the properties of this module *)

(** The record [execute] starts from. *)
Definition initial_record (self : InvestigativeAgent) (task start_time : pystr) : record :=
  {| r_agent_type := agent_type self;
     r_task := task;
     r_models := models self;
     r_status := py "completed";
     r_start_time := start_time;
     r_steps := [];
     r_output := None;
     r_execution_log := None;
     r_error := None;
     r_end_time := None;
     r_duration_seconds := None |}.

(** The state in which the selected procedure starts: the clock has been read
    once. *)
Definition started (w : world) : world := World (heap w) (S (ticks w)).

(** A clock and its rendering for the examples. *)
Definition tick_clock (k : nat) : Z := 1000 + Z.of_nat k.
Definition tick_format (t : Z) : pystr := py (pretty t).

(** Two calls of [execute] on one research agent over the model ["m1"]. *)
Definition two_calls (now : nat → Z) (isoformat : Z → pystr) : M (record * record) :=
  self ← __init__ (py "research") [py "m1"];
  r1 ← execute now isoformat self (py "t") ∅;
  r2 ← execute now isoformat self (py "t") ∅;
  mret (r1, r2).

(** The log entries for the messages [msgs] when the clock has been read
    [t] times, and the state after they have been appended to the log of
    [self]. *)
Definition entries (now : nat → Z) (isoformat : Z → pystr) (t : nat)
    (msgs : list pystr) : list log_entry :=
  imap (fun k msg => LogEntry (isoformat (now (t + k)%nat)) msg) msgs.

Definition logged (now : nat → Z) (isoformat : Z → pystr)
    (self : InvestigativeAgent) (msgs : list pystr) (w : world) : world :=
  World (alter (fun log => log ++ entries now isoformat (ticks w) msgs)
               (execution_log self) (heap w))
        (ticks w + length msgs).

Definition is_str (v : pyval) : bool :=
  match v with PStr _ => true | _ => false end.

(** The parameter a procedure reads, with its default [""]. *)
Definition parameter (parameters : gmap pystr pyval) (key : string) : pyval :=
  get (parameters !! py key) (PStr []).

(** The steps of the research procedure. *)
Definition research_steps (models : list pystr) : list pystr :=
  py "Starting research agent"
  :: ((fun model => py "Querying model: " ++ model) <$> models)
  ++ [py "Research completed"].

(** The conditions under which a procedure raises: the analysis of a [data]
    that is no string with a model to run, the summary of a [content] that is
    no string. *)
Definition raises (self : InvestigativeAgent) (parameters : gmap pystr pyval) : Prop :=
  (agent_type self = py "analysis" ∧ models self ≠ []
   ∧ is_str (parameter parameters "data") = false)
  ∨ (agent_type self = py "summary" ∧ is_str (parameter parameters "content") = false).

End Agent.

(** ** backend/main.py: the graph and agent endpoints *)
Module Api.

(** [entity["source"] = source] *)
Definition set_source (source : pystr) (e : entity) : entity :=
  Entity (e_id e) (e_type e) (e_value e) (e_start e) (e_end e) (Some source).

(** [sources[i] if i < len(sources) else f"source_{i}"] *)
Definition source_tag (sources : list pystr) (i : nat) : pystr :=
  match sources !! i with
  | Some source => source
  | None => py "source_" ++ py (pretty i)
  end.

Section Graph.
Context (U : unicode).

(** The loop of the [/api/graph/build] handler over [enumerate(texts)]. *)
Fixpoint collect (i : nat) (texts sources : list pystr)
    (all_entities : list entity) : list entity :=
  match texts with
  | [] => all_entities
  | text :: later =>
      let entities := EntityExtractor.extract_entities U text in
      let source := source_tag sources i in
      let entities := set_source source <$> entities in
      collect (S i) later sources (all_entities ++ entities)
  end.

(** The handler on the module-level [graph_builder]. *)
Definition build_graph (graph_builder : GraphBuilder.builder) (texts sources : list pystr)
    : GraphBuilder.graph * GraphBuilder.builder :=
  let all_entities := collect 0 texts sources [] in
  GraphBuilder.build_graph graph_builder all_entities.

End Graph.

(** The body of an [/api/agent/execute] request ([AgentTask]). *)
Record AgentTask := {
  t_agent_type : pystr;
  t_task : pystr;
  t_models : list pystr;
  t_parameters : option (gmap pystr Agent.pyval)
}.

(** [task.parameters or {}] *)
Definition parameters_or_empty (parameters : option (gmap pystr Agent.pyval))
    : gmap pystr Agent.pyval :=
  match parameters with
  | Some d => d
  | None => ∅
  end.

Section AgentEndpoint.
Context (now : nat → Z) (isoformat : Z → pystr).

(** [execute_agent]: a new agent for every request. *)
Definition execute_agent (task : AgentTask) : Agent.M Agent.record :=
  agent ← Agent.__init__ (t_agent_type task) (t_models task);
  Agent.execute now isoformat agent (t_task task) (parameters_or_empty (t_parameters task)).

End AgentEndpoint.

End Api.


(** * Properties of the graph builder *)
Module GraphBuilderSpec.
Import GraphBuilder.

Lemma nodes_inv_init : nodes_inv [] {| nodes := []; edges := []; node_ids := ∅ |}.
Proof.
  split; simpl.
  - intros k. set_solver.
  - constructor.
  - intros n Hn. inversion Hn.
  - intros e He. inversion He.
Qed.

Lemma node_ids_of_nodes seen b k :
  nodes_inv seen b → k ∈ node_ids b → k ∈ n_id <$> nodes b.
Proof.
  intros I Hk. apply (inv_ids _ _ I) in Hk.
  apply list_elem_of_fmap in Hk as (e & -> & He).
  destruct (inv_total _ _ I e He) as (n & Hn & <-).
  by apply list_elem_of_fmap_2.
Qed.

Lemma nodes_of_node_ids seen b n :
  nodes_inv seen b → n ∈ nodes b → n_id n ∈ node_ids b.
Proof.
  intros I Hn. apply (inv_ids _ _ I).
  destruct (inv_first _ _ I n Hn) as (i & e & Hf & ->).
  apply list_find_Some in Hf as (Hi & _ & _).
  apply (list_elem_of_fmap_2 node_key). by eapply list_elem_of_lookup_2.
Qed.

Lemma nodes_inv_step seen b e :
  nodes_inv seen b → nodes_inv (seen ++ [e]) (_add_node b e).
Proof.
  intros I. unfold _add_node. destruct (decide (node_key e ∈ node_ids b)) as [Hin|Hout].
  - (* the key is taken: the entity is dropped *)
    split.
    + intros k. rewrite fmap_app, elem_of_app, <- (inv_ids _ _ I). simpl.
      rewrite list_elem_of_singleton. split; [tauto|]. intros [?| ->]; done.
    + apply (inv_nodup _ _ I).
    + intros n Hn. destruct (inv_first _ _ I n Hn) as (i & e' & Hf & ->).
      exists i, e'. split; [|done]. by apply list_find_app_l.
    + intros e' [He'|He']%elem_of_app.
      * by apply (inv_total _ _ I).
      * apply list_elem_of_singleton in He' as ->.
        apply (node_ids_of_nodes _ _ _ I) in Hin.
        apply list_elem_of_fmap in Hin as (n & Hk & Hn). eauto.
  - (* a fresh key: a node is appended *)
    assert (Hfresh : ∀ e', e' ∈ seen → node_key e' ≠ node_key e).
    { intros e' He' Heq. apply Hout, (inv_ids _ _ I). rewrite <- Heq.
      by apply list_elem_of_fmap_2. }
    split; simpl.
    + intros k. rewrite fmap_app, elem_of_app, elem_of_union, <- (inv_ids _ _ I). simpl.
      rewrite list_elem_of_singleton, elem_of_singleton. tauto.
    + rewrite fmap_app. apply NoDup_app. split; [apply (inv_nodup _ _ I)|]. split.
      * intros k Hk Hk'. apply list_elem_of_singleton in Hk'. simpl in Hk'. subst k.
        apply list_elem_of_fmap in Hk as (n & Hk & Hn).
        apply Hout. rewrite Hk. by eapply nodes_of_node_ids.
      * apply NoDup_singleton.
    + intros n [Hn|Hn]%elem_of_app.
      * destruct (inv_first _ _ I n Hn) as (i & e' & Hf & ->).
        exists i, e'. split; [|done]. by apply list_find_app_l.
      * apply list_elem_of_singleton in Hn as ->. simpl.
        exists (length seen), e. split; [|done].
        apply list_find_app_Some. right. split; [done|]. split.
        -- apply list_find_None, Forall_forall. intros e' He'. by apply Hfresh.
        -- rewrite Nat.sub_diag. simpl. by rewrite decide_True.
    + intros e' [He'|He']%elem_of_app.
      * destruct (inv_total _ _ I e' He') as (n & Hn & Hk).
        exists n. split; [|done]. apply elem_of_app. by left.
      * apply list_elem_of_singleton in He' as ->.
        exists (make_node e). split; [|done]. apply elem_of_app. right. by left.
Qed.

Lemma nodes_inv_foldl seen b rest :
  nodes_inv seen b → nodes_inv (seen ++ rest) (foldl _add_node b rest).
Proof.
  revert seen b. induction rest as [|e rest IH]; intros seen b I; simpl.
  - by rewrite app_nil_r.
  - replace (seen ++ e :: rest) with ((seen ++ [e]) ++ rest) by (by rewrite <- app_assoc).
    by apply IH, nodes_inv_step.
Qed.

Lemma build_graph_nodes_inv self entities :
  ∃ b, g_nodes (build_graph self entities).1 = nodes b ∧ nodes_inv entities b.
Proof.
  exists (foldl _add_node {| nodes := []; edges := []; node_ids := ∅ |} entities).
  split; [done|]. apply (nodes_inv_foldl [] _ entities), nodes_inv_init.
Qed.

Lemma group_append_inv seen groups e :
  groups_inv seen groups →
  groups_inv (seen ++ [e]) (group_append (source_of e) e groups).
Proof.
  unfold groups_inv. induction groups as [|[s0 es0] groups IH]; intros I s es Hin; simpl in Hin.
  - apply list_elem_of_singleton in Hin. injection Hin as -> ->. split.
    + by apply sublist_inserts_l.
    + by intros e' ->%list_elem_of_singleton.
  - destruct (decide (s0 = source_of e)) as [->|Hne].
    + apply elem_of_cons in Hin as [Hin|Hin].
      * injection Hin as -> ->.
        destruct (I (source_of e) es0) as [Hsub Hsrc]; [by left|]. split.
        -- by apply sublist_app.
        -- intros e' [?| ->%list_elem_of_singleton]%elem_of_app; auto.
      * destruct (I s es) as [Hsub Hsrc]; [by right|]. split; [|done].
        by apply sublist_inserts_r.
    + apply elem_of_cons in Hin as [Hin|Hin].
      * injection Hin as -> ->.
        destruct (I s0 es0) as [Hsub Hsrc]; [by left|]. split; [|done].
        by apply sublist_inserts_r.
      * apply IH; [|done]. intros s' es' Hin'. apply I. by right.
Qed.

Lemma source_groups_inv_from seen groups rest :
  groups_inv seen groups →
  groups_inv (seen ++ rest)
    (foldl (fun groups e => group_append (source_of e) e groups) groups rest).
Proof.
  revert seen groups. induction rest as [|e rest IH]; intros seen groups I; simpl.
  - by rewrite app_nil_r.
  - replace (seen ++ e :: rest) with ((seen ++ [e]) ++ rest) by (by rewrite <- app_assoc).
    by apply IH, group_append_inv.
Qed.

Lemma source_groups_inv entities : groups_inv entities (source_groups entities).
Proof.
  apply (source_groups_inv_from [] [] entities). intros s es Hin. inversion Hin.
Qed.

(** An edge of a group joins an earlier member to a later, related one. *)
Lemma group_edges_pair es ed :
  ed ∈ group_edges es →
  ∃ e1 e2, [e1; e2] `sublist_of` es ∧ _are_related e1 e2 = true ∧ ed = make_edge e1 e2.
Proof.
  induction es as [|e es IH]; simpl; [by intros ?%elem_of_nil|].
  intros [Hin|Hin]%elem_of_app.
  - apply list_elem_of_fmap in Hin as (e2 & -> & [Hrel Hin]%list_elem_of_filter).
    exists e, e2. split; [|done].
    apply sublist_skip. by apply singleton_sublist_l.
  - destruct (IH Hin) as (e1 & e2 & Hsub & Hrel & ->).
    exists e1, e2. split; [|done]. by apply sublist_cons.
Qed.

Lemma add_nodes_edges b entities : edges (foldl _add_node b entities) = edges b.
Proof.
  revert b. induction entities as [|e entities IH]; intros b; simpl; [done|].
  rewrite IH. unfold _add_node. by case_decide.
Qed.

Lemma build_graph_edges self entities :
  g_edges (build_graph self entities).1 =
  mjoin ((fun g => group_edges g.2) <$> source_groups entities).
Proof. unfold build_graph. simpl. by rewrite add_nodes_edges. Qed.

Lemma edge_origin self entities ed :
  ed ∈ g_edges (build_graph self entities).1 →
  ∃ e1 e2, [e1; e2] `sublist_of` entities ∧ source_of e1 = source_of e2 ∧
           _are_related e1 e2 = true ∧ ed = make_edge e1 e2.
Proof.
  rewrite build_graph_edges. intros (l & Hed & Hl)%list_elem_of_join.
  apply list_elem_of_fmap in Hl as ([s es] & -> & Hg). simpl in Hed.
  destruct (source_groups_inv entities s es Hg) as [Hsub Hsrc].
  destruct (group_edges_pair es ed Hed) as (e1 & e2 & Hpair & Hrel & ->).
  exists e1, e2. split; [by etrans|]. split; [|done].
  rewrite (Hsrc e1), (Hsrc e2); [done| |].
  - eapply elem_of_sublist; [|exact Hpair]. right. by left.
  - eapply elem_of_sublist; [|exact Hpair]. by left.
Qed.

(** When every entity carries a non-empty id, the edges of the graph join
    nodes of the graph. *)
Lemma edges_closed_with_ids self entities ed :
  (∀ e, e ∈ entities → ∃ c s, e_id e = Some (c :: s)) →
  ed ∈ g_edges (build_graph self entities).1 →
  ∃ n1 n2, n1 ∈ g_nodes (build_graph self entities).1 ∧
           n2 ∈ g_nodes (build_graph self entities).1 ∧
           ed_source ed = Some (n_id n1) ∧ ed_target ed = Some (n_id n2).
Proof.
  intros Hids (e1 & e2 & Hsub & _ & _ & ->)%edge_origin.
  destruct (build_graph_nodes_inv self entities) as (b & -> & I).
  assert (H1 : e1 ∈ entities) by (eapply elem_of_sublist; [|exact Hsub]; by left).
  assert (H2 : e2 ∈ entities) by (eapply elem_of_sublist; [|exact Hsub]; right; by left).
  destruct (inv_total _ _ I e1 H1) as (n1 & Hn1 & Hk1).
  destruct (inv_total _ _ I e2 H2) as (n2 & Hn2 & Hk2).
  exists n1, n2. split; [done|]. split; [done|]. simpl.
  destruct (Hids e1 H1) as (c1 & s1 & Hid1), (Hids e2 H2) as (c2 & s2 & Hid2).
  unfold node_key in Hk1, Hk2. rewrite Hid1 in Hk1 |- *. rewrite Hid2 in Hk2 |- *.
  by rewrite Hk1, Hk2.
Qed.

(** C5: [build_graph] keeps one node per node key, and that node is the one
    of the first entity carrying the key: its label, type and source are the
    value, type and source of that entity (or their defaults [""],
    ["unknown"], ["default"]) and its data is that entity, whatever later
    entities with the key say.  The key of an entity is its id, or its value
    (["unknown"] without one) when the id is absent or empty.  Every
    entity's key has its node; and the two entities [{id:"A",value:"x"}],
    [{id:"A",value:"y"}] give the single node labelled ["x"]. *)
Theorem build_graph_first_wins (self : builder) (entities : list entity) :
  let g := (build_graph self entities).1 in
  NoDup (n_id <$> g_nodes g)
  ∧ (∀ n, n ∈ g_nodes g →
       ∃ i e, list_find (fun e => node_key e = n_id n) entities = Some (i, e)
              ∧ n = make_node e
              ∧ n_id n = node_key e
              ∧ n_label n = default (py "") (e_value e)
              ∧ n_type n = default (py "unknown") (e_type e)
              ∧ n_source n = default (py "default") (e_source e)
              ∧ n_data n = e)
  ∧ (∀ e, node_key e = match e_id e with
                       | Some (c :: id) => c :: id
                       | _ => default (py "unknown") (e_value e)
                       end)
  ∧ (∀ e, e ∈ entities → ∃ n, n ∈ g_nodes g ∧ n_id n = node_key e)
  ∧ g_node_count g = length (g_nodes g)
  ∧ g_nodes (build_graph self [with_id "A" "x"; with_id "A" "y"]).1
    = [Node (py "A") (py "x") (py "unknown") (py "default") (with_id "A" "x")].
Proof.
  intros g. subst g.
  destruct (build_graph_nodes_inv self entities) as (b & Hb & I).
  rewrite Hb. split; [apply (inv_nodup _ _ I)|].
  split.
  { intros n Hn. destruct (inv_first _ _ I n Hn) as (i & e & Hfind & ->).
    exists i, e. split; [done|]. split; [done|]. simpl.
    by destruct (e_value e), (e_type e), (e_source e). }
  split.
  { intros e. unfold node_key. by destruct (e_id e) as [[|c id]|], (e_value e). }
  split; [apply (inv_total _ _ I)|].
  split; [by rewrite <- Hb|].
  by vm_compute.
Qed.

Lemma build_graph_first_wins_witness :
  with_id "A" "y" ∈ [with_id "A" "x"; with_id "A" "y"]
  ∧ ∃ n, n ∈ g_nodes (build_graph init [with_id "A" "x"; with_id "A" "y"]).1
         ∧ n_id n = node_key (with_id "A" "y").
Proof.
  split.
  - right. left.
  - apply (build_graph_first_wins init [with_id "A" "x"; with_id "A" "y"]).
    right. left.
Defined.

(** C4, at the entities [{value:"x",type:"t"}], [{value:"y",type:"t"}]: the
    nodes are keyed ["x"] and ["y"], while the one edge has [None] for source
    and for target, which is the id of no node. *)
Theorem build_graph_edge_without_node (self : builder) :
  let g := (build_graph self [without_id "x" "t"; without_id "y" "t"]).1 in
  n_id <$> g_nodes g = [py "x"; py "y"]
  ∧ g_edges g = [Edge (py "None_None") None None (py "related") 1]
  ∧ ¬ (∀ ed, ed ∈ g_edges g →
         ∃ n1 n2, n1 ∈ g_nodes g ∧ n2 ∈ g_nodes g ∧
                  ed_source ed = Some (n_id n1) ∧ ed_target ed = Some (n_id n2)).
Proof.
  intros g. subst g. split; [by vm_compute|]. split; [by vm_compute|].
  intros H. destruct (H (Edge (py "None_None") None None (py "related") 1))
    as (n1 & n2 & _ & _ & Hsrc & _).
  - vm_compute. left.
  - discriminate Hsrc.
Qed.




End GraphBuilderSpec.


(** * Properties of the entity extractor *)
Module EntityExtractorSpec.
Import Re EntityExtractor.

Section Engine.
Context (U : unicode).

(** A body that advances by [n] makes the loop advance by [lo * n]. *)
Lemma repeat_loop_min body n :
  (∀ st k res, body st k = Some res →
     ∃ st', k st' = Some res ∧ (pos st + n ≤ pos st')%nat) →
  ∀ fuel lo hi st k res,
    repeat_loop body fuel lo hi st k = Some res →
    ∃ st', k st' = Some res ∧ (pos st + lo * n ≤ pos st')%nat.
Proof.
  intros Hbody. induction fuel as [|fuel IH]; intros lo hi st k res Hrun.
  - simpl in Hrun. destruct lo; [|discriminate]. exists st. split; [done|lia].
  - cbn [repeat_loop] in Hrun.
    destruct (may_iterate hi); cycle 1.
    { destruct lo; [|discriminate]. exists st. split; [done|lia]. }
    match type of Hrun with
    | match ?more with _ => _ end = _ => destruct more as [res'|] eqn:Hmore
    end.
    + injection Hrun as ->.
      apply Hbody in Hmore as (st1 & Hk & Hadv).
      destruct (pos st <? pos st1)%nat; [|discriminate].
      apply IH in Hk as (st' & Hk & Hadv'). exists st'. split; [done|].
      destruct lo; simpl in *; lia.
    + destruct lo; [|discriminate]. exists st. split; [done|lia].
Qed.

Lemma run_min r :
  ∀ st k res, run U r st k = Some res →
    ∃ st', k st' = Some res ∧ (pos st + min_length r ≤ pos st')%nat.
Proof.
  induction r as [p| |r1 IH1 r2 IH2|r IH lo hi]; intros st k res Hrun; simpl in Hrun.
  - destruct (rest st) as [|c s]; [discriminate|].
    destruct (p c); [|discriminate].
    eexists. split; [exact Hrun|]. simpl. lia.
  - destruct (at_boundary U st); [|discriminate].
    exists st. split; [done|]. simpl. lia.
  - apply IH1 in Hrun as (st1 & Hrun & Hadv1).
    apply IH2 in Hrun as (st2 & Hk & Hadv2).
    exists st2. split; [done|]. simpl. lia.
  - eapply repeat_loop_min in Hrun; [|exact IH]. exact Hrun.
Qed.

(** The matcher hands to its continuation only positions further on. *)
Lemma repeat_loop_further body :
  (∀ st k res, body st k = Some res → ∃ st', k st' = Some res ∧ further st st') →
  ∀ fuel lo hi st k res,
    repeat_loop body fuel lo hi st k = Some res →
    ∃ st', k st' = Some res ∧ further st st'.
Proof.
  intros Hbody. unfold further in *.
  induction fuel as [|fuel IH]; intros lo hi st k res Hrun.
  - simpl in Hrun. destruct lo; [|discriminate]. exists st. split; [done|lia].
  - cbn [repeat_loop] in Hrun.
    destruct (may_iterate hi); cycle 1.
    { destruct lo; [|discriminate]. exists st. split; [done|lia]. }
    match type of Hrun with
    | match ?more with _ => _ end = _ => destruct more as [res'|] eqn:Hmore
    end.
    + injection Hrun as ->.
      apply Hbody in Hmore as (st1 & Hk & Hadv).
      destruct (pos st <? pos st1)%nat; [|discriminate].
      apply IH in Hk as (st' & Hk & Hadv'). exists st'. split; [done|lia].
    + destruct lo; [|discriminate]. exists st. split; [done|lia].
Qed.

Lemma run_further r :
  ∀ st k res, run U r st k = Some res → ∃ st', k st' = Some res ∧ further st st'.
Proof.
  induction r as [p| |r1 IH1 r2 IH2|r IH lo hi]; intros st k res Hrun; simpl in Hrun.
  - destruct (rest st) as [|c s] eqn:Hrest; [discriminate|].
    destruct (p c); [|discriminate].
    eexists. split; [exact Hrun|]. unfold further. simpl. rewrite Hrest. simpl. lia.
  - destruct (at_boundary U st); [|discriminate].
    exists st. split; [done|]. unfold further. lia.
  - apply IH1 in Hrun as (st1 & Hrun & Hadv1).
    apply IH2 in Hrun as (st2 & Hk & Hadv2).
    exists st2. split; [done|]. unfold further in *. lia.
  - eapply repeat_loop_further in Hrun; [|exact IH]. exact Hrun.
Qed.

(** The outcome depends on the continuation at those positions only. *)
Lemma repeat_loop_ext body :
  (∀ st k1 k2, (∀ st', further st st' → k1 st' = k2 st') → body st k1 = body st k2) →
  ∀ fuel lo hi st k1 k2,
    (∀ st', further st st' → k1 st' = k2 st') →
    repeat_loop body fuel lo hi st k1 = repeat_loop body fuel lo hi st k2.
Proof.
  intros Hbody. induction fuel as [|fuel IH]; intros lo hi st k1 k2 Hk.
  - simpl. destruct lo; [|done]. apply Hk. unfold further. lia.
  - cbn [repeat_loop]. rewrite (Hk st) by (unfold further; lia).
    destruct (may_iterate hi); [|done].
    erewrite Hbody; [reflexivity|].
    intros st1 Hst1. simpl. destruct (pos st <? pos st1)%nat; [|done].
    apply IH. intros st' Hst'. apply Hk. unfold further in *. lia.
Qed.

Lemma run_ext r :
  ∀ st k1 k2, (∀ st', further st st' → k1 st' = k2 st') → run U r st k1 = run U r st k2.
Proof.
  induction r as [p| |r1 IH1 r2 IH2|r IH lo hi]; intros st k1 k2 Hk; simpl.
  - destruct (rest st) as [|c s] eqn:Hrest; [done|].
    destruct (p c); [|done]. apply Hk. unfold further. simpl. rewrite Hrest. simpl. lia.
  - destruct (at_boundary U st); [|done]. apply Hk. unfold further. lia.
  - apply IH1. intros st1 Hst1. apply IH2. intros st2 Hst2.
    apply Hk. unfold further in *. lia.
  - by apply repeat_loop_ext.
Qed.

(** The fuel of a repetition never cuts a match short: any bound from the
    length of the input left on gives the same outcome. *)
Lemma repeat_loop_fuel r :
  ∀ fuel1 fuel2 lo hi st k,
    (length (rest st) ≤ fuel1)%nat → (length (rest st) ≤ fuel2)%nat →
    repeat_loop (run U r) fuel1 lo hi st k = repeat_loop (run U r) fuel2 lo hi st k.
Proof.
  assert (Hstuck : ∀ fuel lo hi st k,
    (length (rest st) ≤ 0)%nat →
    repeat_loop (run U r) (S fuel) lo hi st k = repeat_loop (run U r) 0 lo hi st k).
  { intros fuel lo hi st k Hlen. cbn [repeat_loop].
    destruct (may_iterate hi); [|done].
    match goal with
    | |- match ?more with _ => _ end = _ => destruct more as [res|] eqn:Hmore
    end; [|done].
    apply run_further in Hmore as (st1 & Hk & Hadv). unfold further in Hadv.
    destruct (pos st <? pos st1)%nat eqn:Hlt; [|discriminate].
    apply Nat.ltb_lt in Hlt. lia. }
  induction fuel1 as [|fuel1 IH]; intros [|fuel2] lo hi st k H1 H2.
  - done.
  - by rewrite Hstuck.
  - by rewrite Hstuck.
  - cbn [repeat_loop]. destruct (may_iterate hi); [|done].
    erewrite run_ext; [reflexivity|].
    intros st1 Hst1. simpl. destruct (pos st <? pos st1)%nat eqn:Hlt; [|done].
    apply Nat.ltb_lt in Hlt. unfold further in Hst1. apply IH; lia.
Qed.

Lemma run_repeat_fuel r lo hi st k fuel :
  (length (rest st) ≤ fuel)%nat →
  repeat_loop (run U r) fuel lo hi st k = run U (Repeat r lo hi) st k.
Proof. intros Hfuel. simpl. by apply repeat_loop_fuel. Qed.

(** A pattern that cannot match the empty string yields matches with
    [start < end]. *)
Lemma finditer_from_nonempty r :
  (1 ≤ min_length r)%nat →
  ∀ s skip at_pos before m,
    m ∈ finditer_from U r skip at_pos before s → (m_start m < m_end m)%nat.
Proof.
  intros Hr. induction s as [|c s IH]; intros skip at_pos before m Hm.
  - destruct skip; simpl in Hm.
    + destruct (run U r (Cursor at_pos before []) Some) as [fin|] eqn:Hrun.
      * apply list_elem_of_singleton in Hm as ->. simpl.
        apply run_min in Hrun as (st' & [= ->] & Hadv). simpl in Hadv. lia.
      * by apply elem_of_nil in Hm.
    + by apply elem_of_nil in Hm.
  - destruct skip; simpl in Hm.
    + destruct (run U r (Cursor at_pos before (c :: s)) Some) as [fin|] eqn:Hrun.
      * apply elem_of_cons in Hm as [->|Hm]; [|by eapply IH].
        simpl. apply run_min in Hrun as (st' & [= ->] & Hadv). simpl in Hadv. lia.
      * by eapply IH.
    + by eapply IH.
Qed.

Lemma finditer_nonempty r text m :
  (1 ≤ min_length r)%nat → m ∈ finditer U r text → (m_start m < m_end m)%nat.
Proof. intros Hr. by apply finditer_from_nonempty. Qed.

End Engine.

Lemma append_match_ok type st m :
  type ≠ py "key_phrase" → (m_start m < m_end m)%nat →
  Forall offsets_ok (entities st) →
  Forall offsets_ok (entities (append_match type st m)).
Proof.
  intros Hty Hm Hst. simpl. apply Forall_app. split; [done|].
  apply Forall_singleton. eexists _, _. split; [done|]. split; [done|].
  left. simpl. split; [congruence|lia].
Qed.

Lemma append_matches_ok type ms :
  type ≠ py "key_phrase" → Forall (fun m => (m_start m < m_end m)%nat) ms →
  ∀ st, Forall offsets_ok (entities st) →
        Forall offsets_ok (entities (foldl (append_match type) st ms)).
Proof.
  intros Hty. induction 1 as [|m ms Hm _ IH]; intros st Hst; simpl; [done|].
  by apply IH, append_match_ok.
Qed.

Lemma named_steps_ok ms :
  Forall (fun m => (m_start m < m_end m)%nat) ms →
  ∀ acc, Forall offsets_ok (entities acc.1) →
         Forall offsets_ok (entities (foldl named_step acc ms).1).
Proof.
  induction 1 as [|m ms Hm _ IH]; intros acc Hacc; simpl; [done|].
  apply IH. unfold named_step.
  destruct (_ && _); [|done]. simpl.
  apply append_match_ok; [|done..].
  intros H. by vm_compute in H.
Qed.

Lemma key_phrases_ok phrases :
  ∀ st, Forall offsets_ok (entities st) →
        Forall offsets_ok
          (entities (foldl (fun st phrase => append st (py "key_phrase") phrase (-1) (-1))
                           st phrases)).
Proof.
  induction phrases as [|phrase phrases IH]; intros st Hst; simpl; [done|].
  apply IH. simpl. apply Forall_app. split; [done|].
  apply Forall_singleton. eexists _, _. split; [done|]. split; [done|].
  by right.
Qed.

Lemma patterns_nonempty U :
  Forall (fun p => p.1 ≠ py "key_phrase" ∧ (1 ≤ min_length p.2)%nat) (patterns U).
Proof.
  unfold patterns.
  repeat (apply Forall_cons; split;
          [split; [intros H; by vm_compute in H | vm_compute; lia]|]).
  apply Forall_nil_2.
Qed.

Lemma pattern_loop_ok U text ps :
  Forall (fun p => p.1 ≠ py "key_phrase" ∧ (1 ≤ min_length p.2)%nat) ps →
  ∀ st, Forall offsets_ok (entities st) →
        Forall offsets_ok
          (entities (foldl (fun st p => foldl (append_match p.1) st (finditer U p.2 text))
                           st ps)).
Proof.
  induction 1 as [|p ps [Hty Hlen] _ IH]; intros st Hst; simpl; [done|].
  apply IH, append_matches_ok; [done| |done].
  apply Forall_forall. intros m Hm. by eapply finditer_nonempty.
Qed.

Lemma extract_entities_ok U text : Forall offsets_ok (extract_entities U text).
Proof.
  unfold extract_entities.
  apply key_phrases_ok, named_steps_ok.
  - apply Forall_forall. intros m Hm. eapply finditer_nonempty; [|exact Hm].
    vm_compute. lia.
  - cbn [fst]. apply pattern_loop_ok; [apply patterns_nonempty|]. constructor.
Qed.

Lemma extract_scenario U :
  extract_entities U scenario =
  [ ent "entity_0" "email" "alice@example.com" 23 40;
    ent "entity_1" "phone" "555-123-4567" 44 56;
    ent "entity_2" "date" "01/02/2023" 60 70;
    ent "entity_3" "money" "$1,200.00" 75 84;
    ent "entity_4" "named_entity" "Contact Alice Smith" 0 19;
    ent "entity_5" "key_phrase" "alice" (-1) (-1);
    ent "entity_6" "key_phrase" "contact" (-1) (-1);
    ent "entity_7" "key_phrase" "smith" (-1) (-1);
    ent "entity_8" "key_phrase" "example" (-1) (-1) ].
Proof. by vm_compute. Qed.

(** C8: every record [extract_entities] returns has either real offsets,
    [0 <= start < end], or the pair [start = end = -1]; the key phrases are
    the records with [-1], all others have real offsets. *)
Theorem extract_entities_offsets (U : unicode) (text : pystr) (e : entity) :
  e ∈ extract_entities U text →
  ∃ start end_, e_start e = Some start ∧ e_end e = Some end_
    ∧ ((0 ≤ start ∧ start < end_) ∨ (start = -1 ∧ end_ = -1))
    ∧ ¬ (start < 0 ∧ 0 ≤ end_)
    ∧ (e_type e = Some (py "key_phrase") ↔ start = -1 ∧ end_ = -1).
Proof.
  intros He.
  pose proof (extract_entities_ok U text) as Hok.
  rewrite Forall_forall in Hok.
  destruct (Hok e He) as (start & end_ & Hs & He' & Hcases).
  exists start, end_. split; [done|]. split; [done|].
  destruct Hcases as [(Hty & H0 & Hlt)|(Hty & -> & ->)].
  - split; [by left|]. split; [lia|]. split; [done|lia].
  - split; [by right|]. split; [lia|]. done.
Qed.

Lemma extract_entities_offsets_witness :
  let U := Unicode (fun _ => false) (fun _ => false) (fun _ => false) (fun s => s) in
  let e := ent "entity_4" "named_entity" "Contact Alice Smith" 0 19 in
  e ∈ extract_entities U scenario
  ∧ ∃ start end_, e_start e = Some start ∧ e_end e = Some end_
      ∧ ((0 ≤ start ∧ start < end_) ∨ (start = -1 ∧ end_ = -1))
      ∧ ¬ (start < 0 ∧ 0 ≤ end_)
      ∧ (e_type e = Some (py "key_phrase") ↔ start = -1 ∧ end_ = -1).
Proof.
  intros U e.
  assert (He : e ∈ extract_entities U scenario).
  { vm_compute. do 4 right. left. }
  split; [exact He|].
  exact (extract_entities_offsets U scenario e He).
Defined.

(** C2, as stated, fails: on the scenario text no record is a named entity
    with the value ["Alice Smith"], whatever the Unicode tables. *)
Lemma scenario_alice_smith_absent :
  ¬ ∃ U, let es := extract_entities U scenario in
         has_type "email" es ∧ has_type "phone" es ∧ has_type "date" es
         ∧ has_type "money" es ∧ has_named "Alice Smith" es.
Proof.
  intros (U & _ & _ & _ & _ & e & He & Hty & Hval).
  rewrite extract_scenario in He.
  repeat (apply elem_of_cons in He as [->|He]; [by vm_compute in Hval|]).
  by apply elem_of_nil in He.
Qed.

(** C2, amended: on the scenario text [extract_entities] returns an email, a
    phone, a date and a money record, and exactly one named entity, whose
    value is ["Contact Alice Smith"]. *)
Theorem extract_entities_scenario (U : unicode) :
  let es := extract_entities U scenario in
  values_of "email" es = [Some (py "alice@example.com")]
  ∧ values_of "phone" es = [Some (py "555-123-4567")]
  ∧ values_of "date" es = [Some (py "01/02/2023")]
  ∧ values_of "money" es = [Some (py "$1,200.00")]
  ∧ values_of "named_entity" es = [Some (py "Contact Alice Smith")]
  ∧ has_type "email" es ∧ has_type "phone" es ∧ has_type "date" es
  ∧ has_type "money" es ∧ has_named "Contact Alice Smith" es.
Proof.
  intros es. subst es. rewrite extract_scenario.
  repeat (split; [by vm_compute|]).
  unfold has_type, has_named.
  split; [eexists; split; [left|done]|].
  split; [eexists; split; [right; left|done]|].
  split; [eexists; split; [do 2 right; left|done]|].
  split; [eexists; split; [do 3 right; left|done]|].
  eexists; split; [do 4 right; left|done].
Qed.

End EntityExtractorSpec.


(** * Properties of the chain endpoint *)
Module ChainSpec.
Import Chain.

Lemma length_fill {A} (values : list A) slots i :
  length (fill values slots i) = length slots.
Proof. unfold fill. destruct (values !! i); [apply length_insert|done]. Qed.

Lemma lookup_fill {A} (values : list A) slots i j :
  length slots = length values →
  fill values slots i !! j =
  if decide (j = i) then Some <$> values !! j else slots !! j.
Proof.
  intros Hlen. unfold fill. destruct (decide (j = i)) as [->|Hne].
  - destruct (values !! i) as [r|] eqn:Hi; simpl.
    + apply list_lookup_insert_eq. rewrite Hlen. by eapply lookup_lt_Some.
    + apply lookup_ge_None. rewrite Hlen. by apply lookup_ge_None.
  - destruct (values !! i); [|done]. by apply list_lookup_insert_ne.
Qed.

Lemma lookup_foldl_fill {A} (values : list A) completion :
  ∀ slots j, length slots = length values →
    foldl (fill values) slots completion !! j =
    if decide (j ∈ completion) then Some <$> values !! j else slots !! j.
Proof.
  induction completion as [|i completion IH]; intros slots j Hlen.
  - cbn [foldl]. destruct (decide (j ∈ [])) as [Hin|_]; [by apply elem_of_nil in Hin|done].
  - cbn [foldl]. rewrite IH by (by rewrite length_fill).
    rewrite lookup_fill by done.
    destruct (decide (j ∈ completion)) as [Hin|Hout].
    + rewrite decide_True; [done|by right].
    + destruct (decide (j = i)) as [->|Hne].
      * rewrite decide_True; [done|by left].
      * rewrite decide_False; [done|]. by intros [?|?]%elem_of_cons.
Qed.

(** While no task raises, [gather] only fills slots. *)
Lemma gather_from_returns {A} (values : list A) completion :
  ∀ slots,
    gather_from (inr <$> values) slots completion
    = inr <$> mapM id (foldl (fill values) slots completion).
Proof.
  induction completion as [|i completion IH]; intros slots; [done|].
  cbn [gather_from foldl]. rewrite list_lookup_fmap. unfold fill at 2.
  destruct (values !! i); simpl; apply IH.
Qed.

(** Whatever the order of completion, [gather] hands back the results in
    task order, once each task has completed with a result. *)
Lemma gather_in_task_order {A} (values : list A) completion :
  completion ≡ₚ seq 0 (length values) →
  gather (inr <$> values) completion = Some (inr values).
Proof.
  intros Hperm. unfold gather. rewrite length_fmap, gather_from_returns.
  replace (foldl (fill values) (replicate (length values) None) completion)
    with (Some <$> values); [by rewrite mapM_fmap_Some|].
  apply list_eq. intros j.
  rewrite lookup_foldl_fill by apply length_replicate.
  destruct (decide (j ∈ completion)) as [Hin|Hout]; [by rewrite list_lookup_fmap|].
  assert (Hj : (length values ≤ j)%nat).
  { destruct (decide (j < length values)%nat); [|lia].
    exfalso. apply Hout. rewrite Hperm. apply elem_of_seq. lia. }
  rewrite list_lookup_fmap, (lookup_ge_None_2 values j Hj).
  simpl. symmetry. by apply lookup_replicate_None.
Qed.

(** The first task to complete with an exception decides what [gather]
    raises. *)
Lemma gather_from_raises {A} (outcomes : list (exception + A)) before i after e :
  (∀ j, j ∈ before → ∀ e', outcomes !! j ≠ Some (inl e')) →
  outcomes !! i = Some (inl e) →
  ∀ slots, gather_from outcomes slots (before ++ i :: after) = Some (inl e).
Proof.
  intros Hbefore Hi. induction before as [|j before IH]; intros slots.
  - cbn [app gather_from]. by rewrite Hi.
  - cbn [app gather_from].
    destruct (outcomes !! j) as [[e'|r]|] eqn:Hj.
    + exfalso. by apply (Hbefore j (list_elem_of_here _ _) e').
    + apply IH. intros j' Hj'. apply Hbefore. by right.
    + apply IH. intros j' Hj'. apply Hbefore. by right.
Qed.

Lemma outcomes_cases {A} (outcomes : list (exception + A)) :
  (∃ values, outcomes = inr <$> values) ∨ (∃ i e, outcomes !! i = Some (inl e)).
Proof.
  induction outcomes as [|[e|r] outcomes IH].
  - left. by exists [].
  - right. by exists 0%nat, e.
  - destruct IH as [(values & ->)|(i & e & Hi)].
    + left. by exists (r :: values).
    + right. by exists (S i), e.
Qed.

Lemma first_to_raise {A} (outcomes : list (exception + A)) completion i e :
  i ∈ completion → outcomes !! i = Some (inl e) →
  ∃ before i' after e',
    completion = before ++ i' :: after
    ∧ outcomes !! i' = Some (inl e')
    ∧ ∀ j, j ∈ before → ∀ e'', outcomes !! j ≠ Some (inl e'').
Proof.
  intros Hin Hi. induction completion as [|j completion IH]; [by apply elem_of_nil in Hin|].
  destruct (outcomes !! j) as [[e'|r]|] eqn:Hj.
  - exists [], j, completion, e'. split; [done|]. split; [done|].
    by intros j' ?%elem_of_nil.
  - apply elem_of_cons in Hin as [->|Hin]; [congruence|].
    destruct (IH Hin) as (before & i' & after & e' & -> & Hi' & Hbefore).
    exists (j :: before), i', after, e'. split; [done|]. split; [done|].
    intros j' [->|Hj']%elem_of_cons e''; [congruence|by apply Hbefore].
  - apply elem_of_cons in Hin as [->|Hin]; [congruence|].
    destruct (IH Hin) as (before & i' & after & e' & -> & Hi' & Hbefore).
    exists (j :: before), i', after, e'. split; [done|]. split; [done|].
    intros j' [->|Hj']%elem_of_cons e''; [congruence|by apply Hbefore].
Qed.

Section Endpoint.
Context (str : exception → pystr).
Context (ollama : nat → pystr → pystr → transfer) (now : nat → pystr).

Lemma stitch_spec current_prompt pairs :
  ∀ i results,
    stitch now i pairs current_prompt results =
    results ++ imap (fun j p => ChainResult p.1 current_prompt p.2 (now (i + j))) pairs.
Proof.
  induction pairs as [|[model response] pairs IH]; intros i results; simpl.
  - by rewrite app_nil_r.
  - rewrite IH, <- app_assoc. simpl. rewrite Nat.add_0_r. do 2 f_equal.
    apply imap_ext. intros j p _. simpl. by rewrite Nat.add_succ_r.
Qed.

(** The tasks of a parallel chain. *)
Lemma parallel_unfold completion models P :
  chain_models str ollama now completion (parallel_request models P) =
  match gather (imap (fun i model => generate_parallel ollama i model P) models) completion with
  | None => None
  | Some (inl e) => Some (HTTPException 500 (str e))
  | Some (inr parallel_results) =>
      Some (Body (py "parallel")
              (imap (fun j p => ChainResult p.1 P p.2 (now j)) (zip models parallel_results)))
  end.
Proof.
  unfold chain_models, chain_body, parallel_request. cbn [chain_type Chain.models prompt].
  rewrite decide_False by (intros H; by vm_compute in H).
  rewrite decide_True by done.
  destruct (gather _ completion) as [[e|parallel_results]|]; [done| |done].
  by rewrite stitch_spec, app_nil_l.
Qed.

(** When every invocation returns, the reply has their outputs in the order
    of the models. *)
Lemma parallel_returns completion models P outputs :
  completion ≡ₚ seq 0 (length models) →
  imap (fun i model => generate_parallel ollama i model P) models = inr <$> outputs →
  chain_models str ollama now completion (parallel_request models P) =
  Some (Body (py "parallel")
          (imap (fun j p => ChainResult p.1 P p.2 (now j)) (zip models outputs))).
Proof.
  intros Hperm Htasks. rewrite parallel_unfold, Htasks.
  rewrite gather_in_task_order; [done|].
  apply (f_equal length) in Htasks. rewrite length_imap, length_fmap in Htasks.
  by rewrite <- Htasks.
Qed.

(** When an invocation raises, the reply is the [HTTPException] of the first
    one, in order of completion, that does. *)
Lemma parallel_raises models P before i after e :
  (∀ j, j ∈ before →
        ∀ e', imap (fun i model => generate_parallel ollama i model P) models !! j
              ≠ Some (inl e')) →
  imap (fun i model => generate_parallel ollama i model P) models !! i = Some (inl e) →
  chain_models str ollama now (before ++ i :: after) (parallel_request models P) =
  Some (HTTPException 500 (str e)).
Proof.
  intros Hbefore Hi. rewrite parallel_unfold. unfold gather.
  by rewrite (gather_from_raises _ before i after e Hbefore Hi).
Qed.

Lemma parallel_cases completion models P :
  completion ≡ₚ seq 0 (length models) →
  (∃ outputs,
     imap (fun i model => generate_parallel ollama i model P) models = inr <$> outputs)
  ∨ (∃ before i after e,
       completion = before ++ i :: after
       ∧ imap (fun i model => generate_parallel ollama i model P) models !! i = Some (inl e)
       ∧ ∀ j, j ∈ before →
              ∀ e', imap (fun i model => generate_parallel ollama i model P) models !! j
                    ≠ Some (inl e')).
Proof.
  intros Hperm.
  destruct (outcomes_cases (imap (fun i model => generate_parallel ollama i model P) models))
    as [Hall|(i & e & Hi)]; [by left|right].
  assert (Hin : i ∈ completion).
  { rewrite Hperm. apply elem_of_seq. apply lookup_lt_Some in Hi.
    rewrite length_imap in Hi. lia. }
  destruct (first_to_raise _ completion i e Hin Hi)
    as (before & i' & after & e' & Hsplit & Hi' & Hbefore).
  by exists before, i', after, e'.
Qed.

Lemma task_lookup models P i :
  imap (fun i model => generate_parallel ollama i model P) models !! i
  = (fun model => generate_parallel ollama i model P) <$> models !! i.
Proof. by rewrite list_lookup_imap. Qed.

End Endpoint.

(** C6: in a parallel chain every entry has the request's prompt as input and
    the entries come in the order of the model list, whatever the order in
    which the invocations complete; entry [i] holds the output of the
    invocation for model [i].  The endpoint always answers: with these
    entries when every invocation returns, and with an [HTTPException] of
    status 500, and no entry, when one of them raises on an event. *)
Theorem parallel_results_in_model_order
    (str : exception → pystr)
    (ollama : nat → pystr → pystr → transfer) (now : nat → pystr)
    (completion : list nat) (models : list pystr) (P : pystr) :
  completion ≡ₚ seq 0 (length models) →
  match chain_models str ollama now completion (parallel_request models P) with
  | Some (Body chain_type results) =>
      chain_type = py "parallel"
      ∧ r_model <$> results = models
      ∧ Forall (fun r => r_input r = P) results
      ∧ ∀ i model, models !! i = Some model →
          ∃ output, generate_parallel ollama i model P = inr output
                    ∧ results !! i = Some (ChainResult model P output (now i))
  | Some (HTTPException status_code detail) =>
      status_code = 500%nat
      ∧ ∃ i model e, models !! i = Some model
                     ∧ generate_parallel ollama i model P = inl e
                     ∧ detail = str e
  | None => False
  end.
Proof.
  intros Hperm.
  destruct (parallel_cases ollama completion models P Hperm)
    as [(outputs & Htasks)|(before & i & after & e & -> & Hi & Hbefore)].
  - rewrite (parallel_returns str ollama now completion models P outputs Hperm Htasks).
    assert (Hout : ∀ i model, models !! i = Some model →
              ∃ output, outputs !! i = Some output
                        ∧ generate_parallel ollama i model P = inr output).
    { intros i model Hi.
      assert (Hi' := f_equal (fun l => l !! i) Htasks). simpl in Hi'.
      rewrite task_lookup, Hi, list_lookup_fmap in Hi'. simpl in Hi'.
      destruct (outputs !! i) as [output|]; [|done].
      exists output. split; [done|]. by injection Hi'. }
    split; [done|]. split; [|split].
    + apply list_eq. intros j. rewrite list_lookup_fmap, list_lookup_imap, lookup_zip_with.
      destruct (models !! j) as [model|] eqn:Hj; [|done]. simpl.
      destruct (Hout j model Hj) as (output & -> & _). done.
    + apply Forall_forall. intros r (j & Hj)%list_elem_of_lookup_1.
      rewrite list_lookup_imap in Hj.
      destruct (zip models outputs !! j) as [p|]; by simplify_eq/=.
    + intros i model Hi. destruct (Hout i model Hi) as (output & Ho & Hg).
      exists output. split; [done|].
      rewrite list_lookup_imap, lookup_zip_with, Hi. simpl. by rewrite Ho.
  - rewrite (parallel_raises str ollama now models P before i after e Hbefore Hi).
    split; [done|]. rewrite task_lookup in Hi.
    destruct (models !! i) as [model|] eqn:Hm; [|done].
    exists i, model, e. by simplify_eq/=.
Qed.

Lemma parallel_results_in_model_order_witness :
  let now := fun i : nat => py (pretty i) in
  [1; 0]%nat ≡ₚ seq 0 (length [py "m1"; py "m2"])
  ∧ match chain_models kind echo now [1; 0]%nat (parallel_request [py "m1"; py "m2"] (py "P")) with
    | Some (Body chain_type results) =>
        chain_type = py "parallel"
        ∧ r_model <$> results = [py "m1"; py "m2"]
        ∧ Forall (fun r => r_input r = py "P") results
        ∧ ∀ i model, [py "m1"; py "m2"] !! i = Some model →
            ∃ output, generate_parallel echo i model (py "P") = inr output
                      ∧ results !! i = Some (ChainResult model (py "P") output (now i))
    | Some (HTTPException status_code detail) =>
        status_code = 500%nat
        ∧ ∃ i model e, [py "m1"; py "m2"] !! i = Some model
                       ∧ generate_parallel echo i model (py "P") = inl e
                       ∧ detail = kind e
    | None => False
    end.
Proof.
  intros now.
  assert (Hperm : [1; 0]%nat ≡ₚ seq 0 (length [py "m1"; py "m2"])).
  { simpl. apply perm_swap. }
  split; [exact Hperm|].
  exact (parallel_results_in_model_order kind echo now [1; 0]%nat [py "m1"; py "m2"] (py "P")
           Hperm).
Defined.

(** C1, at the models ["m1"], ["m2"] with the backend failing on the first
    call: the endpoint answers as if the first model had returned the empty
    string.  The first entry has the empty output, the second model is
    called with the empty string, and the reply is the one of a backend that
    answered the first call with an empty body: a body with both entries
    when the second call returns, the [HTTPException] of the second call
    when that one raises.  The message of the failure is in neither. *)
Theorem sequential_failure_fed_forward
    (str : exception → pystr) (now : nat → pystr) (completion : list nat)
    (msg : pystr) (t2 : transfer) :
  let failing := fun (i : nat) (model prompt : pystr) =>
    match i with O => Transfer [] (Some msg) | S _ => t2 end in
  let silent := fun (i : nat) (model prompt : pystr) =>
    match i with O => Transfer [] None | S _ => t2 end in
  let request := sequential_request [py "m1"; py "m2"] (py "P") in
  stream_ollama_response (failing 0%nat (py "m1") (py "P"))
    = [JObject [(py "error", JString msg); (py "done", JBool true)]]
  ∧ chain_models str failing now completion request
    = Some match accumulate [] (stream_ollama_response t2) with
           | inr output =>
               Body (py "sequential")
                 [ChainResult (py "m1") (py "P") [] (now 0%nat);
                  ChainResult (py "m2") [] output (now 1%nat)]
           | inl e => HTTPException 500 (str e)
           end
  ∧ chain_models str failing now completion request
    = chain_models str silent now completion request.
Proof.
  intros failing silent request. split; [done|].
  unfold chain_models, chain_body, request, sequential_request.
  cbn [chain_type Chain.models prompt].
  rewrite decide_True by done.
  cbn. destruct (accumulate [] (stream_ollama_response t2)); done.
Qed.

End ChainSpec.


(** * Properties of the investigative agent *)
Module AgentSpec.
Import Agent.

Section Envelope.
Context (now : nat → Z) (isoformat : Z → pystr).

(** [execute], by the outcome of the selected procedure. *)
Lemma execute_outcome self task parameters w :
  execute now isoformat self task parameters w =
  let start_time := now (ticks w) in
  let result := initial_record self task (isoformat start_time) in
  match variant now isoformat self task parameters (started w) with
  | (inr output, w') =>
      (inr (set_end (isoformat (now (ticks w'))) (now (ticks w') - start_time)
                    (set_output output (execution_log self) result)),
       started w')
  | (inl e, w') =>
      (inr (set_end (isoformat (now (ticks w'))) (now (ticks w') - start_time)
                    (set_failed (str e) result)),
       started w')
  end.
Proof.
  unfold execute, mbind, M_bind, try_except, datetime_now, started. cbn.
  unfold initial_record.
  by destruct (variant now isoformat self task parameters _) as [[e|output] w'].
Qed.

(** [execute] returns a record in every case. *)
Lemma execute_returns self task parameters w :
  ∃ r w', execute now isoformat self task parameters w = (inr r, w').
Proof.
  rewrite execute_outcome. cbn zeta.
  destruct (variant now isoformat self task parameters (started w)) as [[e|output] w'];
    by eexists _, _.
Qed.

Lemma variant_unknown self task parameters w :
  agent_type self ∉ [py "research"; py "analysis"; py "summary"; py "investigation"] →
  variant now isoformat self task parameters w
  = (inr (py "Unknown agent type: " ++ agent_type self), w).
Proof.
  intros Hty. unfold variant.
  repeat (rewrite decide_False;
          [|intros Heq; apply Hty; rewrite Heq; set_solver]).
  done.
Qed.

End Envelope.

(** C9: when the selected procedure raises, [execute] still returns a
    record: its status is ["failed"], its error is the text of the exception,
    and the end time and the duration are set. *)
Theorem execute_captures_exception
    (now : nat → Z) (isoformat : Z → pystr) (self : InvestigativeAgent)
    (task : pystr) (parameters : gmap pystr pyval) (w w' : world) (e : exn) :
  variant now isoformat self task parameters (started w) = (inl e, w') →
  ∃ r, execute now isoformat self task parameters w = (inr r, started w')
       ∧ r_status r = py "failed"
       ∧ r_error r = Some (str e)
       ∧ r_output r = None
       ∧ r_end_time r = Some (isoformat (now (ticks w')))
       ∧ r_duration_seconds r = Some (now (ticks w') - now (ticks w)).
Proof.
  intros Hraise. rewrite execute_outcome. cbn zeta. rewrite Hraise.
  eexists. split; [reflexivity|]. by split_and!.
Qed.

Lemma execute_captures_exception_witness :
  let self := {| agent_type := py "summary"; models := []; execution_log := 0%nat |} in
  let parameters : gmap pystr pyval := {[ py "content" := PInt 5 ]} in
  let w := World {[ 0%nat := [] ]} 0 in
  let w' := World {[ 0%nat := [LogEntry (tick_format 1001) (py "Starting summary agent");
                               LogEntry (tick_format 1002)
                                        (py "Generating summary with model: default")] ]} 3 in
  let e := TypeError (py "object of type 'int' has no len()") in
  variant tick_clock tick_format self (py "t") parameters (started w) = (inl e, w')
  ∧ ∃ r, execute tick_clock tick_format self (py "t") parameters w = (inr r, started w')
         ∧ r_status r = py "failed"
         ∧ r_error r = Some (str e)
         ∧ r_output r = None
         ∧ r_end_time r = Some (tick_format (tick_clock (ticks w')))
         ∧ r_duration_seconds r = Some (tick_clock (ticks w') - tick_clock (ticks w)).
Proof.
  intros self parameters w w' e.
  assert (Hraise : variant tick_clock tick_format self (py "t") parameters (started w)
                   = (inl e, w')).
  { by vm_compute. }
  split; [exact Hraise|].
  exact (execute_captures_exception tick_clock tick_format self (py "t") parameters w w' e
           Hraise).
Defined.

(** C10: for an agent type outside the four variants, [execute] returns a
    record of status ["completed"] whose output is ["Unknown agent type: "]
    followed by the tag, without an error. *)
Theorem execute_unknown_agent_type
    (now : nat → Z) (isoformat : Z → pystr) (self : InvestigativeAgent)
    (task : pystr) (parameters : gmap pystr pyval) (w : world) :
  agent_type self ∉ [py "research"; py "analysis"; py "summary"; py "investigation"] →
  ∃ r, execute now isoformat self task parameters w = (inr r, started (started w))
       ∧ r_status r = py "completed"
       ∧ r_output r = Some (py "Unknown agent type: " ++ agent_type self)
       ∧ r_error r = None.
Proof.
  intros Hty. rewrite execute_outcome. cbn zeta.
  rewrite (variant_unknown now isoformat self task parameters (started w) Hty).
  eexists. split; [reflexivity|]. by split_and!.
Qed.

Lemma execute_unknown_agent_type_witness :
  let self := {| agent_type := py "triage"; models := [py "m1"]; execution_log := 0%nat |} in
  let w := World {[ 0%nat := [] ]} 0 in
(agent_type self ∉ [py "research"; py "analysis"; py "summary"; py "investigation"])
  ∧ ∃ r, execute tick_clock tick_format self (py "t") ∅ w = (inr r, started (started w))
         ∧ r_status r = py "completed"
         ∧ r_output r = Some (py "Unknown agent type: " ++ agent_type self)
         ∧ r_error r = None.
Proof.
  intros self w.
  assert (Hty : agent_type self ∉
                [py "research"; py "analysis"; py "summary"; py "investigation"]).
  { apply (bool_decide_unpack _). by vm_compute. }
  split; [exact Hty|].
  exact (execute_unknown_agent_type tick_clock tick_format self (py "t") ∅ w Hty).
Defined.

(** C3, on the code: the [steps] of the record [execute] returns are empty,
    whatever the call.  The steps go to the agent's own log, which the record
    carries as [execution_log] and which keeps the entries of earlier calls:
    after two calls of a research agent over ["m1"] both records have no
    steps, and the log they share holds the three entries of the first call
    followed by the three of the second. *)
Theorem execute_steps_stay_empty
    (now : nat → Z) (isoformat : Z → pystr) (self : InvestigativeAgent)
    (task : pystr) (parameters : gmap pystr pyval) (w : world) :
  (∃ r w', execute now isoformat self task parameters w = (inr r, w') ∧ r_steps r = [])
  ∧ ∃ r1 r2 w',
      two_calls now isoformat (World ∅ 0) = (inr (r1, r2), w')
      ∧ r_steps r1 = [] ∧ r_steps r2 = []
      ∧ r_execution_log r1 = Some 0%nat ∧ r_execution_log r2 = Some 0%nat
      ∧ heap w' !! 0%nat =
        Some [LogEntry (isoformat (now 1%nat)) (py "Starting research agent");
              LogEntry (isoformat (now 2%nat)) (py "Querying model: m1");
              LogEntry (isoformat (now 3%nat)) (py "Research completed");
              LogEntry (isoformat (now 6%nat)) (py "Starting research agent");
              LogEntry (isoformat (now 7%nat)) (py "Querying model: m1");
              LogEntry (isoformat (now 8%nat)) (py "Research completed")].
Proof.
  split.
  - rewrite execute_outcome. cbn zeta.
    destruct (variant now isoformat self task parameters (started w)) as [[e|output] w'];
      eexists _, _; by split.
  - eexists _, _, _. split; [by vm_compute|]. by split_and!.
Qed.

End AgentSpec.


(** * Further properties of the chain and streaming endpoints *)
Module ChainMore.
Import Chain.

(** Whether [add_response] raises does not depend on the response so far. *)
Lemma add_response_inr response chunk response' :
  add_response response chunk = inr response' →
  add_response [] chunk = inr (text chunk) ∧ response' = response ++ text chunk.
Proof.
  unfold text. destruct chunk as [| | | |s|items|members]; simpl; try done.
  - destruct (contains _ s); [done|]. intros [= <-]. by rewrite app_nil_r.
  - destruct (existsb _ items); [done|]. intros [= <-]. by rewrite app_nil_r.
  - destruct (dict_get _ members) as [[| | | |fragment| |]|]; try done.
    + by intros [= <-].
    + intros [= <-]. by rewrite app_nil_r.
Qed.

Lemma add_response_inl response chunk e :
  add_response response chunk = inl e → add_response [] chunk = inl e.
Proof.
  destruct chunk as [| | | |s|items|members]; simpl; try done.
  - by destruct (contains _ s).
  - by destruct (existsb _ items).
  - by destruct (dict_get _ members) as [[| | | |fragment| |]|].
Qed.


Lemma fragments_app chunks1 chunks2 :
  fragments (chunks1 ++ chunks2) = fragments chunks1 ++ fragments chunks2.
Proof. unfold fragments. by rewrite fmap_app, join_app. Qed.

Lemma fragments_cons c chunks :
  fragments (c :: chunks) = text c ++ fragments chunks.
Proof. done. Qed.





Section Sequential.
Context (ollama : nat → pystr → pystr → transfer) (now : nat → pystr).

Lemma next_prompt_cons P r results :
  next_prompt P (r :: results) = next_prompt (r_output r) results.
Proof. unfold next_prompt. rewrite last_cons. by destruct (last results). Qed.

(** The sequential branch from step [i] on: either it returns, having added
    one linked entry per model, or it raises at the first step whose
    invocation raises, the steps before it being linked. *)
Lemma sequential_spec models :
  ∀ i current_prompt results,
    match sequential ollama now i models current_prompt results with
    | inr out =>
        ∃ new, out = results ++ new
          ∧ r_model <$> new = models
          ∧ (∀ r, new !! 0%nat = Some r → r_input r = current_prompt)
          ∧ (∀ k r r', new !! k = Some r → new !! S k = Some r' → r_input r' = r_output r)
          ∧ (∀ k r, new !! k = Some r →
               accumulate [] (stream_ollama_response
                                (ollama (i + k)%nat (r_model r) (r_input r)))
                 = inr (r_output r)
               ∧ r_timestamp r = now (i + k)%nat)
    | inl e =>
        ∃ new model,
          (r_model <$> new) ++ [model] `prefix_of` models
          ∧ (∀ r, new !! 0%nat = Some r → r_input r = current_prompt)
          ∧ (∀ k r r', new !! k = Some r → new !! S k = Some r' → r_input r' = r_output r)
          ∧ (∀ k r, new !! k = Some r →
               accumulate [] (stream_ollama_response
                                (ollama (i + k)%nat (r_model r) (r_input r)))
                 = inr (r_output r)
               ∧ r_timestamp r = now (i + k)%nat)
          ∧ accumulate [] (stream_ollama_response
                             (ollama (i + length new)%nat model
                                     (next_prompt current_prompt new)))
            = inl e
    end.
Proof.
  induction models as [|model later IH]; intros i current_prompt results.
  - cbn [sequential]. exists []. rewrite app_nil_r. by split_and!.
  - cbn [sequential].
    destruct (accumulate [] (stream_ollama_response (ollama i model current_prompt)))
      as [e|response] eqn:Hacc.
    + exists [], model. split_and!; try done.
      * by apply prefix_cons, prefix_nil.
      * simpl. by rewrite Nat.add_0_r.
    + specialize (IH (S i) response
                     (results ++ [ChainResult model current_prompt response (now i)])).
      destruct (sequential ollama now (S i) later response _) as [e|out].
      * destruct IH as (new & model' & Hpre & Hhead & Hlinks & Hout & Hraise).
        exists (ChainResult model current_prompt response (now i) :: new), model'.
        split_and!.
        -- rewrite fmap_cons. simpl. by apply prefix_cons.
        -- by intros r [= <-].
        -- intros [|k] r r'; simpl.
           ++ intros [= <-] Hr'. simpl. by apply Hhead.
           ++ apply Hlinks.
        -- intros [|k] r; simpl.
           ++ intros [= <-]. simpl. by rewrite Nat.add_0_r.
           ++ intros Hr. rewrite Nat.add_succ_r. by apply Hout.
        -- rewrite next_prompt_cons. simpl. by rewrite Nat.add_succ_r.
      * destruct IH as (new & -> & Hmodels & Hhead & Hlinks & Hout).
        exists (ChainResult model current_prompt response (now i) :: new).
        split_and!.
        -- by rewrite <- app_assoc.
        -- rewrite fmap_cons. simpl. by rewrite Hmodels.
        -- by intros r [= <-].
        -- intros [|k] r r'; simpl.
           ++ intros [= <-] Hr'. simpl. by apply Hhead.
           ++ apply Hlinks.
        -- intros [|k] r; simpl.
           ++ intros [= <-]. simpl. by rewrite Nat.add_0_r.
           ++ intros Hr. rewrite Nat.add_succ_r. by apply Hout.
Qed.

End Sequential.

(** X2: a sequential chain always answers.  When every invocation returns,
    the answer has one entry per model, in the order of the model list: the
    first entry's input is the request's prompt, every later entry's input
    is the output of the entry before it, and entry [k] holds what the
    [k]-th backend call returned for its model and input.  When an
    invocation raises on an event, the answer is the [HTTPException] of
    status 500 with the message of that exception: the steps before it ran
    linked in the same way, and their entries are not in the answer. *)
Theorem sequential_chain_links
    (str : exception → pystr)
    (ollama : nat → pystr → pystr → transfer) (now : nat → pystr)
    (completion : list nat) (models : list pystr) (P : pystr) :
  match chain_models str ollama now completion (sequential_request models P) with
  | Some (Body chain_type results) =>
      chain_type = py "sequential"
      ∧ r_model <$> results = models
      ∧ linked ollama now P results
  | Some (HTTPException status_code detail) =>
      status_code = 500%nat
      ∧ ∃ results model e,
          (r_model <$> results) ++ [model] `prefix_of` models
          ∧ linked ollama now P results
          ∧ accumulate [] (stream_ollama_response
                             (ollama (length results) model (next_prompt P results)))
            = inl e
          ∧ detail = str e
  | None => False
  end.
Proof.
  unfold chain_models, chain_body, sequential_request. cbn [chain_type Chain.models prompt].
  rewrite decide_True by done.
  pose proof (sequential_spec ollama now models 0 P []) as Hspec.
  destruct (sequential ollama now 0 models P []) as [e|out].
  - destruct Hspec as (new & model & Hpre & Hhead & Hlinks & Hout & Hraise).
    split; [done|]. exists new, model, e. by split_and!.
  - destruct Hspec as (new & -> & Hmodels & Hhead & Hlinks & Hout).
    rewrite app_nil_l. by split_and!.
Qed.

Lemma sequential_chain_links_witness :
  let now := fun i : nat => py (pretty i) in
  chain_models kind echo now [] (sequential_request [py "m1"; py "m2"] (py "P"))
    = Some (Body (py "sequential")
              [ChainResult (py "m1") (py "P") (py "m1:P") (py "0");
               ChainResult (py "m2") (py "m1:P") (py "m2:m1:P") (py "1")])
  ∧ chain_models kind (echo_number_at 1) now []
      (sequential_request [py "m1"; py "m2"] (py "P"))
    = Some (HTTPException 500 (py "TypeError"))
  ∧ ∃ results model e,
      (r_model <$> results) ++ [model] `prefix_of` [py "m1"; py "m2"]
      ∧ linked (echo_number_at 1) now (py "P") results
      ∧ accumulate [] (stream_ollama_response
                         (echo_number_at 1 (length results) model
                                         (next_prompt (py "P") results)))
        = inl e
      ∧ py "TypeError" = kind e.
Proof.
  intros now. split; [by vm_compute|]. split; [by vm_compute|].
  apply (sequential_chain_links kind (echo_number_at 1) now [] [py "m1"; py "m2"] (py "P")).
Defined.

Section Parallel.
Context (str : exception → pystr).
Context (ollama : nat → pystr → pystr → transfer) (now : nat → pystr).

Lemma all_return models P :
  (∀ j model, models !! j = Some model →
              ∃ output, generate_parallel ollama j model P = inr output) →
  ∃ outputs,
    imap (fun i model => generate_parallel ollama i model P) models = inr <$> outputs.
Proof.
  intros Hall.
  destruct (ChainSpec.outcomes_cases
              (imap (fun i model => generate_parallel ollama i model P) models))
    as [Hout|(i & e & Hi)]; [done|].
  rewrite ChainSpec.task_lookup in Hi.
  destruct (models !! i) as [model|] eqn:Hm; [|done].
  destruct (Hall i model Hm) as (output & Ho). simpl in Hi. congruence.
Qed.

Lemma returned_entry completion models P outputs i :
  completion ≡ₚ seq 0 (length models) →
  imap (fun i model => generate_parallel ollama i model P) models = inr <$> outputs →
  ∃ results,
    chain_models str ollama now completion (parallel_request models P)
      = Some (Body (py "parallel") results)
    ∧ length results = length models
    ∧ results !! i
      = (fun model =>
           ChainResult model P
             (match generate_parallel ollama i model P with
              | inr output => output
              | inl _ => []
              end) (now i)) <$> models !! i.
Proof.
  intros Hperm Htasks. eexists. split; [by apply ChainSpec.parallel_returns|].
  assert (Hlen := f_equal length Htasks). rewrite length_imap, length_fmap in Hlen.
  split; [by rewrite length_imap, length_zip_with, <- Hlen, Nat.min_id|].
  rewrite list_lookup_imap, lookup_zip_with.
  assert (Hi := f_equal (fun l => l !! i) Htasks). simpl in Hi.
  rewrite ChainSpec.task_lookup, list_lookup_fmap in Hi.
  destruct (models !! i) as [model|]; [|done]. simpl in *.
  destruct (outputs !! i) as [output|]; [|done]. simpl in *.
  injection Hi as ->. done.
Qed.

End Parallel.

(** X3: in a parallel chain whose invocations all return, the entry of a model
    depends on the backend's answer to that model's own call only: two
    backends that agree on call [i] give the same entry [i], whatever the
    other calls deliver (a broken transfer included). *)
Theorem parallel_entry_independent
    (str : exception → pystr)
    (ollama ollama' : nat → pystr → pystr → transfer) (now : nat → pystr)
    (completion : list nat) (models : list pystr) (P : pystr) (i : nat) :
  completion ≡ₚ seq 0 (length models) →
  (∀ model, ollama i model P = ollama' i model P) →
  (∀ j model, models !! j = Some model →
     (∃ output, generate_parallel ollama j model P = inr output)
     ∧ (∃ output, generate_parallel ollama' j model P = inr output)) →
  ∃ results results',
    chain_models str ollama now completion (parallel_request models P)
      = Some (Body (py "parallel") results)
    ∧ chain_models str ollama' now completion (parallel_request models P)
      = Some (Body (py "parallel") results')
    ∧ length results = length models ∧ length results' = length models
    ∧ results !! i = results' !! i.
Proof.
  intros Hperm Hagree Hall.
  destruct (all_return ollama models P) as (outputs & Htasks).
  { intros j model Hj. by destruct (Hall j model Hj). }
  destruct (all_return ollama' models P) as (outputs' & Htasks').
  { intros j model Hj. by destruct (Hall j model Hj). }
  destruct (returned_entry str ollama now completion models P outputs i Hperm Htasks)
    as (results & Hreply & Hlen & Hi).
  destruct (returned_entry str ollama' now completion models P outputs' i Hperm Htasks')
    as (results' & Hreply' & Hlen' & Hi').
  exists results, results'. split_and!; try done.
  rewrite Hi, Hi'. destruct (models !! i) as [model|]; [|done]. simpl.
  unfold generate_parallel. by rewrite Hagree.
Qed.

Lemma parallel_entry_independent_witness :
  let now := fun i : nat => py (pretty i) in
  let models := [py "m1"; py "m2"] in
  [1; 0]%nat ≡ₚ seq 0 (length models)
  ∧ (∀ model, echo 0%nat model (py "P") = echo_failing_at 1 0%nat model (py "P"))
  ∧ ∃ results results',
      chain_models kind echo now [1; 0]%nat (parallel_request models (py "P"))
        = Some (Body (py "parallel") results)
      ∧ chain_models kind (echo_failing_at 1) now [1; 0]%nat
          (parallel_request models (py "P"))
        = Some (Body (py "parallel") results')
      ∧ length results = length models ∧ length results' = length models
      ∧ results !! 0%nat = results' !! 0%nat.
Proof.
  intros now models.
  assert (Hperm : [1; 0]%nat ≡ₚ seq 0 (length models)) by apply perm_swap.
  assert (Hagree : ∀ model, echo 0%nat model (py "P")
                            = echo_failing_at 1 0%nat model (py "P")) by done.
  assert (Hall : ∀ j model, models !! j = Some model →
            (∃ output, generate_parallel echo j model (py "P") = inr output)
            ∧ (∃ output, generate_parallel (echo_failing_at 1) j model (py "P")
                         = inr output)).
  { intros [|[|j]] model Hj; [| |done].
    - split; eexists; reflexivity.
    - split; eexists; reflexivity. }
  split; [exact Hperm|]. split; [exact Hagree|].
  exact (parallel_entry_independent kind echo (echo_failing_at 1) now [1; 0]%nat models
           (py "P") 0%nat Hperm Hagree Hall).
Defined.

(** X23: when an invocation of a parallel chain raises on an event, the
    whole chain answers with an [HTTPException] of status 500 and the
    entries of the other models are lost; its message is that of the first
    invocation, in order of completion, that raises. *)
Theorem parallel_first_failure
    (str : exception → pystr)
    (ollama : nat → pystr → pystr → transfer) (now : nat → pystr)
    (models : list pystr) (P : pystr)
    (before after : list nat) (i : nat) (model : pystr) (e : exception) :
  models !! i = Some model →
  generate_parallel ollama i model P = inl e →
  (∀ j model', j ∈ before → models !! j = Some model' →
     ∃ output, generate_parallel ollama j model' P = inr output) →
  chain_models str ollama now (before ++ i :: after) (parallel_request models P)
  = Some (HTTPException 500 (str e)).
Proof.
  intros Hi Hraise Hbefore. apply ChainSpec.parallel_raises.
  - intros j Hj e'. rewrite ChainSpec.task_lookup.
    destruct (models !! j) as [model'|] eqn:Hm; [|done]. simpl.
    destruct (Hbefore j model' Hj Hm) as (output & ->). done.
  - rewrite ChainSpec.task_lookup, Hi. simpl. by rewrite Hraise.
Qed.

Lemma parallel_first_failure_witness :
  let now := fun i : nat => py (pretty i) in
  let models := [py "m1"; py "m2"] in
  chain_models kind garbled now [0; 1]%nat (parallel_request models (py "P"))
    = Some (HTTPException 500 (py "TypeError"))
  ∧ chain_models kind garbled now [1; 0]%nat (parallel_request models (py "P"))
    = Some (HTTPException 500 (py "AttributeError")).
Proof.
  intros now models. split.
  - refine (parallel_first_failure kind garbled now models (py "P") [] [1%nat] 0%nat
              (py "m1") (NotIterable (JInt 42)) _ _ _).
    + reflexivity.
    + reflexivity.
    + by intros j model' ?%elem_of_nil.
  - refine (parallel_first_failure kind garbled now models (py "P") [] [0%nat] 1%nat
              (py "m2") (NoGet (JArray [])) _ _ _).
    + reflexivity.
    + reflexivity.
    + by intros j model' ?%elem_of_nil.
Defined.

Section Streaming.
Context {options float : Type}.
Context (time : nat → float).

Lemma pushed_chunks_cons model data (t : float) (messages : list (message float)) :
  pushed_chunks (Pushed model data t :: messages) = data :: pushed_chunks messages.
Proof. done. Qed.

Lemma usable_done chunk e : get_done chunk = inl e → usable chunk = false.
Proof. unfold usable. intros ->. by destruct (add_response [] chunk). Qed.

Lemma usable_add response chunk e :
  add_response response chunk = inl e → usable chunk = false.
Proof. unfold usable. by intros ->%add_response_inl. Qed.

Lemma usable_both response chunk response' d :
  add_response response chunk = inr response' → get_done chunk = inr d →
  usable chunk = true.
Proof. unfold usable. intros [-> _]%add_response_inr ->. done. Qed.

(** The push loop against the accumulating loop, on the same events. *)
Lemma push_accumulate model chunks :
  ∀ k response,
    pushed_chunks (push time model k chunks).1 `prefix_of` chunks
    ∧ Forall (fun m => ∃ data t, m = Pushed model data t) (push time model k chunks).1
    ∧ match accumulate response chunks with
      | inr full_response =>
          Forall (fun c => usable c = true) (pushed_chunks (push time model k chunks).1)
          ∧ (push time model k chunks).2 = None
          ∧ full_response
            = response ++ fragments (pushed_chunks (push time model k chunks).1)
      | inl e =>
          ∃ chunk, chunk ∈ pushed_chunks (push time model k chunks).1
                   ∧ usable chunk = false
      end.
Proof.
  induction chunks as [|c chunks IH]; intros k response.
  - cbn. split; [done|]. split; [constructor|]. split; [constructor|]. split; [done|].
    unfold fragments. simpl. by rewrite app_nil_r.
  - cbn [push accumulate].
    destruct (get_done c) as [e|[|]] eqn:Hdone.
    + (* no object: sent, then the handler ends *)
      cbn [fst snd]. rewrite pushed_chunks_cons. split; [by apply prefix_cons, prefix_nil|].
      split; [repeat constructor; by eexists _, _|].
      assert (Hbad : ∃ chunk, chunk ∈ pushed_chunks (float:=float) [] ++ [c]
                              ∧ usable chunk = false).
      { exists c. split; [by left|]. by eapply usable_done. }
      destruct (add_response response c); exact Hbad.
    + (* done *)
      cbn [fst snd]. rewrite pushed_chunks_cons. split; [by apply prefix_cons, prefix_nil|].
      split; [repeat constructor; by eexists _, _|].
      destruct (add_response response c) as [e|response'] eqn:Hadd.
      * exists c. split; [by left|]. by eapply usable_add.
      * split; [repeat constructor; by eapply usable_both|]. split; [done|].
        apply add_response_inr in Hadd as [_ ->].
        rewrite fragments_cons. unfold fragments. simpl. by rewrite app_nil_r.
    + (* not done: on to the next event *)
      destruct (push time model (S k) chunks) as [messages raised] eqn:Hpush.
      cbn [fst snd]. rewrite pushed_chunks_cons.
      destruct (add_response response c) as [e|response'] eqn:Hadd.
      * specialize (IH (S k) response). rewrite Hpush in IH. cbn [fst snd] in IH.
        destruct IH as (Hpre & Hall & _).
        split; [by apply prefix_cons|]. split; [constructor; [by eexists _, _|done]|].
        exists c. split; [by left|]. by eapply usable_add.
      * specialize (IH (S k) response'). rewrite Hpush in IH. cbn [fst snd] in IH.
        destruct IH as (Hpre & Hall & Hacc).
        split; [by apply prefix_cons|]. split; [constructor; [by eexists _, _|done]|].
        destruct (accumulate response' chunks) as [e|full_response].
        -- destruct Hacc as (chunk & Hin & Hbad). exists chunk. split; [by right|done].
        -- destruct Hacc as (Hus & Hraised & ->).
           split; [constructor; [by eapply usable_both|done]|]. split; [done|].
           apply add_response_inr in Hadd as [_ ->].
           rewrite fragments_cons. by rewrite app_assoc.
Qed.

End Streaming.

(** X4: for a request with a model and a prompt, the events pushed over the
    websocket are an initial part of the backend's stream, each tagged with
    the request's model.  When [/api/generate] answers the same backend
    stream with a body, the websocket handler raises nothing and the
    fragments of the events it pushed, joined, are the response of that
    body; when [/api/generate] answers with its [HTTPException] of status
    500, the websocket has pushed the event that is no object with a string
    [response] to the client. *)
Theorem websocket_pushes_generated_text
    {options float : Type} (str : exception → pystr)
    (ollama : nat → pystr → pystr → option options → transfer)
    (now : nat → pystr) (time : nat → float)
    (model prompt : pystr) (opts : option options) :
  model ≠ [] → prompt ≠ [] →
  let turn :=
    websocket_turn ollama time 0
      {| q_model := Some model; q_prompt := Some prompt; q_options := opts |} in
  pushed_chunks turn.1 `prefix_of` stream_ollama_response (ollama 0%nat model prompt opts)
  ∧ Forall (fun m => ∃ data t, m = Pushed model data t) turn.1
  ∧ match generate_text str ollama now model prompt opts with
    | GenerateBody body =>
        Forall (fun c => usable c = true) (pushed_chunks turn.1)
        ∧ turn.2 = None
        ∧ gen_model body = model
        ∧ gen_response body = fragments (pushed_chunks turn.1)
    | GenerateException status_code detail =>
        status_code = 500%nat
        ∧ ∃ chunk, chunk ∈ pushed_chunks turn.1 ∧ usable chunk = false
    end.
Proof.
  intros Hmodel Hprompt turn. subst turn. unfold websocket_turn, generate_text.
  cbn [q_model q_prompt q_options].
  destruct model as [|c model]; [done|]. destruct prompt as [|c' prompt]; [done|].
  cbn [falsy orb get].
  destruct (push_accumulate time (c :: model)
              (stream_ollama_response (ollama 0%nat (c :: model) (c' :: prompt) opts)) 0 [])
    as (Hpre & Hall & Hacc).
  split; [done|]. split; [done|].
  destruct (accumulate [] _) as [e|full_response]; [by split|].
  destruct Hacc as (Hus & Hraised & ->). by split_and!.
Qed.

Lemma websocket_pushes_generated_text_witness :
  let ollama := fun (i : nat) (model prompt : pystr) (_ : option unit) =>
    Transfer [Json (token (py "Hi")); Malformed; Json (final (py "!"));
              Json (token (py "late"))] None in
  let now := fun i : nat => py (pretty i) in
  let time := fun i : nat => Z.of_nat i in
  let turn :=
    websocket_turn ollama time 0
      {| q_model := Some (py "m"); q_prompt := Some (py "P"); q_options := None |} in
  py "m" ≠ [] ∧ py "P" ≠ []
  ∧ generate_text kind ollama now (py "m") (py "P") None
    = GenerateBody (Generated (py "m") (py "Hi!") (py "0"))
  ∧ pushed_chunks turn.1
      `prefix_of` stream_ollama_response (ollama 0%nat (py "m") (py "P") None)
  ∧ Forall (fun m => ∃ data t, m = Pushed (py "m") data t) turn.1
  ∧ Forall (fun c => usable c = true) (pushed_chunks turn.1)
  ∧ turn.2 = None
  ∧ py "m" = py "m"
  ∧ py "Hi!" = fragments (pushed_chunks turn.1).
Proof.
  intros ollama now time turn.
  assert (Hm : py "m" ≠ []) by done.
  assert (Hp : py "P" ≠ []) by done.
  split; [exact Hm|]. split; [exact Hp|]. split; [reflexivity|].
  exact (websocket_pushes_generated_text kind ollama now time (py "m") (py "P") None Hm Hp).
Defined.

(** X5: when the transfer breaks before any event with [done] set, the events
    before being objects, the last message pushed over the websocket carries
    the error event [{"error": msg, "done": True}], and the handler goes
    on to the next request. *)
Theorem websocket_surfaces_failure
    {options float : Type} (ollama : nat → pystr → pystr → option options → transfer)
    (time : nat → float) (i : nat)
    (model prompt msg : pystr) (opts : option options) (lines : list line) :
  model ≠ [] → prompt ≠ [] →
  ollama i model prompt opts = Transfer lines (Some msg) →
  Forall (fun c => get_done c = inr false) (omap decode lines) →
  let turn :=
    websocket_turn ollama time i
      {| q_model := Some model; q_prompt := Some prompt; q_options := opts |} in
  last turn.1
  = Some (Pushed model (JObject [(py "error", JString msg); (py "done", JBool true)])
                 (time (length (omap decode lines))))
  ∧ length turn.1 = S (length (omap decode lines))
  ∧ turn.2 = None.
Proof.
  intros Hmodel Hprompt Hfail Hnot turn. subst turn. unfold websocket_turn.
  cbn [q_model q_prompt q_options].
  destruct model as [|c model]; [done|]. destruct prompt as [|c' prompt]; [done|].
  cbn [falsy orb get]. rewrite Hfail. unfold stream_ollama_response.
  cbn [t_lines t_failure].
  generalize (c :: model). intros m.
  set (failure := JObject [(py "error", JString msg); (py "done", JBool true)]).
  assert (Hgen : ∀ k,
    last (push time m k (omap decode lines ++ [failure])).1
    = Some (Pushed m failure (time (k + length (omap decode lines))%nat))
    ∧ length (push time m k (omap decode lines ++ [failure])).1
      = S (length (omap decode lines))
    ∧ (push time m k (omap decode lines ++ [failure])).2 = None).
  { induction Hnot as [|d ds Hd _ IH]; intros k.
    - cbn. by rewrite Nat.add_0_r.
    - cbn [app push length]. rewrite Hd.
      destruct (IH (S k)) as (Hlast & Hlen & Hraised).
      destruct (push time m (S k) (ds ++ [failure])) as [messages raised].
      cbn [fst snd] in *. split_and!.
      + rewrite last_cons, Hlast. f_equal. f_equal. f_equal. lia.
      + cbn [length]. by rewrite Hlen.
      + done. }
  apply (Hgen 0%nat).
Qed.

Lemma websocket_surfaces_failure_witness :
  let ollama := fun (i : nat) (model prompt : pystr) (_ : option unit) =>
    Transfer [Json (token (py "Hi"))] (Some (py "broken pipe")) in
  let time := fun i : nat => Z.of_nat i in
  let turn :=
    websocket_turn ollama time 3
      {| q_model := Some (py "m"); q_prompt := Some (py "P"); q_options := None |} in
  last turn.1
  = Some (Pushed (py "m")
            (JObject [(py "error", JString (py "broken pipe")); (py "done", JBool true)]) 1)
  ∧ length turn.1 = 2%nat
  ∧ turn.2 = None.
Proof.
  intros ollama time turn.
  refine (websocket_surfaces_failure ollama time 3 (py "m") (py "P") (py "broken pipe") None
            [Json (token (py "Hi"))] _ _ _ _).
  - done.
  - done.
  - reflexivity.
  - repeat constructor.
Defined.

End ChainMore.


(** * Further properties of the graph builder *)
Module GraphBuilderMore.
Import GraphBuilder.

Lemma build_graph_builder self entities :
  ∃ b, nodes_inv entities b
       ∧ g_nodes (build_graph self entities).1 = nodes b
       ∧ nodes (build_graph self entities).2 = nodes b
       ∧ node_ids (build_graph self entities).2 = node_ids b
       ∧ edges (build_graph self entities).2 = g_edges (build_graph self entities).1.
Proof.
  exists (foldl _add_node {| nodes := []; edges := []; node_ids := ∅ |} entities).
  split; [|done]. apply (GraphBuilderSpec.nodes_inv_foldl [] _ entities).
  apply GraphBuilderSpec.nodes_inv_init.
Qed.

(** X6: [add_custom_edge] on the builder that has just built a graph appends
    the one edge when both ids are node keys of the entities, and otherwise
    leaves the builder as it is; nodes and node ids never change. *)
Theorem add_custom_edge_after_build
    (self : builder) (entities : list entity) (source_id target_id edge_type : pystr) :
  let b := (build_graph self entities).2 in
  let b' := add_custom_edge b source_id target_id edge_type in
  nodes b' = nodes b ∧ node_ids b' = node_ids b
  ∧ (source_id ∈ node_key <$> entities ∧ target_id ∈ node_key <$> entities →
     edges b' = edges b ++ [Edge (source_id ++ py "_" ++ target_id)
                                 (Some source_id) (Some target_id) edge_type 1])
  ∧ (¬ (source_id ∈ node_key <$> entities ∧ target_id ∈ node_key <$> entities) →
     b' = b).
Proof.
  intros b b'. subst b b'.
  destruct (build_graph_builder self entities) as (b0 & I & _ & _ & Hids & _).
  unfold add_custom_edge. rewrite Hids.
  destruct (decide (source_id ∈ node_ids b0 ∧ target_id ∈ node_ids b0)) as [Hin|Hout];
    rewrite !(inv_ids _ _ I) in *; simpl.
  - split; [done|]. split; [done|]. split; [done|]. by intros [].
  - split; [done|]. split; [done|]. split; [by intros ?|done].
Qed.

Lemma add_custom_edge_after_build_witness :
  let entities := [with_id "A" "x"; without_id "y" "t"] in
  let b := (build_graph init entities).2 in
  (py "A" ∈ node_key <$> entities ∧ py "y" ∈ node_key <$> entities)
  ∧ edges (add_custom_edge b (py "A") (py "y") (py "custom"))
    = edges b ++ [Edge (py "A_y") (Some (py "A")) (Some (py "y")) (py "custom") 1].
Proof.
  intros entities b.
  assert (Hin : py "A" ∈ node_key <$> entities ∧ py "y" ∈ node_key <$> entities).
  { split; [left|right; left]. }
  split; [exact Hin|].
  exact (proj1 (proj2 (proj2 (add_custom_edge_after_build init entities (py "A") (py "y")
                                 (py "custom")))) Hin).
Defined.

Lemma node_count_keys (self : builder) (entities : list entity) :
  let g := (build_graph self entities).1 in
  g_node_count g = size (list_to_set (node_key <$> entities) : gset pystr)
  ∧ (g_node_count g ≤ length entities)%nat.
Proof.
  intros g. subst g.
  destruct (build_graph_builder self entities) as (b & I & Hnodes & _).
  change (g_node_count (build_graph self entities).1)
    with (length (g_nodes (build_graph self entities).1)).
  rewrite Hnodes.
  assert (Hsame : ∀ k, k ∈ n_id <$> nodes b ↔ k ∈ node_key <$> entities).
  { intros k. split.
    - intros (n & -> & Hn)%list_elem_of_fmap.
      apply (inv_ids _ _ I). by eapply GraphBuilderSpec.nodes_of_node_ids.
    - intros Hk. apply (inv_ids _ _ I) in Hk.
      by eapply GraphBuilderSpec.node_ids_of_nodes. }
  split.
  - rewrite <- (length_fmap n_id), <- (size_list_to_set (C:=gset pystr))
      by apply (inv_nodup _ _ I).
    f_equal. apply set_eq. intros k. by rewrite !elem_of_list_to_set.
  - rewrite <- (length_fmap n_id), <- (length_fmap node_key entities).
    apply submseteq_length, NoDup_submseteq; [apply (inv_nodup _ _ I)|].
    intros k. apply Hsame.
Qed.

(** X7: the graph has as many nodes as the entities have distinct node keys,
    so never more nodes than entities. *)
Theorem node_count_distinct_keys (self : builder) (entities : list entity) :
  let g := (build_graph self entities).1 in
  g_node_count g = size (list_to_set (node_key <$> entities) : gset pystr)
  ∧ (g_node_count g ≤ length entities)%nat.
Proof. apply node_count_keys. Qed.

Lemma group_of_append source e groups s :
  group_of s (group_append source e groups) =
  if decide (s = source) then group_of s groups ++ [e] else group_of s groups.
Proof.
  induction groups as [|[s0 es0] groups IH]; simpl.
  - destruct (decide (source = s)) as [->|Hne].
    + by rewrite decide_True.
    + by rewrite decide_False.
  - destruct (decide (s0 = source)) as [->|Hne]; simpl.
    + destruct (decide (source = s)) as [->|Hne'].
      * by rewrite decide_True.
      * by rewrite decide_False.
    + destruct (decide (s0 = s)) as [->|Hne'].
      * by rewrite decide_False.
      * exact IH.
Qed.

Lemma group_of_foldl s rest :
  ∀ groups,
    group_of s (foldl (fun groups e => group_append (source_of e) e groups) groups rest)
    = group_of s groups ++ filter (fun e => source_of e = s) rest.
Proof.
  induction rest as [|e rest IH]; intros groups; simpl.
  - by rewrite app_nil_r.
  - rewrite IH, group_of_append, filter_cons.
    destruct (decide (s = source_of e)) as [->|Hne].
    + rewrite decide_True by done. by rewrite <- app_assoc.
    + rewrite decide_False by done. done.
Qed.

(** The group of a source tag is the entities carrying it, in their order. *)
Lemma group_of_source_groups s entities :
  group_of s (source_groups entities) = filter (fun e => source_of e = s) entities.
Proof. unfold source_groups. by rewrite group_of_foldl. Qed.

Lemma group_of_elem s groups :
  group_of s groups ≠ [] → (s, group_of s groups) ∈ groups.
Proof.
  induction groups as [|[s0 es0] groups IH]; simpl; [done|].
  destruct (decide (s0 = s)) as [->|Hne]; [by left|].
  intros H. right. by apply IH.
Qed.

Lemma sublist_filter_mono {A} (P : A → Prop) `{!∀ x, Decision (P x)} (l1 l2 : list A) :
  l1 `sublist_of` l2 → filter P l1 `sublist_of` filter P l2.
Proof.
  induction 1 as [|x l1 l2 _ IH|x l1 l2 _ IH]; [done|..]; rewrite ?filter_cons.
  - destruct (decide (P x)); [by apply sublist_skip|done].
  - destruct (decide (P x)); [by apply sublist_cons|done].
Qed.

Lemma group_edges_complete es e1 e2 :
  [e1; e2] `sublist_of` es → _are_related e1 e2 = true →
  make_edge e1 e2 ∈ group_edges es.
Proof.
  intros Hsub Hrel. induction es as [|e es IH]; [by apply sublist_nil_r in Hsub|].
  simpl. apply elem_of_app.
  apply sublist_cons_r in Hsub as [Hsub|(l' & [= <- <-] & Hsub)].
  - right. by apply IH.
  - left. apply list_elem_of_fmap_2, list_elem_of_filter. split; [done|].
    by apply singleton_sublist_l.
Qed.

(** X8: the edges of the graph are exactly the edges of the pairs of entities,
    a first before a second in the input, that carry the same source tag and
    are related. *)
Theorem build_graph_edges_exactly (self : builder) (entities : list entity) (ed : edge) :
  ed ∈ g_edges (build_graph self entities).1 ↔
  ∃ e1 e2, [e1; e2] `sublist_of` entities
           ∧ source_of e1 = source_of e2
           ∧ _are_related e1 e2 = true
           ∧ ed = make_edge e1 e2.
Proof.
  split; [apply GraphBuilderSpec.edge_origin|].
  intros (e1 & e2 & Hsub & Hsrc & Hrel & ->).
  rewrite GraphBuilderSpec.build_graph_edges. apply list_elem_of_join.
  set (s := source_of e1).
  assert (Hpair : [e1; e2] `sublist_of` group_of s (source_groups entities)).
  { rewrite group_of_source_groups.
    apply (sublist_filter_mono (fun e => source_of e = s)) in Hsub.
    rewrite !filter_cons, filter_nil in Hsub.
    rewrite decide_True in Hsub by done. by rewrite decide_True in Hsub by done. }
  exists (group_edges (group_of s (source_groups entities))). split.
  - by apply group_edges_complete.
  - apply (list_elem_of_fmap_2 (fun g => group_edges g.2) _ (s, group_of s _)).
    apply group_of_elem. intros Hnil. rewrite Hnil in Hpair.
    by apply sublist_nil_r in Hpair.
Qed.

Lemma build_graph_edges_exactly_witness :
  let a := tagged "a" "email" "doc1" 0 in
  let b := tagged "b" "email" "doc2" 5 in
  let c := tagged "c" "phone" "doc1" 20 in
  make_edge a c ∈ g_edges (build_graph init [a; b; c]).1.
Proof.
  intros a b c. apply (build_graph_edges_exactly init [a; b; c]).
  exists a, c. split; [|done].
  apply sublist_skip, sublist_cons, sublist_skip, sublist_nil_l.
Defined.

(** X9: [_are_related] does not depend on the order of its two entities. *)
Theorem are_related_symmetric (entity1 entity2 : entity) :
  _are_related entity1 entity2 = _are_related entity2 entity1.
Proof.
  unfold _are_related.
  destruct (decide (e_type entity1 = e_type entity2)) as [Heq|Hne].
  - by rewrite decide_True.
  - rewrite decide_False by done.
    rewrite (andb_comm (0 <=? get (e_start entity2) (-1))).
    replace (get (e_start entity2) (-1) - get (e_start entity1) (-1))
      with (- (get (e_start entity1) (-1) - get (e_start entity2) (-1))) by lia.
    by rewrite Z.abs_opp.
Qed.

End GraphBuilderMore.


(** * Further properties of the entity extractor *)
Module EntityExtractorMore.
Import Re EntityExtractor.

Section Engine.
Context (U : unicode) (P : N → Prop).

Lemma consumes_refl st : consumes st st [].
Proof. split; simpl; [done|lia]. Qed.

Lemma consumes_trans st1 st2 st3 cs cs' :
  consumes st1 st2 cs → consumes st2 st3 cs' → consumes st1 st3 (cs ++ cs').
Proof.
  intros [Hr1 Hp1] [Hr2 Hp2]. split.
  - by rewrite Hr1, Hr2, app_assoc.
  - rewrite length_app. lia.
Qed.

(** What a match consumes: at least [min_length] characters, all of them
    accepted by the tests of the pattern. *)
Lemma repeat_loop_consumes body n :
  (∀ st k res, body st k = Some res →
     ∃ st' cs, k st' = Some res ∧ consumes st st' cs ∧ Forall P cs
               ∧ (n ≤ length cs)%nat) →
  ∀ fuel lo hi st k res,
    repeat_loop body fuel lo hi st k = Some res →
    ∃ st' cs, k st' = Some res ∧ consumes st st' cs ∧ Forall P cs
              ∧ (lo * n ≤ length cs)%nat.
Proof.
  intros Hbody. induction fuel as [|fuel IH]; intros lo hi st k res Hrun.
  - simpl in Hrun. destruct lo; [|discriminate].
    exists st, []. split; [done|]. split; [apply consumes_refl|]. split; [done|simpl; lia].
  - cbn [repeat_loop] in Hrun.
    destruct (may_iterate hi); cycle 1.
    { destruct lo; [|discriminate].
      exists st, []. split; [done|]. split; [apply consumes_refl|]. split; [done|simpl; lia]. }
    match type of Hrun with
    | match ?more with _ => _ end = _ => destruct more as [res'|] eqn:Hmore
    end.
    + injection Hrun as ->.
      apply Hbody in Hmore as (st1 & cs1 & Hk & Hcs1 & HP1 & Hn1).
      destruct (pos st <? pos st1)%nat; [|discriminate].
      apply IH in Hk as (st' & cs' & Hk & Hcs' & HP' & Hn').
      exists st', (cs1 ++ cs'). split; [done|].
      split; [by eapply consumes_trans|]. split; [by apply Forall_app|].
      rewrite length_app. destruct lo; simpl in *; lia.
    + destruct lo; [|discriminate].
      exists st, []. split; [done|]. split; [apply consumes_refl|]. split; [done|simpl; lia].
Qed.

Lemma run_consumes r :
  chars_in P r →
  ∀ st k res, run U r st k = Some res →
    ∃ st' cs, k st' = Some res ∧ consumes st st' cs ∧ Forall P cs
              ∧ (min_length r ≤ length cs)%nat.
Proof.
  induction r as [p| |r1 IH1 r2 IH2|r IH lo hi]; intros Hr st k res Hrun; simpl in Hrun.
  - destruct (rest st) as [|c s] eqn:Hrest; [discriminate|].
    destruct (p c) eqn:Hp; [|discriminate].
    eexists _, [c]. split; [exact Hrun|]. split; [|split].
    + split; simpl; [done|lia].
    + apply Forall_singleton. by apply Hr.
    + simpl. lia.
  - destruct (at_boundary U st); [|discriminate].
    exists st, []. split; [done|]. split; [apply consumes_refl|]. split; [done|simpl; lia].
  - destruct Hr as [Hr1 Hr2].
    apply (IH1 Hr1) in Hrun as (st1 & cs1 & Hrun & Hcs1 & HP1 & Hn1).
    apply (IH2 Hr2) in Hrun as (st2 & cs2 & Hk & Hcs2 & HP2 & Hn2).
    exists st2, (cs1 ++ cs2). split; [done|].
    split; [by eapply consumes_trans|]. split; [by apply Forall_app|].
    rewrite length_app. simpl. lia.
  - eapply repeat_loop_consumes in Hrun; [exact Hrun|]. by apply IH.
Qed.

(** Every match of [finditer] lies inside the text, and its group is the
    slice of the text between its two offsets; the characters of the group
    are accepted by the tests of the pattern. *)
Lemma finditer_from_slices r :
  chars_in P r →
  ∀ s before_text skip before m,
    m ∈ finditer_from U r skip (length before_text) before s →
    (m_start m ≤ m_end m)%nat
    ∧ (m_end m ≤ length (before_text ++ s))%nat
    ∧ m_group m = take (m_end m - m_start m) (drop (m_start m) (before_text ++ s))
    ∧ Forall P (m_group m)
    ∧ (min_length r ≤ length (m_group m))%nat.
Proof.
  intros Hr.
  assert (Hhere : ∀ s before_text before fin,
    run U r (Cursor (length before_text) before s) Some = Some fin →
    let m := Match (length before_text) (pos fin) (take (pos fin - length before_text) s) in
    (m_start m ≤ m_end m)%nat
    ∧ (m_end m ≤ length (before_text ++ s))%nat
    ∧ m_group m = take (m_end m - m_start m) (drop (m_start m) (before_text ++ s))
    ∧ Forall P (m_group m)
    ∧ (min_length r ≤ length (m_group m))%nat).
  { intros s before_text before fin Hrun.
    apply (run_consumes r Hr) in Hrun as (st' & cs & [= ->] & [Hrest Hpos] & HP & Hmin).
    simpl in Hrest, Hpos. simpl. rewrite Hpos, Hrest.
    replace (length before_text + length cs - length before_text)%nat
      with (length cs) by lia.
    rewrite drop_app_length, take_app_length, !length_app.
    split; [lia|]. split; [lia|]. done. }
  induction s as [|c s IH]; intros before_text skip before m Hm.
  - destruct skip; simpl in Hm; [|by apply elem_of_nil in Hm].
    destruct (run U r (Cursor (length before_text) before []) Some) as [fin|] eqn:Hrun;
      [|by apply elem_of_nil in Hm].
    apply list_elem_of_singleton in Hm as ->. by eapply Hhere.
  - assert (Hnext : ∀ skip', m ∈ finditer_from U r skip' (S (length before_text)) (Some c) s →
      (m_start m ≤ m_end m)%nat
      ∧ (m_end m ≤ length (before_text ++ c :: s))%nat
      ∧ m_group m = take (m_end m - m_start m) (drop (m_start m) (before_text ++ c :: s))
      ∧ Forall P (m_group m)
      ∧ (min_length r ≤ length (m_group m))%nat).
    { intros skip' Hm'.
      replace (before_text ++ c :: s) with ((before_text ++ [c]) ++ s)
        by (by rewrite <- app_assoc).
      apply (IH (before_text ++ [c]) skip' (Some c)).
      rewrite length_app. simpl. by rewrite Nat.add_1_r. }
    destruct skip; simpl in Hm; [|by eapply Hnext].
    destruct (run U r (Cursor (length before_text) before (c :: s)) Some) as [fin|] eqn:Hrun;
      [|by eapply Hnext].
    apply elem_of_cons in Hm as [->|Hm]; [by eapply Hhere|by eapply Hnext].
Qed.

Lemma finditer_slices r text m :
  chars_in P r → m ∈ finditer U r text →
  (m_start m ≤ m_end m)%nat
  ∧ (m_end m ≤ length text)%nat
  ∧ m_group m = take (m_end m - m_start m) (drop (m_start m) text)
  ∧ Forall P (m_group m)
  ∧ (min_length r ≤ length (m_group m))%nat.
Proof. intros Hr Hm. by apply (finditer_from_slices r Hr text [] 0%nat None m). Qed.

End Engine.

Lemma chars_in_any r : chars_in (fun _ => True) r.
Proof. induction r; simpl; auto. Qed.

(** ** The shape of the result *)

Lemma number_from_app i raws1 raws2 :
  number_from i (raws1 ++ raws2)
  = number_from i raws1 ++ number_from (i + length raws1) raws2.
Proof.
  revert i. induction raws1 as [|[[[ty v] s] e] raws1 IH]; intros i; simpl.
  - by rewrite Nat.add_0_r.
  - by rewrite IH, Nat.add_succ_r.
Qed.

Lemma append_holds st raws type value start end_ :
  holds st raws →
  holds (append st type value start end_) (raws ++ [(type, value, start, end_)]).
Proof.
  intros [Hent Hid]. split; simpl.
  - by rewrite number_from_app, Hent, Hid.
  - rewrite length_app, Hid. simpl. lia.
Qed.

Lemma append_matches_holds type ms :
  ∀ st raws, holds st raws →
    holds (foldl (append_match type) st ms) (raws ++ (raw_of_match type <$> ms)).
Proof.
  induction ms as [|m ms IH]; intros st raws Hst.
  - simpl. by rewrite app_nil_r.
  - rewrite fmap_cons, cons_middle, app_assoc. cbn [foldl].
    apply IH. by apply append_holds.
Qed.

Lemma pattern_loop_holds U text ps :
  ∀ st raws, holds st raws →
    holds (foldl (fun st p => foldl (append_match p.1) st (finditer U p.2 text)) st ps)
          (raws ++ mjoin ((fun p : pystr * regex =>
                             raw_of_match p.1 <$> finditer U p.2 text) <$> ps)).
Proof.
  induction ps as [|p ps IH]; intros st raws Hst.
  - simpl. by rewrite app_nil_r.
  - rewrite fmap_cons. cbn [foldl mjoin list_join]. rewrite app_assoc.
    apply IH. by apply append_matches_holds.
Qed.

Lemma named_loop_holds ms :
  ∀ st seen raws, holds st raws →
    holds (foldl named_step (st, seen) ms).1
          (raws ++ (raw_of_match (py "named_entity") <$> keep_new seen ms)).
Proof.
  induction ms as [|m ms IH]; intros st seen raws Hst.
  - simpl. by rewrite app_nil_r.
  - cbn [foldl keep_new]. unfold named_step at 2. cbn [fst snd].
    destruct (bool_decide (2 < length (m_group m))%nat && bool_decide (m_group m ∉ seen)).
    + rewrite fmap_cons, cons_middle, app_assoc.
      apply IH. by apply append_holds.
    + by apply IH.
Qed.

Lemma key_loop_holds phrases :
  ∀ st raws, holds st raws →
    holds (foldl (fun st phrase => append st (py "key_phrase") phrase (-1) (-1)) st phrases)
          (raws ++ ((fun phrase => (py "key_phrase", phrase, -1, -1)) <$> phrases)).
Proof.
  induction phrases as [|phrase phrases IH]; intros st raws Hst.
  - simpl. by rewrite app_nil_r.
  - rewrite fmap_cons, cons_middle, app_assoc. cbn [foldl].
    apply IH. by apply append_holds.
Qed.

(** [extract_entities] returns the pattern matches, then the new capitalized
    matches, then the key phrases, numbered from [entity_0] on. *)
Lemma extract_entities_shape U text :
  extract_entities U text
  = number_from 0 (pattern_raws U text ++ named_raws U text ++ key_raws U text).
Proof.
  pose proof (pattern_loop_holds U text (patterns U)
                {| entities := []; entity_id := 0 |} [] (conj eq_refl eq_refl)) as H1.
  pose proof (named_loop_holds (finditer U (capitalized_pattern U) text) _ ∅ _ H1) as H2.
  pose proof (key_loop_holds (_extract_key_phrases U text 10) _ _ H2) as [H3 _].
  rewrite app_nil_l, <- app_assoc in H3. exact H3.
Qed.

Lemma py_inj : Inj (=) (=) py.
Proof.
  intros s1 s2 Heq. unfold py in Heq.
  rewrite <- (string_of_list_ascii_of_string s1), <- (string_of_list_ascii_of_string s2).
  f_equal. revert Heq.
  generalize (list_ascii_of_string s1) (list_ascii_of_string s2).
  induction l as [|a l IH]; intros [|b l']; simpl; intros Heq; try done.
  injection Heq as Hab Hl. f_equal; [|by apply IH].
  by rewrite <- (ascii_N_embedding a), <- (ascii_N_embedding b), Hab.
Qed.

Lemma entity_name_inj : Inj (=) (=) entity_name.
Proof.
  intros i j Heq. unfold entity_name in Heq.
  apply app_inv_head, py_inj in Heq. by apply (inj pretty) in Heq.
Qed.

Lemma number_from_ids raws :
  ∀ i, e_id <$> number_from i raws
       = (fun j => Some (entity_name j)) <$> List.seq i (length raws).
Proof.
  induction raws as [|[[[ty v] s] e] raws IH]; intros i; simpl; [done|].
  by rewrite IH.
Qed.

Lemma length_number_from raws : ∀ i, length (number_from i raws) = length raws.
Proof.
  induction raws as [|[[[ty v] s] e] raws IH]; intros i; simpl; [done|].
  by rewrite IH.
Qed.

Lemma elem_of_number_from raws e :
  ∀ i, e ∈ number_from i raws →
    ∃ j type value start end_,
      (type, value, start, end_) ∈ raws
      ∧ e = Entity (Some (entity_name j)) (Some type) (Some value)
                   (Some start) (Some end_) None.
Proof.
  induction raws as [|[[[ty v] s] t] raws IH]; intros i He; simpl in He.
  - by apply elem_of_nil in He.
  - apply elem_of_cons in He as [->|He].
    + exists i, ty, v, s, t. split; [by left|done].
    + destruct (IH _ He) as (j & ty' & v' & s' & t' & Hin & ->).
      exists j, ty', v', s', t'. split; [by right|done].
Qed.

Lemma extracted_ids (U : unicode) (text : pystr) :
  let es := extract_entities U text in
  e_id <$> es = (fun i => Some (entity_name i)) <$> List.seq 0 (length es)
  ∧ NoDup (e_id <$> es)
  ∧ Forall (fun e => is_Some (e_type e) ∧ is_Some (e_value e) ∧ is_Some (e_start e)
                     ∧ is_Some (e_end e) ∧ e_source e = None) es.
Proof.
  intros es. subst es. rewrite extract_entities_shape.
  set (raws := pattern_raws U text ++ named_raws U text ++ key_raws U text).
  rewrite number_from_ids, length_number_from. split; [done|]. split.
  - assert (Hinj : Inj (=) (=) (fun j => Some (entity_name j))).
    { intros i j Heq. apply (inj Some) in Heq. by apply entity_name_inj in Heq. }
    apply (NoDup_fmap_2 _), NoDup_seq.
  - apply Forall_forall. intros e He.
    apply elem_of_number_from in He as (j & ty & v & s & t & _ & ->). simpl.
    by split_and!.
Qed.

(** X10: the records [extract_entities] returns are numbered in the order of
    the list: record [i] has the id ["entity_i"].  So the ids of one call
    are pairwise distinct; and every record has a type, a value, a start and
    an end, and no source tag. *)
Theorem extract_entities_ids (U : unicode) (text : pystr) :
  let es := extract_entities U text in
  e_id <$> es = (fun i => Some (entity_name i)) <$> List.seq 0 (length es)
  ∧ NoDup (e_id <$> es)
  ∧ Forall (fun e => is_Some (e_type e) ∧ is_Some (e_value e) ∧ is_Some (e_start e)
                     ∧ is_Some (e_end e) ∧ e_source e = None) es.
Proof. apply extracted_ids. Qed.

Lemma keep_new_spec ms :
  ∀ seen,
    keep_new seen ms `sublist_of` ms
    ∧ NoDup (m_group <$> keep_new seen ms)
    ∧ Forall (fun m => (m_group m ∉ seen) ∧ (2 < length (m_group m))%nat) (keep_new seen ms).
Proof.
  induction ms as [|m ms IH]; intros seen; simpl.
  - split; [done|]. split; constructor.
  - destruct (bool_decide (2 < length (m_group m))%nat) eqn:Hlen; simpl.
    + destruct (bool_decide (m_group m ∉ seen)) eqn:Hnew; simpl.
      * apply bool_decide_eq_true in Hlen, Hnew.
        destruct (IH ({[m_group m]} ∪ seen)) as (Hsub & Hnd & Hall).
        split; [by apply sublist_skip|]. split.
        -- apply NoDup_cons. split; [|done].
           intros (m' & Heq & Hm')%list_elem_of_fmap.
           rewrite Forall_forall in Hall. destruct (Hall m' Hm') as [Hout _].
           apply Hout, elem_of_union. left. by apply elem_of_singleton.
        -- apply Forall_cons. split; [done|].
           eapply Forall_impl; [exact Hall|]. intros m' [Hout Hl]. split; [|done].
           intros Hin. apply Hout, elem_of_union. by right.
      * destruct (IH seen) as (Hsub & Hnd & Hall). split; [by apply sublist_cons|done].
    + destruct (IH seen) as (Hsub & Hnd & Hall). split; [by apply sublist_cons|done].
Qed.

(** Where the records come from. *)
Lemma elem_of_pattern_raws U text r :
  r ∈ pattern_raws U text →
  ∃ p m, p ∈ patterns U ∧ m ∈ finditer U p.2 text ∧ r = raw_of_match p.1 m.
Proof.
  unfold pattern_raws. intros (l & Hr & Hl)%list_elem_of_join.
  apply list_elem_of_fmap in Hl as (p & -> & Hp).
  apply list_elem_of_fmap in Hr as (m & -> & Hm). by exists p, m.
Qed.

Lemma elem_of_named_raws U text r :
  r ∈ named_raws U text →
  ∃ m, m ∈ finditer U (capitalized_pattern U) text
       ∧ (2 < length (m_group m))%nat
       ∧ r = raw_of_match (py "named_entity") m.
Proof.
  unfold named_raws. intros (m & -> & Hm)%list_elem_of_fmap.
  destruct (keep_new_spec (finditer U (capitalized_pattern U) text) ∅) as (Hsub & _ & Hall).
  rewrite Forall_forall in Hall. destruct (Hall m Hm) as [_ Hlen].
  exists m. split; [by eapply elem_of_sublist|done].
Qed.

(** X11: a record of a pattern or of a named entity lies inside the text, and
    its value is the slice [text[start:end]]. *)
Theorem extract_entities_slices (U : unicode) (text : pystr) (e : entity) :
  e ∈ extract_entities U text → e_type e ≠ Some (py "key_phrase") →
  ∃ start end_ : nat,
    e_start e = Some (Z.of_nat start) ∧ e_end e = Some (Z.of_nat end_)
    ∧ (start ≤ end_ ≤ length text)%nat
    ∧ e_value e = Some (take (end_ - start) (drop start text)).
Proof.
  rewrite extract_entities_shape.
  intros (j & ty & v & s & t & Hraw & ->)%elem_of_number_from Hty. simpl in Hty.
  assert (Hm : ∃ r m, m ∈ finditer U r text ∧ (ty, v, s, t) = raw_of_match ty m).
  { apply elem_of_app in Hraw as [Hraw|Hraw]; [|apply elem_of_app in Hraw as [Hraw|Hraw]].
    - apply elem_of_pattern_raws in Hraw as (p & m & _ & Hm & Heq).
      exists p.2, m. split; [done|]. rewrite Heq. by injection Heq as -> _ _ _.
    - apply elem_of_named_raws in Hraw as (m & Hm & _ & Heq).
      exists (capitalized_pattern U), m. split; [done|]. rewrite Heq.
      by injection Heq as -> _ _ _.
    - unfold key_raws in Hraw. apply list_elem_of_fmap in Hraw as (phrase & [= -> _ _ _] & _).
      done. }
  destruct Hm as (r & m & Hm & [= -> -> ->]).
  destruct (finditer_slices U (fun _ => True) r text m (chars_in_any r) Hm)
    as (Hle & Hend & Hgroup & _).
  exists (m_start m), (m_end m). simpl. split; [done|]. split; [done|].
  split; [lia|]. by rewrite <- Hgroup.
Qed.

Lemma extract_entities_slices_witness :
  let U := Unicode (fun _ => false) (fun _ => false) (fun _ => false) (fun s => s) in
  let e := ent "entity_1" "phone" "555-123-4567" 44 56 in
  e ∈ extract_entities U scenario ∧ e_type e ≠ Some (py "key_phrase")
  ∧ ∃ start end_ : nat,
      e_start e = Some (Z.of_nat start) ∧ e_end e = Some (Z.of_nat end_)
      ∧ (start ≤ end_ ≤ length scenario)%nat
      ∧ e_value e = Some (take (end_ - start) (drop start scenario)).
Proof.
  intros U e.
  assert (He : e ∈ extract_entities U scenario).
  { vm_compute. right. left. }
  assert (Hty : e_type e ≠ Some (py "key_phrase")).
  { intros H. by vm_compute in H. }
  split; [exact He|]. split; [exact Hty|].
  exact (extract_entities_slices U scenario e He Hty).
Defined.

Lemma values_of_number_from type raws :
  ∀ i, values_of type (number_from i raws)
       = (fun r : raw => Some r.1.1.2) <$> filter (fun r : raw => r.1.1.1 = py type) raws.
Proof.
  unfold values_of.
  induction raws as [|[[[ty v] s] t] raws IH]; intros i; simpl; [done|].
  rewrite !filter_cons. simpl.
  destruct (decide (ty = py type)) as [->|Hne].
  - rewrite decide_True by done. rewrite !fmap_cons. simpl. by rewrite IH.
  - rewrite decide_False by congruence. apply IH.
Qed.

Lemma filter_none {A} (P : A → Prop) `{!∀ x, Decision (P x)} (l : list A) :
  Forall (fun x => ¬ P x) l → filter P l = [].
Proof.
  induction 1 as [|x l Hx _ IH]; [done|]. by rewrite filter_cons, decide_False.
Qed.

Lemma filter_all {A} (P : A → Prop) `{!∀ x, Decision (P x)} (l : list A) :
  Forall P l → filter P l = l.
Proof.
  induction 1 as [|x l Hx _ IH]; [done|]. by rewrite filter_cons, decide_True, IH.
Qed.

Lemma pattern_types U :
  Forall (fun p : pystr * regex => p.1 ≠ py "named_entity") (patterns U).
Proof.
  unfold patterns.
  repeat (apply Forall_cons; split; [intros H; by vm_compute in H|]).
  apply Forall_nil_2.
Qed.

(** X12: the named entities of one call have pairwise distinct values, each
    longer than two characters. *)
Theorem named_entities_distinct (U : unicode) (text : pystr) :
  let values := values_of "named_entity" (extract_entities U text) in
  NoDup values
  ∧ Forall (fun value => ∃ s, value = Some s ∧ (2 < length s)%nat) values.
Proof.
  intros values. subst values.
  rewrite extract_entities_shape, values_of_number_from, !filter_app.
  rewrite (filter_none _ (pattern_raws U text)); cycle 1.
  { apply Forall_forall. intros r (p & m & Hp & _ & ->)%elem_of_pattern_raws. simpl.
    pose proof (pattern_types U) as Hty. rewrite Forall_forall in Hty. by apply Hty. }
  rewrite (filter_none _ (key_raws U text)); cycle 1.
  { apply Forall_forall. intros r (phrase & -> & _)%list_elem_of_fmap. simpl.
    intros H. by vm_compute in H. }
  rewrite (filter_all _ (named_raws U text)); cycle 1.
  { apply Forall_forall. by intros r (m & -> & _)%list_elem_of_fmap. }
  rewrite app_nil_l, app_nil_r. unfold named_raws. rewrite <- list_fmap_compose.
  destruct (keep_new_spec (finditer U (capitalized_pattern U) text) ∅) as (_ & Hnd & Hall).
  split.
  - change (NoDup ((Some ∘ m_group) <$> keep_new ∅ (finditer U (capitalized_pattern U) text))).
    rewrite list_fmap_compose. apply NoDup_fmap_2; [|done]. by intros ?? [=].
  - apply Forall_fmap. eapply Forall_impl; [exact Hall|].
    intros m [_ Hlen]. simpl. by eexists.
Qed.

(** ** Key phrases *)

Lemma occurrences_snoc word words w :
  occurrences word (words ++ [w])
  = (occurrences word words + if decide (w = word) then 1 else 0)%nat.
Proof.
  unfold occurrences. rewrite filter_app, length_app, filter_cons, filter_nil.
  by destruct (decide (w = word)).
Qed.

Lemma occurrences_none word words : word ∉ words → occurrences word words = 0%nat.
Proof.
  intros Hout. unfold occurrences. rewrite filter_none; [done|].
  apply Forall_forall. by intros w Hw ->.
Qed.

Lemma count_word_keys word word_freq :
  (count_word word word_freq).*1
  = if decide (word ∈ word_freq.*1) then word_freq.*1 else word_freq.*1 ++ [word].
Proof.
  induction word_freq as [|[w n] others IH].
  - done.
  - cbn [count_word fmap list_fmap fst].
    destruct (decide (w = word)) as [->|Hne]; cbn [fmap list_fmap fst].
    + rewrite decide_True; [done|by left].
    + rewrite IH. destruct (decide (word ∈ others.*1)) as [Hin|Hout].
      * rewrite decide_True; [done|by right].
      * rewrite decide_False; [done|]. by intros [?|?]%elem_of_cons.
Qed.

Lemma elem_of_count_word word word_freq w n :
  NoDup word_freq.*1 →
  (w, n) ∈ count_word word word_freq →
  (w ≠ word ∧ (w, n) ∈ word_freq)
  ∨ (w = word ∧ ((∃ n0, (word, n0) ∈ word_freq ∧ n = S n0)
                 ∨ ((word ∉ word_freq.*1) ∧ n = 1%nat))).
Proof.
  induction word_freq as [|[w0 n0] others IH]; simpl; intros Hnd Hin.
  - apply list_elem_of_singleton in Hin as [= -> ->]. right. split; [done|]. right.
    split; [apply not_elem_of_nil|done].
  - apply NoDup_cons in Hnd as [Hout Hnd].
    destruct (decide (w0 = word)) as [->|Hne].
    + apply elem_of_cons in Hin as [[= -> ->]|Hin].
      * right. split; [done|]. left. exists n0. split; [by left|done].
      * left. split; [|by right]. intros ->. apply Hout.
        by apply (list_elem_of_fmap_2 fst _ (word, n)).
    + apply elem_of_cons in Hin as [[= -> ->]|Hin].
      * left. split; [done|by left].
      * destruct (IH Hnd Hin) as [[Hw Hin']|[-> [(n1 & Hin' & ->)|[Hout' ->]]]].
        -- left. split; [done|by right].
        -- right. split; [done|]. left. exists n1. split; [by right|done].
        -- right. split; [done|]. right. split; [|done].
           by intros [?|?]%elem_of_cons.
Qed.

(** What the counting loop has established after the words [seen]. *)
Lemma word_freq_inv words :
  ∀ seen word_freq,
    word_freq_ok seen word_freq →
    word_freq_ok (seen ++ words)
      (foldl (fun word_freq word =>
                if decide (word ∈ _get_stop_words) then word_freq
                else count_word word word_freq) word_freq words).
Proof.
  induction words as [|x words IH]; intros seen word_freq I.
  - simpl. by rewrite app_nil_r.
  - rewrite cons_middle, app_assoc. cbn [foldl]. apply IH.
    destruct I as [Hnd Hcount Hall].
    destruct (decide (x ∈ _get_stop_words)) as [Hstop|Hgo].
    + split; [done| |].
      * intros w n Hin. destruct (Hcount w n Hin) as (-> & Hw & Hseen).
        split; [|split; [done|apply elem_of_app; by left]].
        rewrite occurrences_snoc. rewrite decide_False; [lia|].
        intros Heq. apply Hw. rewrite <- Heq. exact Hstop.
      * intros w [Hw|Hw]%elem_of_app Hns; [apply Hall; assumption|].
        apply list_elem_of_singleton in Hw. exfalso. apply Hns. rewrite Hw. exact Hstop.
    + split.
      * rewrite count_word_keys. destruct (decide (x ∈ word_freq.*1)); [done|].
        apply NoDup_app. split; [done|]. split; [|apply NoDup_singleton].
        by intros w Hw ->%list_elem_of_singleton.
      * intros w n Hin. rewrite occurrences_snoc.
        destruct (elem_of_count_word x word_freq w n Hnd Hin)
          as [[Hw Hin']|[-> [(n0 & Hin' & ->)|[Hout ->]]]].
        -- destruct (Hcount w n Hin') as (-> & Hns & Hseen).
           rewrite decide_False by done.
           split; [lia|]. split; [done|apply elem_of_app; by left].
        -- destruct (Hcount x n0 Hin') as (-> & Hns & Hseen).
           rewrite decide_True by done.
           split; [lia|]. split; [done|apply elem_of_app; by left].
        -- rewrite decide_True by done. rewrite occurrences_none.
           ++ split; [done|]. split; [done|]. apply elem_of_app. right. by left.
           ++ intros Hseen. by apply Hout, Hall.
      * intros w Hw Hns. rewrite count_word_keys.
        apply elem_of_app in Hw as [Hw| ->%list_elem_of_singleton].
        -- destruct (decide (x ∈ word_freq.*1)); [by apply Hall|].
           apply elem_of_app. left. by apply Hall.
        -- destruct (decide (x ∈ word_freq.*1)); [done|].
           apply elem_of_app. right. by left.
Qed.

Lemma insert_by_freq_perm x sorted : insert_by_freq x sorted ≡ₚ x :: sorted.
Proof.
  induction sorted as [|y others IH]; simpl; [done|].
  destruct (x.2 <? y.2)%nat; [|done]. by rewrite IH, perm_swap.
Qed.

Lemma sorted_by_freq_perm items : sorted_by_freq items ≡ₚ items.
Proof.
  induction items as [|x items IH]; simpl; [done|].
  by rewrite insert_by_freq_perm, IH.
Qed.

Lemma insert_by_freq_sorted x sorted :
  StronglySorted by_freq sorted → StronglySorted by_freq (insert_by_freq x sorted).
Proof.
  induction 1 as [|y others Hs IH Hy]; simpl.
  - repeat constructor.
  - destruct (x.2 <? y.2)%nat eqn:Hlt.
    + apply Nat.ltb_lt in Hlt. constructor; [done|].
      rewrite insert_by_freq_perm. constructor; [unfold by_freq; lia|done].
    + apply Nat.ltb_ge in Hlt. constructor; [by constructor|].
      constructor; [done|]. eapply Forall_impl; [exact Hy|].
      unfold by_freq. intros z Hz. lia.
Qed.

Lemma sorted_by_freq_sorted items : StronglySorted by_freq (sorted_by_freq items).
Proof.
  induction items as [|x items IH]; simpl; [constructor|].
  by apply insert_by_freq_sorted.
Qed.

Lemma word_pattern_chars :
  chars_in (fun c => (97 ≤ c ≤ 122)%N) word_pattern.
Proof.
  unfold word_pattern. simpl. split; [done|]. split; [|done].
  intros c Hc. unfold lowercase, in_range in Hc. simpl in Hc.
  apply andb_true_iff in Hc as [H1 H2].
  apply N.leb_le in H1, H2. lia.
Qed.

Lemma sorted_words_ok U text :
  word_freq_ok (found_words U text) (sorted_words U text)
  ∧ StronglySorted by_freq (sorted_words U text).
Proof.
  split; [|apply sorted_by_freq_sorted].
  pose proof (word_freq_inv (found_words U text) [] []) as I. rewrite app_nil_l in I.
  destruct I as [Hnd Hcount Hall].
  { split; [constructor| |]; intros ? *; by intros ?%elem_of_nil. }
  unfold sorted_words. split.
  - by rewrite sorted_by_freq_perm.
  - intros w n Hin. apply Hcount. by rewrite <- (sorted_by_freq_perm _).
  - intros w Hw Hns. rewrite sorted_by_freq_perm. by apply Hall.
Qed.

Lemma key_phrases_eq U text max_phrases :
  _extract_key_phrases U text max_phrases = (take max_phrases (sorted_words U text)).*1.
Proof. done. Qed.

(** X13: [_extract_key_phrases] returns at most [max_phrases] phrases, no
    phrase twice; each is a word found in the lower-cased text, of four or
    more letters [a] to [z], that is not a stop word. *)
Theorem key_phrases_are_words (U : unicode) (text : pystr) (max_phrases : nat) :
  let phrases := _extract_key_phrases U text max_phrases in
  (length phrases ≤ max_phrases)%nat
  ∧ NoDup phrases
  ∧ Forall (fun phrase =>
              phrase ∈ findall U word_pattern (lower U text)
              ∧ (phrase ∉ _get_stop_words)
              ∧ (4 ≤ length phrase)%nat
              ∧ Forall (fun c => (97 ≤ c ≤ 122)%N) phrase) phrases.
Proof.
  intros phrases. subst phrases. rewrite key_phrases_eq.
  destruct (sorted_words_ok U text) as [[Hnd Hcount _] _].
  split; [|split].
  - rewrite length_fmap, length_take. lia.
  - eapply sublist_NoDup; [exact Hnd|]. apply fmap_sublist, sublist_take.
  - apply Forall_fmap, Forall_forall. intros [w n] Hin. simpl.
    assert (Hin' : (w, n) ∈ sorted_words U text).
    { eapply elem_of_sublist; [exact Hin|apply sublist_take]. }
    destruct (Hcount w n Hin') as (_ & Hns & Hw).
    split; [done|]. split; [done|].
    apply list_elem_of_fmap in Hw as (m & -> & Hm).
    destruct (finditer_slices U _ _ _ m word_pattern_chars Hm) as (_ & _ & _ & Hchars & Hlen).
    split; [exact Hlen|done].
Qed.

(** X14: the key phrases come in order of falling number of occurrences among
    the words of the text, and a word that is no stop word and is left out
    occurs no more often than any phrase returned. *)
Theorem key_phrases_most_frequent (U : unicode) (text : pystr) (max_phrases : nat) :
  let words := findall U word_pattern (lower U text) in
  let phrases := _extract_key_phrases U text max_phrases in
  StronglySorted (fun p q => (occurrences q words ≤ occurrences p words)%nat) phrases
  ∧ ∀ word phrase,
      word ∈ words → word ∉ _get_stop_words → word ∉ phrases → phrase ∈ phrases →
      (occurrences word words ≤ occurrences phrase words)%nat.
Proof.
  intros words phrases. subst words phrases. rewrite key_phrases_eq.
  destruct (sorted_words_ok U text) as [[Hnd Hcount Hall] Hsorted].
  change (findall U word_pattern (lower U text)) with (found_words U text).
  set (words := found_words U text) in *.
  set (sorted := sorted_words U text) in *.
  rewrite <- (take_drop max_phrases sorted) in Hsorted.
  assert (Hocc : ∀ x, x ∈ sorted → x.2 = occurrences x.1 words).
  { intros [w n] Hin. by destruct (Hcount w n Hin) as (-> & _). }
  split.
  - apply StronglySorted_app_1_l in Hsorted.
    assert (Htake : ∀ x, x ∈ take max_phrases sorted → x ∈ sorted).
    { intros x Hx. eapply elem_of_sublist; [exact Hx|apply sublist_take]. }
    revert Hsorted Htake. generalize (take max_phrases sorted).
    induction 1 as [|x l Hs IH Hx]; intros Htake; simpl; constructor.
    + apply IH. intros y Hy. apply Htake. by right.
    + apply Forall_fmap, Forall_forall. intros y Hy. simpl.
      rewrite Forall_forall in Hx. specialize (Hx y Hy). unfold by_freq in Hx.
      rewrite <- (Hocc x), <- (Hocc y); [done|apply Htake; by right|apply Htake; by left].
  - intros word phrase Hword Hns Hout Hphrase.
    apply list_elem_of_fmap in Hphrase as ([p n] & -> & Hp).
    apply Hall in Hword; [|done].
    apply list_elem_of_fmap in Hword as ([w c] & -> & Hw). simpl in *.
    rewrite <- (take_drop max_phrases sorted) in Hw.
    apply elem_of_app in Hw as [Hw|Hw].
    { exfalso. apply Hout. by apply (list_elem_of_fmap_2 fst _ (w, c)). }
    pose proof (StronglySorted_app_1_elem_of _ _ _ _ _ Hsorted Hp Hw) as Hle.
    unfold by_freq in Hle. simpl in Hle.
    assert (Hc : (w, c).2 = occurrences (w, c).1 words).
    { apply Hocc. eapply elem_of_sublist; [exact Hw|apply sublist_drop]. }
    assert (Hn : (p, n).2 = occurrences (p, n).1 words).
    { apply Hocc. eapply elem_of_sublist; [exact Hp|apply sublist_take]. }
    simpl in Hc, Hn. lia.
Qed.

Lemma key_phrases_most_frequent_witness :
  let U := Unicode (fun _ => false) (fun _ => false) (fun _ => false) (fun s => s) in
  let words := findall U word_pattern (lower U scenario) in
  let phrases := _extract_key_phrases U scenario 2 in
  phrases = [py "alice"; py "contact"]
  ∧ (occurrences (py "smith") words ≤ occurrences (py "alice") words)%nat.
Proof.
  intros U words phrases. split; [by vm_compute|].
  apply (proj2 (key_phrases_most_frequent U scenario 2)).
  - vm_compute. do 2 right. left.
  - apply (bool_decide_unpack _). by vm_compute.
  - apply (bool_decide_unpack _). by vm_compute.
  - vm_compute. left.
Defined.

(** ** Relationships *)

Lemma relate_later_spec entity1 later :
  ∀ relationships,
    match relate_later entity1 later relationships with
    | inr result =>
        ∃ new, result = relationships ++ new
          ∧ (∀ r, r ∈ new ↔
               ∃ entity2 id1 id2, entity2 ∈ later ∧ close entity1 entity2 = true
                 ∧ e_id entity1 = Some id1 ∧ e_id entity2 = Some id2
                 ∧ r = co_occurs id1 id2)
          ∧ ∀ entity2, entity2 ∈ later → close entity1 entity2 = true →
              is_Some (e_id entity1) ∧ is_Some (e_id entity2)
    | inl e =>
        e = KeyError (py "id")
        ∧ ∃ entity2, entity2 ∈ later ∧ close entity1 entity2 = true
            ∧ (e_id entity1 = None ∨ e_id entity2 = None)
    end.
Proof.
  induction later as [|entity2 later IH]; intros relationships; cbn [relate_later].
  - exists []. split; [by rewrite app_nil_r|]. split.
    + intros r. split; [by intros ?%elem_of_nil|].
      by intros (? & ? & ? & ?%elem_of_nil & _).
    + by intros ? ?%elem_of_nil.
  - fold (close entity1 entity2). destruct (close entity1 entity2) eqn:Hclose.
    + destruct (e_id entity1) as [id1|] eqn:Hid1; cycle 1.
      { split; [done|]. exists entity2. split; [by left|]. split; [done|by left]. }
      destruct (e_id entity2) as [id2|] eqn:Hid2; cycle 1.
      { split; [done|]. exists entity2. split; [by left|]. split; [done|by right]. }
      specialize (IH (relationships ++ [Relationship id1 id2 (py "co_occurs") 1])).
      destruct (relate_later entity1 later _) as [e|result].
      * destruct IH as (-> & e2 & He2 & Hc & Hnone).
        split; [done|]. exists e2. split; [by right|done].
      * destruct IH as (new & -> & Hnew & Hids).
        exists (co_occurs id1 id2 :: new). split; [by rewrite <- app_assoc|]. split.
        -- intros r. rewrite elem_of_cons, Hnew. split.
           ++ intros [->|(e2 & i1 & i2 & He2 & Hc & Hi1 & Hi2 & ->)].
              ** exists entity2, id1, id2. split; [by left|done].
              ** exists e2, i1, i2. split; [by right|done].
           ++ intros (e2 & i1 & i2 & [->|He2]%elem_of_cons & Hc & Hi1 & Hi2 & ->).
              ** left. congruence.
              ** right. by exists e2, i1, i2.
        -- intros e2 [->|He2]%elem_of_cons Hc; [by rewrite Hid2|by apply Hids].
    + specialize (IH relationships).
      destruct (relate_later entity1 later relationships) as [e|result].
      * destruct IH as (-> & e2 & He2 & Hc & Hnone).
        split; [done|]. exists e2. split; [by right|done].
      * destruct IH as (new & -> & Hnew & Hids).
        exists new. split; [done|]. split.
        -- intros r. rewrite Hnew. split.
           ++ intros (e2 & i1 & i2 & He2 & Hrest). exists e2, i1, i2. split; [by right|done].
           ++ intros (e2 & i1 & i2 & [->|He2]%elem_of_cons & Hc & Hrest); [congruence|].
              by exists e2, i1, i2.
        -- intros e2 [->|He2]%elem_of_cons Hc; [congruence|by apply Hids].
Qed.

Lemma pair_sublist_cons {A} (x y z : A) (l : list A) :
  [x; y] `sublist_of` z :: l ↔ (x = z ∧ y ∈ l) ∨ [x; y] `sublist_of` l.
Proof.
  rewrite sublist_cons_r. split.
  - intros [?|(l' & [= -> <-] & Hsub)]; [by right|].
    left. split; [done|]. by apply singleton_sublist_l.
  - intros [[-> Hy]|?]; [|by left]. right. exists [y]. split; [done|].
    by apply singleton_sublist_l.
Qed.

Lemma relate_all_spec entities :
  ∀ relationships,
    match relate_all entities relationships with
    | inr result =>
        ∃ new, result = relationships ++ new
          ∧ (∀ r, r ∈ new ↔ of_close_pair entities r)
          ∧ ¬ close_pair_without_id entities
    | inl e => e = KeyError (py "id") ∧ close_pair_without_id entities
    end.
Proof.
  induction entities as [|entity1 later IH]; intros relationships; cbn [relate_all].
  - exists []. split; [by rewrite app_nil_r|]. split.
    + intros r. split; [by intros ?%elem_of_nil|].
      by intros (? & ? & ? & ? & ?%sublist_nil_r & _).
    + by intros (? & ? & ?%sublist_nil_r & _).
  - pose proof (relate_later_spec entity1 later relationships) as Hlater.
    destruct (relate_later entity1 later relationships) as [e|result].
    { destruct Hlater as (-> & e2 & He2 & Hc & Hnone). split; [done|].
      exists entity1, e2. split; [|done]. apply pair_sublist_cons. by left. }
    destruct Hlater as (new1 & -> & Hnew1 & Hids1).
    specialize (IH (relationships ++ new1)).
    destruct (relate_all later (relationships ++ new1)) as [e|result].
    { destruct IH as (-> & e1 & e2 & Hsub & Hrest). split; [done|].
      exists e1, e2. split; [|done]. apply pair_sublist_cons. by right. }
    destruct IH as (new2 & -> & Hnew2 & Hids2).
    exists (new1 ++ new2). split; [by rewrite app_assoc|]. split.
    + intros r. rewrite elem_of_app, Hnew1, Hnew2. unfold of_close_pair. split.
      * intros [(e2 & i1 & i2 & He2 & Hrest)|(e1 & e2 & i1 & i2 & Hsub & Hrest)].
        -- exists entity1, e2, i1, i2. split; [|done]. apply pair_sublist_cons. by left.
        -- exists e1, e2, i1, i2. split; [|done]. apply pair_sublist_cons. by right.
      * intros (e1 & e2 & i1 & i2 & [[-> He2]|Hsub]%pair_sublist_cons & Hrest).
        -- left. by exists e2, i1, i2.
        -- right. by exists e1, e2, i1, i2.
    + intros (e1 & e2 & [[-> He2]|Hsub]%pair_sublist_cons & Hc & Hnone).
      * destruct (Hids1 e2 He2 Hc) as [[? H1] [? H2]]. destruct Hnone; congruence.
      * apply Hids2. by exists e1, e2.
Qed.

(** X15: [extract_relationships] raises [KeyError('id')] exactly when two
    entities that are close, one before the other in the list, include one
    without an id; otherwise it returns the relationships of the close
    pairs, and only those. *)
Theorem extract_relationships_close_pairs (entities : list entity) (text : pystr) :
  match extract_relationships entities text with
  | inl e => e = KeyError (py "id") ∧ close_pair_without_id entities
  | inr relationships =>
      ¬ close_pair_without_id entities
      ∧ ∀ r, r ∈ relationships ↔ of_close_pair entities r
  end.
Proof.
  unfold extract_relationships.
  pose proof (relate_all_spec entities []) as Hall.
  destruct (relate_all entities []) as [e|result]; [done|].
  destruct Hall as (new & -> & Hnew & Hids). by rewrite app_nil_l.
Qed.

Lemma extract_relationships_close_pairs_witness :
  let entities := [ent "a" "email" "x" 0 1; ent "b" "phone" "y" 40 41;
                   ent "c" "date" "z" 150 151] in
  extract_relationships entities [] = inr [co_occurs (py "a") (py "b")]
  ∧ extract_relationships (GraphBuilder.without_id "v" "t" :: entities) []
    = inl (KeyError (py "id"))
  ∧ ∀ r, r ∈ [co_occurs (py "a") (py "b")] → of_close_pair entities r.
Proof.
  intros entities. split; [done|]. split; [done|].
  pose proof (extract_relationships_close_pairs entities []) as H.
  change (extract_relationships entities []) with
    (@inr key_error _ [co_occurs (py "a") (py "b")]) in H.
  intros r Hr. by apply (proj2 H).
Defined.

(** X16: on the entities one call of [extract_entities] returns,
    [extract_relationships] raises nothing, relates no entity to itself, and
    relates every two key phrases. *)
Theorem extract_relationships_of_extracted (U : unicode) (text : pystr) :
  ∃ relationships,
    extract_relationships (extract_entities U text) text = inr relationships
    ∧ Forall (fun r => rel_source r ≠ rel_target r) relationships
    ∧ ∀ entity1 entity2 id1 id2,
        [entity1; entity2] `sublist_of` extract_entities U text →
        e_type entity1 = Some (py "key_phrase") →
        e_type entity2 = Some (py "key_phrase") →
        e_id entity1 = Some id1 → e_id entity2 = Some id2 →
        co_occurs id1 id2 ∈ relationships.
Proof.
  destruct (extracted_ids U text) as (_ & Hnd & Hfields).
  pose proof (relate_all_spec (extract_entities U text) []) as Hrel.
  unfold extract_relationships.
  destruct (relate_all (extract_entities U text) []) as [e|relationships].
  { destruct Hrel as (_ & e1 & e2 & Hsub & _ & Hnone). exfalso.
    rewrite extract_entities_shape in Hsub.
    assert (H1 : e1 ∈ number_from 0 (pattern_raws U text ++ named_raws U text ++ key_raws U text))
      by (eapply elem_of_sublist; [|exact Hsub]; by left).
    assert (H2 : e2 ∈ number_from 0 (pattern_raws U text ++ named_raws U text ++ key_raws U text))
      by (eapply elem_of_sublist; [|exact Hsub]; right; by left).
    apply elem_of_number_from in H1 as (? & ? & ? & ? & ? & _ & ->).
    apply elem_of_number_from in H2 as (? & ? & ? & ? & ? & _ & ->).
    by destruct Hnone. }
  destruct Hrel as (new & Hnew & Hrel & _). rewrite app_nil_l in Hnew. subst new.
  exists relationships. split; [done|]. split.
  - apply Forall_forall. intros r (e1 & e2 & id1 & id2 & Hsub & _ & Hid1 & Hid2 & ->)%Hrel.
    simpl. intros <-.
    apply (fmap_sublist e_id) in Hsub. rewrite !fmap_cons, Hid1, Hid2 in Hsub.
    apply (sublist_NoDup _ _ Hnd) in Hsub.
    apply NoDup_cons in Hsub as [Hout _]. apply Hout. by left.
  - intros e1 e2 id1 id2 Hsub Hty1 Hty2 Hid1 Hid2. apply Hrel.
    exists e1, e2, id1, id2. split; [done|]. split; [|done].
    pose proof (EntityExtractorSpec.extract_entities_ok U text) as Hok.
    rewrite Forall_forall in Hok.
    assert (Hstart : ∀ e, e ∈ extract_entities U text →
                          e_type e = Some (py "key_phrase") → e_start e = Some (-1)).
    { intros e He Hty. destruct (Hok e He) as (s & t & Hs & _ & [[Hne _]|(_ & -> & _)]);
        [done|exact Hs]. }
    unfold close. rewrite (Hstart e1), (Hstart e2); [done| | | |]; try done.
    + eapply elem_of_sublist; [|exact Hsub]. right. by left.
    + eapply elem_of_sublist; [|exact Hsub]. by left.
Qed.

Lemma extract_relationships_of_extracted_witness :
  let U := Unicode (fun _ => false) (fun _ => false) (fun _ => false) (fun s => s) in
  ∃ relationships,
    extract_relationships (extract_entities U scenario) scenario = inr relationships
    ∧ co_occurs (py "entity_5") (py "entity_8") ∈ relationships.
Proof.
  intros U.
  destruct (extract_relationships_of_extracted U scenario) as (relationships & Hrun & _ & Hkey).
  exists relationships. split; [exact Hrun|].
  apply (Hkey (ent "entity_5" "key_phrase" "alice" (-1) (-1))
              (ent "entity_8" "key_phrase" "example" (-1) (-1))
              (py "entity_5") (py "entity_8")); [|reflexivity..].
  rewrite EntityExtractorSpec.extract_scenario.
  do 5 apply sublist_cons. apply sublist_skip. do 2 apply sublist_cons.
  apply sublist_skip, sublist_nil_l.
Defined.

End EntityExtractorMore.


(** * Further properties of the investigative agent *)
Module AgentMore.
Import Agent.

Lemma bind_inr {A B} (m : M A) (f : A → M B) w x w' :
  m w = (inr x, w') → (m ≫= f) w = f x w'.
Proof. intros Hm. unfold mbind, M_bind. by rewrite Hm. Qed.

Lemma bind_inl {A B} (m : M A) (f : A → M B) w e w' :
  m w = (inl e, w') → (m ≫= f) w = (inl e, w').
Proof. intros Hm. unfold mbind, M_bind. by rewrite Hm. Qed.

Lemma slice_to_raise n v w :
  is_str v = false →
  slice_to n v w
  = (inl (TypeError (py "'" ++ type_name v ++ py "' object is not subscriptable")), w).
Proof. by destruct v. Qed.

Lemma len_raise v w :
  is_str v = false →
  len v w = (inl (TypeError (py "object of type '" ++ type_name v ++ py "' has no len()")), w).
Proof. by destruct v. Qed.

Section Steps.
Context (now : nat → Z) (isoformat : Z → pystr) (self : InvestigativeAgent).

Lemma logged_nil w : logged now isoformat self [] w = w.
Proof.
  destruct w as [h t]. unfold logged. simpl. f_equal; [|lia].
  apply map_eq. intros l. destruct (decide (l = execution_log self)) as [->|Hne].
  - rewrite lookup_alter_eq. destruct (h !! execution_log self); simpl; [|done].
    by rewrite app_nil_r.
  - by rewrite lookup_alter_ne.
Qed.

Lemma logged_app msgs1 msgs2 w :
  logged now isoformat self msgs2 (logged now isoformat self msgs1 w)
  = logged now isoformat self (msgs1 ++ msgs2) w.
Proof.
  unfold logged. simpl. f_equal; [|rewrite length_app; lia].
  apply map_eq. intros l. destruct (decide (l = execution_log self)) as [->|Hne].
  - rewrite !lookup_alter_eq. destruct (heap w !! execution_log self); simpl; [|done].
    f_equal. rewrite <- app_assoc. f_equal. unfold entries. rewrite imap_app. f_equal.
    apply imap_ext. intros k msg _. simpl. do 3 f_equal. lia.
  - by rewrite !lookup_alter_ne.
Qed.

Lemma log_step_run message w :
  _log_step now isoformat self message w = (inr (), logged now isoformat self [message] w).
Proof.
  unfold _log_step, mbind, M_bind, datetime_now, list_append, logged, entries. simpl.
  do 2 f_equal; [|lia]. by rewrite Nat.add_0_r.
Qed.

(** A loop whose body logs one step and fails nowhere. *)
Lemma model_loop_run (body : pystr → M pystr) (step result : pystr → pystr) models :
  (∀ model w,
     body model w = (inr (result model), logged now isoformat self [step model] w)) →
  ∀ w,
    mapM body models w
    = (inr (result <$> models), logged now isoformat self (step <$> models) w).
Proof.
  intros Hbody. induction models as [|model models IH]; intros w.
  - simpl. by rewrite logged_nil.
  - cbn [mapM]. erewrite bind_inr; [|apply Hbody].
    erewrite bind_inr; [|apply IH].
    rewrite logged_app. reflexivity.
Qed.

Lemma research_run task parameters w :
  _research_agent now isoformat self task parameters w
  = (inr (join (nl ++ nl)
            ((fun model => py "[" ++ model ++ py "] Research on: " ++ task) <$> models self)),
     logged now isoformat self (research_steps (models self)) w).
Proof.
  unfold _research_agent, research_steps.
  erewrite bind_inr; [|apply log_step_run].
  erewrite bind_inr; cycle 1.
  { apply (model_loop_run _ (fun model => py "Querying model: " ++ model)
             (fun model => py "[" ++ model ++ py "] Research on: " ++ task)).
    intros model w'. by erewrite bind_inr; [|apply log_step_run]. }
  erewrite bind_inr; [|apply log_step_run].
  rewrite !logged_app. reflexivity.
Qed.

Lemma analysis_run_str task parameters data w :
  parameter parameters "data" = PStr data →
  _analysis_agent now isoformat self task parameters w
  = (inr (join (nl ++ nl)
            ((fun model => py "[" ++ model ++ py "] Analysis of: " ++ task ++ nl ++
                           py "Data: " ++ take 100 data ++ py "...") <$> models self)),
     logged now isoformat self
       (py "Starting analysis agent"
        :: ((fun model => py "Analyzing with model: " ++ model) <$> models self)
        ++ [py "Analysis completed"]) w).
Proof.
  intros Hdata. unfold _analysis_agent. fold (parameter parameters "data"). rewrite Hdata.
  erewrite bind_inr; [|apply log_step_run].
  erewrite bind_inr; cycle 1.
  { apply (model_loop_run _ (fun model => py "Analyzing with model: " ++ model)
             (fun model => py "[" ++ model ++ py "] Analysis of: " ++ task ++ nl ++
                           py "Data: " ++ take 100 data ++ py "...")).
    intros model w'. by erewrite bind_inr; [|apply log_step_run]. }
  erewrite bind_inr; [|apply log_step_run].
  rewrite !logged_app. reflexivity.
Qed.

Lemma analysis_run_no_models task parameters w :
  models self = [] →
  _analysis_agent now isoformat self task parameters w
  = (inr [], logged now isoformat self
               [py "Starting analysis agent"; py "Analysis completed"] w).
Proof.
  intros Hmodels. unfold _analysis_agent. rewrite Hmodels.
  erewrite bind_inr; [|apply log_step_run].
  erewrite bind_inr; [|reflexivity].
  erewrite bind_inr; [|apply log_step_run].
  rewrite !logged_app. reflexivity.
Qed.

Lemma analysis_run_raise task parameters model later w :
  models self = model :: later → is_str (parameter parameters "data") = false →
  _analysis_agent now isoformat self task parameters w
  = (inl (TypeError (py "'" ++ type_name (parameter parameters "data")
                     ++ py "' object is not subscriptable")),
     logged now isoformat self
       [py "Starting analysis agent"; py "Analyzing with model: " ++ model] w).
Proof.
  intros Hmodels Hdata. unfold _analysis_agent. fold (parameter parameters "data").
  rewrite Hmodels.
  erewrite bind_inr; [|apply log_step_run].
  erewrite bind_inl; cycle 1.
  { cbn [mapM]. erewrite bind_inl; [reflexivity|].
    erewrite bind_inr; [|apply log_step_run].
    apply bind_inl, slice_to_raise, Hdata. }
  rewrite !logged_app. reflexivity.
Qed.

Lemma summary_run_str task parameters content w :
  parameter parameters "content" = PStr content →
  _summary_agent now isoformat self task parameters w
  = (let model := match models self with m :: _ => m | [] => py "default" end in
     (inr (py "[" ++ model ++ py "] Summary of: " ++ task ++ nl ++
           py "Content length: " ++ py (pretty (length content)) ++ py " characters"),
      logged now isoformat self
        [py "Starting summary agent"; py "Generating summary with model: " ++ model;
         py "Summary completed"] w)).
Proof.
  intros Hcontent. unfold _summary_agent. fold (parameter parameters "content").
  rewrite Hcontent.
  erewrite bind_inr; [|apply log_step_run].
  erewrite bind_inr; [|apply log_step_run].
  erewrite bind_inr; [|reflexivity].
  erewrite bind_inr; [|apply log_step_run].
  rewrite !logged_app. reflexivity.
Qed.

Lemma summary_run_raise task parameters w :
  is_str (parameter parameters "content") = false →
  _summary_agent now isoformat self task parameters w
  = (let model := match models self with m :: _ => m | [] => py "default" end in
     (inl (TypeError (py "object of type '" ++ type_name (parameter parameters "content")
                      ++ py "' has no len()")),
      logged now isoformat self
        [py "Starting summary agent"; py "Generating summary with model: " ++ model] w)).
Proof.
  intros Hcontent. unfold _summary_agent. fold (parameter parameters "content").
  erewrite bind_inr; [|apply log_step_run].
  erewrite bind_inr; [|apply log_step_run].
  erewrite bind_inl; cycle 1.
  { apply len_raise, Hcontent. }
  rewrite !logged_app. reflexivity.
Qed.

Lemma investigation_run task parameters w :
  ∃ report,
    _investigation_agent now isoformat self task parameters w
    = (inr report,
       logged now isoformat self
         [py "Starting investigation agent"; py "Step 1: Information gathering";
          py "Step 2: Analysis"; py "Step 3: Cross-referencing";
          py "Step 4: Report generation"; py "Investigation completed"] w).
Proof.
  eexists. unfold _investigation_agent.
  do 6 (erewrite bind_inr; [|apply log_step_run]).
  rewrite !logged_app. reflexivity.
Qed.

(** Every procedure only appends steps to the log of its agent; it raises
    exactly under the conditions [raises]. *)
Lemma variant_run task parameters w :
  ∃ outcome msgs,
    variant now isoformat self task parameters w
    = (outcome, logged now isoformat self msgs w)
    ∧ ((∃ e, outcome = inl e) ↔ raises self parameters).
Proof.
  unfold variant, raises.
  destruct (decide (agent_type self = py "research")) as [Hty|Hne1].
  { eexists _, _. split; [apply research_run|]. rewrite Hty. split.
    - by intros [e ?].
    - intros [(H & _)|(H & _)]; by vm_compute in H. }
  destruct (decide (agent_type self = py "analysis")) as [Hty|Hne2].
  { destruct (models self) as [|model later] eqn:Hmodels.
    - eexists _, _. split; [by apply analysis_run_no_models|]. rewrite Hty. split.
      + by intros [e ?].
      + intros [(_ & H & _)|(H & _)]; [done|by vm_compute in H].
    - destruct (parameter parameters "data") as [| |data] eqn:Hdata.
      + eexists _, _. split; [eapply analysis_run_raise; [done|by rewrite Hdata]|].
        split; [|by eexists]. intros _. left. by rewrite Hty.
      + eexists _, _. split; [eapply analysis_run_raise; [done|by rewrite Hdata]|].
        split; [|by eexists]. intros _. left. by rewrite Hty.
      + eexists _, _. split; [by eapply analysis_run_str|]. rewrite Hty. split.
        * by intros [e ?].
        * intros [(_ & _ & H)|(H & _)]; [done|by vm_compute in H]. }
  destruct (decide (agent_type self = py "summary")) as [Hty|Hne3].
  { destruct (parameter parameters "content") as [| |content] eqn:Hcontent.
    - eexists _, _. split; [eapply summary_run_raise; by rewrite Hcontent|].
      split; [|by eexists]. intros _. right. by rewrite Hty.
    - eexists _, _. split; [eapply summary_run_raise; by rewrite Hcontent|].
      split; [|by eexists]. intros _. right. by rewrite Hty.
    - eexists _, _. split; [by eapply summary_run_str|]. rewrite Hty. split.
      + by intros [e ?].
      + intros [(H & _)|(_ & H)]; [by vm_compute in H|done]. }
  destruct (decide (agent_type self = py "investigation")) as [Hty|Hne4].
  { destruct (investigation_run task parameters w) as (report & Hrun).
    eexists _, _. split; [exact Hrun|]. split.
    - by intros [e ?].
    - by intros [(H & _)|(H & _)]. }
  exists (inr (py "Unknown agent type: " ++ agent_type self)), [].
  split; [by rewrite logged_nil|]. split.
  - by intros [e ?].
  - by intros [(H & _)|(H & _)].
Qed.

End Steps.

Import AgentSpec.

Section Envelope.
Context (now : nat → Z) (isoformat : Z → pystr).

(** [execute] by the outcome of the procedure, with the steps it logs. *)
Lemma execute_run self task parameters w :
  ∃ outcome msgs r,
    variant now isoformat self task parameters (started w)
    = (outcome, logged now isoformat self msgs (started w))
    ∧ ((∃ e, outcome = inl e) ↔ raises self parameters)
    ∧ execute now isoformat self task parameters w
      = (inr r, started (logged now isoformat self msgs (started w)))
    ∧ r = set_end (isoformat (now (S (ticks w) + length msgs)%nat))
                  (now (S (ticks w) + length msgs)%nat - now (ticks w))
                  (match outcome with
                   | inr output =>
                       set_output output (execution_log self)
                         (initial_record self task (isoformat (now (ticks w))))
                   | inl e =>
                       set_failed (str e)
                         (initial_record self task (isoformat (now (ticks w))))
                   end).
Proof.
  destruct (variant_run now isoformat self task parameters (started w))
    as (outcome & msgs & Hrun & Hraise).
  exists outcome, msgs. eexists. split; [exact Hrun|]. split; [exact Hraise|].
  split; [|reflexivity].
  rewrite execute_outcome. cbn zeta. rewrite Hrun.
  destruct outcome as [e|output]; simpl; do 3 f_equal; lia.
Qed.

Lemma heap_logged self msgs w :
  heap (started (logged now isoformat self msgs (started w)))
  = alter (fun log => log ++ entries now isoformat (S (ticks w)) msgs)
          (execution_log self) (heap w).
Proof. done. Qed.

Lemma ticks_logged self msgs w :
  ticks (started (logged now isoformat self msgs (started w)))
  = (ticks w + 2 + length msgs)%nat.
Proof. simpl. lia. Qed.

End Envelope.

(** X17: a research agent never fails: its output is one line
    ["[model] Research on: task"] per model, joined by blank lines, and the
    call appends to the agent's log the step ["Starting research agent"], one
    step ["Querying model: model"] per model in order, and
    ["Research completed"], each stamped with its own clock reading. *)
Theorem research_agent_steps
    (now : nat → Z) (isoformat : Z → pystr) (self : InvestigativeAgent)
    (task : pystr) (parameters : gmap pystr pyval) (w : world) :
  agent_type self = py "research" →
  ∃ r w',
    execute now isoformat self task parameters w = (inr r, w')
    ∧ r_status r = py "completed" ∧ r_error r = None
    ∧ r_output r
      = Some (join (nl ++ nl)
                ((fun model => py "[" ++ model ++ py "] Research on: " ++ task)
                 <$> models self))
    ∧ heap w'
      = alter (fun log => log ++ entries now isoformat (S (ticks w))
                                   (research_steps (models self)))
              (execution_log self) (heap w)
    ∧ ticks w' = (ticks w + 4 + length (models self))%nat.
Proof.
  intros Hty. rewrite execute_outcome. cbn zeta.
  assert (Hrun : variant now isoformat self task parameters (started w)
                 = _research_agent now isoformat self task parameters (started w)).
  { unfold variant. by rewrite decide_True. }
  rewrite Hrun, research_run. eexists _, _. split; [reflexivity|].
  split; [done|]. split; [done|]. split; [done|]. split; [done|].
  simpl. unfold research_steps. simpl. rewrite length_app, length_fmap. simpl. lia.
Qed.

Lemma research_agent_steps_witness :
  let self := {| agent_type := py "research"; models := [py "m1"; py "m2"];
                 execution_log := 0%nat |} in
  let w := World {[ 0%nat := [] ]} 0 in
  ∃ r w',
    execute tick_clock tick_format self (py "t") ∅ w = (inr r, w')
    ∧ r_output r = Some (py "[m1] Research on: t" ++ nl ++ nl ++ py "[m2] Research on: t")
    ∧ ticks w' = 6%nat.
Proof.
  intros self w.
  destruct (research_agent_steps tick_clock tick_format self (py "t") ∅ w eq_refl)
    as (r & w' & Hrun & _ & _ & Hout & _ & Hticks).
  exists r, w'. split; [exact Hrun|]. split; [exact Hout|exact Hticks].
Defined.

(** X18: with parameter values that are [None], integers or strings,
    [execute] reports a failure exactly when the procedure is the analysis
    of a [data] that is no string with at least one model, or the summary of
    a [content] that is no string.  The status is then ["failed"], the error
    is set and the output is not; in every other case the status is
    ["completed"], the output is set and the error is not. *)
Theorem execute_fails_exactly_when
    (now : nat → Z) (isoformat : Z → pystr) (self : InvestigativeAgent)
    (task : pystr) (parameters : gmap pystr pyval) (w : world) :
  ∃ r w',
    execute now isoformat self task parameters w = (inr r, w')
    ∧ (raises self parameters →
       r_status r = py "failed" ∧ is_Some (r_error r) ∧ r_output r = None
       ∧ r_execution_log r = None)
    ∧ (¬ raises self parameters →
       r_status r = py "completed" ∧ r_error r = None ∧ is_Some (r_output r)
       ∧ r_execution_log r = Some (execution_log self)).
Proof.
  destruct (execute_run now isoformat self task parameters w)
    as (outcome & msgs & r & _ & Hraise & Hrun & ->).
  eexists _, _. split; [exact Hrun|].
  destruct outcome as [e|output]; simpl.
  - split; [done|]. intros Hnot. exfalso. apply Hnot, Hraise. by eexists.
  - split; [|done]. intros [e He]%Hraise. discriminate.
Qed.

Lemma execute_fails_exactly_when_witness :
  let self := {| agent_type := py "analysis"; models := [py "m1"];
                 execution_log := 0%nat |} in
  let parameters : gmap pystr pyval := {[ py "data" := PNone ]} in
  let w := World {[ 0%nat := [] ]} 0 in
  raises self parameters
  ∧ ∃ r w',
      execute tick_clock tick_format self (py "t") parameters w = (inr r, w')
      ∧ r_status r = py "failed" ∧ is_Some (r_error r).
Proof.
  intros self parameters w.
  assert (Hraises : raises self parameters).
  { left. split; [done|]. split; [done|]. by vm_compute. }
  split; [exact Hraises|].
  destruct (execute_fails_exactly_when tick_clock tick_format self (py "t") parameters w)
    as (r & w' & Hrun & Hfail & _).
  exists r, w'. split; [exact Hrun|]. split; apply (Hfail Hraises).
Defined.

(** X19: one call of [execute] reads the clock twice and once per step, and
    changes the store only by appending the steps of the call to the log of
    its agent: the entries the log held stay in front, and the logs of other
    agents stay as they are. *)
Theorem execute_appends_only
    (now : nat → Z) (isoformat : Z → pystr) (self : InvestigativeAgent)
    (task : pystr) (parameters : gmap pystr pyval) (w : world) :
  ∃ r w' msgs,
    execute now isoformat self task parameters w = (inr r, w')
    ∧ ticks w' = (ticks w + 2 + length msgs)%nat
    ∧ heap w' !! execution_log self
      = (fun log => log ++ entries now isoformat (S (ticks w)) msgs)
        <$> heap w !! execution_log self
    ∧ (∀ l, l ≠ execution_log self → heap w' !! l = heap w !! l)
    ∧ r_start_time r = isoformat (now (ticks w))
    ∧ r_end_time r = Some (isoformat (now (ticks w' - 1)%nat)).
Proof.
  destruct (execute_run now isoformat self task parameters w)
    as (outcome & msgs & r & _ & _ & Hrun & ->).
  eexists _, _, msgs. split; [exact Hrun|].
  rewrite heap_logged, ticks_logged. split; [done|].
  split; [apply lookup_alter_eq|]. split; [by intros l Hl; apply lookup_alter_ne|].
  replace (ticks w + 2 + length msgs - 1)%nat with (S (ticks w) + length msgs)%nat by lia.
  by destruct outcome.
Qed.

Lemma execute_appends_only_witness :
  let self := {| agent_type := py "summary"; models := []; execution_log := 1%nat |} in
  let w := World {[ 0%nat := [LogEntry (py "t0") (py "kept")]; 1%nat := [] ]} 7 in
  ∃ r w',
    execute tick_clock tick_format self (py "t") ∅ w = (inr r, w')
    ∧ heap w' !! 0%nat = heap w !! 0%nat
    ∧ ticks w' = 12%nat.
Proof.
  intros self w.
  destruct (execute_appends_only tick_clock tick_format self (py "t") ∅ w)
    as (r & w' & msgs & Hrun & Hticks & _ & Hframe & _).
  exists r, w'. split; [exact Hrun|]. split; [by apply Hframe|].
  vm_compute in Hrun. by injection Hrun as _ <-.
Defined.

(** X20: the duration [execute] reports is the difference of its last and its
    first clock reading, so it is not negative on a clock that never runs
    backwards. *)
Theorem execute_duration
    (now : nat → Z) (isoformat : Z → pystr) (self : InvestigativeAgent)
    (task : pystr) (parameters : gmap pystr pyval) (w : world) :
  (∀ i j, (i ≤ j)%nat → now i ≤ now j) →
  ∃ r w' d,
    execute now isoformat self task parameters w = (inr r, w')
    ∧ r_duration_seconds r = Some d
    ∧ d = now (ticks w' - 1)%nat - now (ticks w)
    ∧ 0 ≤ d.
Proof.
  intros Hmono.
  destruct (execute_run now isoformat self task parameters w)
    as (outcome & msgs & r & _ & _ & Hrun & ->).
  eexists _, _, _. split; [exact Hrun|]. split; [by destruct outcome|].
  rewrite ticks_logged.
  replace (ticks w + 2 + length msgs - 1)%nat with (S (ticks w) + length msgs)%nat by lia.
  split; [done|]. pose proof (Hmono (ticks w) (S (ticks w) + length msgs)%nat). lia.
Qed.

Lemma execute_duration_witness :
  let self := {| agent_type := py "investigation"; models := [];
                 execution_log := 0%nat |} in
  let w := World {[ 0%nat := [] ]} 0 in
  (∀ i j, (i ≤ j)%nat → tick_clock i ≤ tick_clock j)
  ∧ ∃ r w' d,
      execute tick_clock tick_format self (py "t") ∅ w = (inr r, w')
      ∧ r_duration_seconds r = Some d
      ∧ d = tick_clock (ticks w' - 1)%nat - tick_clock (ticks w)
      ∧ 0 ≤ d.
Proof.
  intros self w.
  assert (Hmono : ∀ i j, (i ≤ j)%nat → tick_clock i ≤ tick_clock j).
  { intros i j Hij. unfold tick_clock. lia. }
  split; [exact Hmono|].
  exact (execute_duration tick_clock tick_format self (py "t") ∅ w Hmono).
Defined.

(** X21: the agent endpoint makes a new agent for every request, so the log its
    record carries is a new list that holds the steps of this call only, and
    no log that existed before is changed. *)
Theorem execute_agent_fresh_log
    (now : nat → Z) (isoformat : Z → pystr) (task : Api.AgentTask) (w : world) :
  ∃ r w' l msgs,
    Api.execute_agent now isoformat task w = (inr r, w')
    ∧ heap w !! l = None
    ∧ heap w' = <[l := entries now isoformat (S (ticks w)) msgs]> (heap w)
    ∧ (r_status r = py "completed" → r_execution_log r = Some l)
    ∧ (∀ l', is_Some (heap w !! l') → heap w' !! l' = heap w !! l').
Proof.
  unfold Api.execute_agent.
  set (l := fresh (dom (heap w))).
  set (self := {| agent_type := Api.t_agent_type task; models := Api.t_models task;
                  execution_log := l |}).
  set (w0 := World (<[l := []]> (heap w)) (ticks w)).
  assert (Hinit : __init__ (Api.t_agent_type task) (Api.t_models task) w = (inr self, w0))
    by done.
  assert (Hfresh : heap w !! l = None).
  { apply not_elem_of_dom, is_fresh. }
  destruct (execute_run now isoformat self (Api.t_task task)
              (Api.parameters_or_empty (Api.t_parameters task)) w0)
    as (outcome & msgs & r & _ & _ & Hrun & ->).
  eexists _, _, l, msgs. split.
  { erewrite bind_inr; [|exact Hinit]. exact Hrun. }
  split; [exact Hfresh|]. rewrite heap_logged. simpl.
  assert (Hheap : alter (fun log => log ++ entries now isoformat (S (ticks w)) msgs) l
                    (<[l := []]> (heap w))
                  = <[l := entries now isoformat (S (ticks w)) msgs]> (heap w)).
  { rewrite alter_insert_eq. by rewrite app_nil_l. }
  rewrite Hheap. split; [done|]. split.
  - destruct outcome as [e|output]; simpl; [|done]. intros H. by vm_compute in H.
  - intros l' [log Hl']. apply lookup_insert_ne. congruence.
Qed.

Lemma execute_agent_fresh_log_witness :
  let task := {| Api.t_agent_type := py "research"; Api.t_task := py "t";
                 Api.t_models := [py "m1"]; Api.t_parameters := None |} in
  let w := World {[ 0%nat := [LogEntry (py "t0") (py "earlier call")] ]} 4 in
  ∃ r w',
    Api.execute_agent tick_clock tick_format task w = (inr r, w')
    ∧ heap w' !! 0%nat = heap w !! 0%nat.
Proof.
  intros task w.
  destruct (execute_agent_fresh_log tick_clock tick_format task w)
    as (r & w' & l & msgs & Hrun & _ & _ & _ & Hkeep).
  exists r, w'. split; [exact Hrun|]. apply Hkeep. by eexists.
Defined.

End AgentMore.


(** * Properties of the graph endpoint *)
Module ApiMore.
Import EntityExtractor GraphBuilder.

Lemma numbered_keys source raws :
  ∀ i, node_key <$> (Api.set_source source <$> number_from i raws)
       = entity_name <$> List.seq i (length raws).
Proof.
  induction raws as [|[[[ty v] s] t] raws IH]; intros i; [done|].
  cbn [number_from length List.seq fmap list_fmap]. f_equal. apply IH.
Qed.

(** The node keys of the entities of one text do not depend on the text's
    source tag: they are [entity_0], [entity_1], ... *)
Lemma extracted_keys U source text :
  node_key <$> (Api.set_source source <$> extract_entities U text)
  = entity_name <$> List.seq 0 (length (extract_entities U text)).
Proof.
  rewrite EntityExtractorMore.extract_entities_shape, EntityExtractorMore.length_number_from.
  apply numbered_keys.
Qed.

Lemma collect_keys U sources texts :
  ∀ i all_entities,
    node_key <$> Api.collect U i texts sources all_entities
    = (node_key <$> all_entities)
      ++ mjoin ((fun text => entity_name <$> List.seq 0 (length (extract_entities U text)))
                <$> texts).
Proof.
  induction texts as [|text texts IH]; intros i all_entities.
  - simpl. by rewrite app_nil_r.
  - cbn [Api.collect]. rewrite IH, fmap_app, extracted_keys, <- app_assoc. done.
Qed.

Lemma names_below_max (lens : list nat) (k : pystr) :
  (∃ n j, n ∈ lens ∧ (j < n)%nat ∧ k = entity_name j)
  ↔ ∃ j, (j < max_list lens)%nat ∧ k = entity_name j.
Proof.
  split.
  - intros (n & j & Hn & Hj & ->). exists j. split; [|done].
    pose proof (max_list_elem_of_le n lens Hn). lia.
  - intros (j & Hj & ->). exists (max_list lens), j. split; [|done].
    apply max_list_elem_of. intros ->. simpl in Hj. lia.
Qed.

(** X22: the graph endpoint numbers the entities of every text afresh from
    [entity_0], so entities of different texts share ids and later ones are
    dropped as duplicates: the graph has as many nodes as the text with the
    most entities has entities, whatever the sources. *)
Theorem graph_endpoint_node_count
    (U : unicode) (graph_builder : builder) (texts sources : list pystr) :
  g_node_count (Api.build_graph U graph_builder texts sources).1
  = max_list ((fun text => length (extract_entities U text)) <$> texts).
Proof.
  unfold Api.build_graph.
  destruct (GraphBuilderMore.node_count_keys graph_builder
              (Api.collect U 0 texts sources [])) as [-> _].
  rewrite collect_keys, app_nil_l.
  set (lens := (fun text => length (extract_entities U text)) <$> texts).
  assert (Hset : (list_to_set
             (mjoin ((fun text => entity_name <$> List.seq 0 (length (extract_entities U text)))
                     <$> texts)) : gset pystr)
          = list_to_set (entity_name <$> List.seq 0 (max_list lens))).
  { apply set_eq. intros k. rewrite !elem_of_list_to_set.
    rewrite list_elem_of_fmap. setoid_rewrite elem_of_seq.
    rewrite list_elem_of_join. split.
    - intros (l & Hk & (text & -> & Htext)%list_elem_of_fmap).
      apply list_elem_of_fmap in Hk as (j & -> & Hj%elem_of_seq).
      destruct (proj1 (names_below_max lens (entity_name j))) as (j' & Hj' & Heq).
      + exists (length (extract_entities U text)), j. split; [|split; [lia|done]].
        by apply (list_elem_of_fmap_2 (fun text => length (extract_entities U text))).
      + exists j'. split; [done|lia].
    - intros (j & -> & Hj).
      destruct (proj2 (names_below_max lens (entity_name j))) as (n & j' & Hn & Hj' & Heq).
      + exists j. split; [lia|done].
      + apply list_elem_of_fmap in Hn as (text & -> & Htext).
        exists (entity_name <$> List.seq 0 (length (extract_entities U text))). split.
        * rewrite Heq. apply list_elem_of_fmap_2, elem_of_seq. lia.
        * by apply (list_elem_of_fmap_2
                      (fun text => entity_name <$> List.seq 0 (length (extract_entities U text)))). }
  rewrite Hset, size_list_to_set.
  - by rewrite length_fmap, length_seq.
  - apply NoDup_fmap_2; [apply EntityExtractorMore.entity_name_inj|apply NoDup_seq].
Qed.

End ApiMore.
